(** * Caliper on-line aggregation service (services/aggregate/Aggregate.cpp)

    A shallow embedding of the per-thread aggregation database
    [AggregateDB]: the aggregation kernel, the block allocator, the byte
    trie, the key builder of [process_snapshot], the flush walk and the
    registry of per-thread databases, followed by the properties of the
    service that are checked against this embedding.

    Conventions.
    - [uint32_t], [uint64_t] and [size_t] values are [N] with the
      wrap-around written out ([wrap32], [wrap64]).
    - [double] is IEEE 754 binary64, i.e. Rocq's primitive [float].
    - A null pointer is [None]; a pointer into a block of a [BlockAlloc]
      is the pair of block index and offset.
    - An index past the end of [m_blocks], a store past the end of a key
      buffer, a shift [1 << k] with [k >= 32] and a dereference of a
      dangling database pointer are undefined in C++; each is an explicit
      outcome of the model.
    - An attribute id ([cali_id_t]) that may be [CALI_INV_ID] is an
      [option N], with [None] for [CALI_INV_ID].
    - The callbacks of the service run one at a time. *)

From Stdlib Require Import Floats.
From stdpp Require Import gmap list fin_maps sorting strings.

Local Open Scope N_scope.

(** ** Machine integers *)

Definition wrap32 (x : N) : N := x mod 2 ^ 32.
Definition wrap64 (x : N) : N := x mod 2 ^ 64.

(** [#define MAX_KEYLEN 128] and [#define SNAP_MAX 80]. *)
Definition MAX_KEYLEN : nat := 128.
Definition SNAP_MAX : nat := 80.

(** ** The aggregation kernel *)

Module AggregateKernel.

(** [std::numeric_limits<double>::max()]: the largest finite double. *)
Definition DBL_MAX : float := 0x1.fffffffffffffp+1023%float.
(** [std::numeric_limits<double>::min()]: the smallest positive normal
    double (not the most negative one). *)
Definition DBL_MIN : float := 0x1p-1022%float.

(** [std::min(a, b)] is [(b < a) ? b : a]; [std::max(a, b)] is
    [(a < b) ? b : a]. *)
Definition std_min (a b : float) : float := if PrimFloat.ltb b a then b else a.
Definition std_max (a b : float) : float := if PrimFloat.ltb a b then b else a.

Record t := mk {
  min : float;
  max : float;
  sum : float;
  (** [int count]; [++count] is modelled without wrap-around (signed
      overflow is undefined in C++). *)
  count : Z
}.

(** The constructor [AggregateKernel()]. *)
Definition new : t :=
  {| min := DBL_MAX; max := DBL_MIN; sum := 0%float; count := 0%Z |}.

(** [void add(double val)]. *)
Definition add (val : float) (k : t) : t :=
  {| min := std_min (min k) val;
     max := std_max (max k) val;
     sum := PrimFloat.add (sum k) val;
     count := (count k + 1)%Z |}.

(** [add(v1); ...; add(vn)] on one kernel. *)
Definition add_all (vals : list float) (k : t) : t :=
  foldl (fun k v => add v k) k vals.

End AggregateKernel.

(** ** The block allocator *)

(** [new T[n]] default-constructs its elements: [TrieNode] through its
    member initialisers, [AggregateKernel] through its constructor. *)
Class DefaultCtor (T : Type) := default_ctor : T.

Module BlockAlloc.

(** The template defaults [MAX_BLOCKS = 2048], [ENTRIES_PER_BLOCK = 1024]. *)
Definition MAX_BLOCKS : N := 2048.
Definition ENTRIES_PER_BLOCK : N := 1024.

(** [T* m_blocks[MAX_BLOCKS]]: the block pointers at the indices below
    [MAX_BLOCKS]; an index without a binding holds the null pointer.  A
    block maps an offset to the element stored there; an offset without a
    binding still holds the default-constructed element. *)
Record t (T : Type) := mk {
  m_blocks : gmap N (gmap N T);
  m_num_blocks : N
}.
Arguments mk {T}.
Arguments m_blocks {T}.
Arguments m_num_blocks {T}.

(** A [T*] as returned by [get]: null, a pointer to the element at an
    offset of a block, or no pointer at all because [get] indexed
    [m_blocks] past its end (undefined behaviour). *)
Inductive ptr :=
  | Null
  | Ptr (block off : N)
  | OutOfBounds (block : N).

(** The constructor [BlockAlloc()] has an empty body: [m_blocks] is
    zeroed by its member initialiser and [m_num_blocks] is left
    indeterminate, here the value [indeterminate]. *)
Definition new {T} (indeterminate : N) : t T :=
  {| m_blocks := ∅; m_num_blocks := indeterminate |}.

(** [T* get(size_t id, bool alloc)]. *)
Definition get {T} (id : N) (alloc : bool) (a : t T) : t T * ptr :=
  let block := id / ENTRIES_PER_BLOCK in
  if MAX_BLOCKS <? block then (a, Null)
  else if negb (block <? MAX_BLOCKS) then (a, OutOfBounds block)
  else
    match m_blocks a !! block with
    | Some _ => (a, Ptr block (id mod ENTRIES_PER_BLOCK))
    | None =>
        if alloc then
          ({| m_blocks := <[block := ∅]> (m_blocks a);
              m_num_blocks := wrap64 (m_num_blocks a + 1) |},
           Ptr block (id mod ENTRIES_PER_BLOCK))
        else (a, Null)
    end.

(** [void clear()]. *)
Definition clear {T} (a : t T) : t T :=
  {| m_blocks := ∅; m_num_blocks := 0 |}.

Definition num_blocks {T} (a : t T) : N := m_num_blocks a.

(** Reading and writing through a pointer returned by [get]. *)
Definition read {T} `{DefaultCtor T} (a : t T) (block off : N) : T :=
  match m_blocks a !! block with
  | Some blk => default default_ctor (blk !! off)
  | None => default_ctor
  end.

Definition write {T} (a : t T) (block off : N) (v : T) : t T :=
  {| m_blocks := alter (fun blk => <[off := v]> blk) block (m_blocks a);
     m_num_blocks := m_num_blocks a |}.

End BlockAlloc.

#[global] Instance AggregateKernel_ctor : DefaultCtor AggregateKernel.t :=
  AggregateKernel.new.

(** ** Trie nodes *)

(** [struct TrieNode]: [next] is indexed by an [unsigned char]; a byte
    without a binding has the child id 0. *)
Record TrieNode := mkTrieNode {
  next : gmap N N;
  k_id : N;
  count : N
}.

Definition NO_KERNEL : N := 0xFFFFFFFF.

#[global] Instance TrieNode_ctor : DefaultCtor TrieNode :=
  {| next := ∅; k_id := NO_KERNEL; count := 0 |}.

Definition next_at (node : TrieNode) (b : N) : N := default 0 (next node !! b).

Definition set_next (b id : N) (node : TrieNode) : TrieNode :=
  {| next := <[b := id]> (next node); k_id := k_id node; count := count node |}.

Definition set_k_id (id : N) (node : TrieNode) : TrieNode :=
  {| next := next node; k_id := id; count := count node |}.

Definition incr_count (node : TrieNode) : TrieNode :=
  {| next := next node; k_id := k_id node; count := wrap32 (count node + 1) |}.

(** ** Snapshots and the host framework *)

(** Modelled from the spec: a context-tree node of the host (Node.h is
    not among the sources) has an id, an owning attribute id and a parent
    pointer: [id()], [attribute()], [parent()]. *)
Inductive Node :=
  | TopNode (id attribute : N)
  | ChildNode (id attribute : N) (parent : Node).

Definition node_id (n : Node) : N :=
  match n with TopNode i _ | ChildNode i _ _ => i end.
Definition node_attribute (n : Node) : N :=
  match n with TopNode _ a | ChildNode _ a _ => a end.
Definition node_parent (n : Node) : option Node :=
  match n with TopNode _ _ => None | ChildNode _ _ p => Some p end.

(** The nodes visited by [for (node = n; node; node = node->parent())]. *)
Fixpoint parent_chain (n : Node) : list Node :=
  match n with
  | TopNode _ _ => [n]
  | ChildNode _ _ p => n :: parent_chain p
  end.

(** Modelled from the spec: a snapshot (SnapshotRecord.h is not among
    the sources) holds a list of context-tree nodes and a list of
    immediate entries [(immediate_attr[i], immediate_data[i])].  The
    [Variant] of an entry is kept by the two views the service takes of
    it: [*static_cast<const uint64_t*>(data())] and [to_double()].  The
    attribute id [immediate_attr[i]] is a [cali_id_t]: as for every
    attribute id of the service, [CALI_INV_ID] is [None], so that an
    entry with the invalid id matches an attribute that is not known, as
    [==] on the ids does. *)
Record ImmEntry := mkImm {
  imm_attr : option N;
  imm_u64 : N;
  imm_double : float
}.

Record SnapshotRecord := mkSnapshot {
  node_entries : list Node;
  immediate : list ImmEntry
}.

(** What the service asks of [Caliper* c], taken as parameters
    (Caliper.h is not among the sources).  An attribute that is not
    (yet) known, [Attribute::invalid] with the id [CALI_INV_ID], is [None].
    [make_tree_entry] receives the node list (the root it is given is
    [m_aggr_root_node], the same in every database) and answers the id
    of the synthesized node, or [None] for a null result;
    [get_attribute] looks an attribute up by its name. *)
Record Caliper := mkCaliper {
  is_signal : bool;
  make_tree_entry : list (option Node) -> option N;
  get_attribute : string -> option N
}.

(** ** The per-thread database *)

Record AggregateDB := mkDB {
  m_stopped : bool;
  m_retired : bool;
  m_next : option N;
  m_prev : option N;
  m_aggr_attributes : list (option N);
  m_trie : BlockAlloc.t TrieNode;
  m_kernels : BlockAlloc.t AggregateKernel.t;
  m_num_trie_entries : N;
  m_num_kernel_entries : N;
  m_num_dropped : N;
  m_max_keylen : N
}.

Definition set_stopped (b : bool) (db : AggregateDB) : AggregateDB :=
  mkDB b (m_retired db) (m_next db) (m_prev db) (m_aggr_attributes db)
       (m_trie db) (m_kernels db) (m_num_trie_entries db)
       (m_num_kernel_entries db) (m_num_dropped db) (m_max_keylen db).

Definition set_retired (b : bool) (db : AggregateDB) : AggregateDB :=
  mkDB (m_stopped db) b (m_next db) (m_prev db) (m_aggr_attributes db)
       (m_trie db) (m_kernels db) (m_num_trie_entries db)
       (m_num_kernel_entries db) (m_num_dropped db) (m_max_keylen db).

Definition set_next_db (p : option N) (db : AggregateDB) : AggregateDB :=
  mkDB (m_stopped db) (m_retired db) p (m_prev db) (m_aggr_attributes db)
       (m_trie db) (m_kernels db) (m_num_trie_entries db)
       (m_num_kernel_entries db) (m_num_dropped db) (m_max_keylen db).

Definition set_prev_db (p : option N) (db : AggregateDB) : AggregateDB :=
  mkDB (m_stopped db) (m_retired db) (m_next db) p (m_aggr_attributes db)
       (m_trie db) (m_kernels db) (m_num_trie_entries db)
       (m_num_kernel_entries db) (m_num_dropped db) (m_max_keylen db).

Definition set_trie (tr : BlockAlloc.t TrieNode) (db : AggregateDB) : AggregateDB :=
  mkDB (m_stopped db) (m_retired db) (m_next db) (m_prev db) (m_aggr_attributes db)
       tr (m_kernels db) (m_num_trie_entries db)
       (m_num_kernel_entries db) (m_num_dropped db) (m_max_keylen db).

Definition set_kernels (ks : BlockAlloc.t AggregateKernel.t) (db : AggregateDB) : AggregateDB :=
  mkDB (m_stopped db) (m_retired db) (m_next db) (m_prev db) (m_aggr_attributes db)
       (m_trie db) ks (m_num_trie_entries db)
       (m_num_kernel_entries db) (m_num_dropped db) (m_max_keylen db).

Definition set_num_trie_entries (n : N) (db : AggregateDB) : AggregateDB :=
  mkDB (m_stopped db) (m_retired db) (m_next db) (m_prev db) (m_aggr_attributes db)
       (m_trie db) (m_kernels db) n
       (m_num_kernel_entries db) (m_num_dropped db) (m_max_keylen db).

Definition set_num_kernel_entries (n : N) (db : AggregateDB) : AggregateDB :=
  mkDB (m_stopped db) (m_retired db) (m_next db) (m_prev db) (m_aggr_attributes db)
       (m_trie db) (m_kernels db) (m_num_trie_entries db)
       n (m_num_dropped db) (m_max_keylen db).

Definition set_num_dropped (n : N) (db : AggregateDB) : AggregateDB :=
  mkDB (m_stopped db) (m_retired db) (m_next db) (m_prev db) (m_aggr_attributes db)
       (m_trie db) (m_kernels db) (m_num_trie_entries db)
       (m_num_kernel_entries db) n (m_max_keylen db).

Definition set_max_keylen (n : N) (db : AggregateDB) : AggregateDB :=
  mkDB (m_stopped db) (m_retired db) (m_next db) (m_prev db) (m_aggr_attributes db)
       (m_trie db) (m_kernels db) (m_num_trie_entries db)
       (m_num_kernel_entries db) (m_num_dropped db) n.

(** The constructor [AggregateDB(Caliper* c)], with [names] for
    [s_aggr_attribute_names].  [indet_trie] and [indet_kernels] are the
    indeterminate start values of the two [m_num_blocks] counters. *)
Definition AggregateDB_new (c : Caliper) (names : list string)
    (indet_trie indet_kernels : N) : AggregateDB :=
  {| m_stopped := false;
     m_retired := false;
     m_next := None;
     m_prev := None;
     m_aggr_attributes := map (get_attribute c) names;
     m_trie := (BlockAlloc.get 0 true (BlockAlloc.new indet_trie)).1;
     m_kernels := (BlockAlloc.get 0 true (BlockAlloc.new indet_kernels)).1;
     m_num_trie_entries := 0;
     m_num_kernel_entries := 0;
     m_num_dropped := 0;
     m_max_keylen := 0 |}.

(** *** [find_entry] *)

(** The loop [for (i = 0; entry && i < n; ++i)] of [find_entry], entered
    with a non-null [entry] at the block [blk] and offset [off]. *)
Fixpoint find_entry_walk (alloc : bool) (key : list N) (blk off : N)
    (db : AggregateDB) : AggregateDB * BlockAlloc.ptr :=
  match key with
  | [] => (db, BlockAlloc.Ptr blk off)
  | b :: key' =>
      let node := BlockAlloc.read (m_trie db) blk off in
      let id := next_at node b in
      let '(db1, id1) :=
        if id =? 0 then
          let n := wrap64 (m_num_trie_entries db + 1) in
          let id' := wrap32 n in
          (set_trie (BlockAlloc.write (m_trie db) blk off (set_next b id' node))
                    (set_num_trie_entries n db), id')
        else (db, id) in
      match BlockAlloc.get id1 alloc (m_trie db1) with
      | (tr, BlockAlloc.Ptr blk' off') =>
          find_entry_walk alloc key' blk' off' (set_trie tr db1)
      | (tr, p) => (set_trie tr db1, p)
      end
  end.

(** The loop [for (unsigned i = 0; i < num_ids; ++i)] over the kernel
    slots [first_id + i] (an [uint32_t] sum); [idx] are the remaining
    values of [i].  The answer is [Ptr 0 0] when no [get] failed. *)
Fixpoint ensure_kernels (alloc : bool) (first_id : N) (idx : list nat)
    (ks : BlockAlloc.t AggregateKernel.t)
    : BlockAlloc.t AggregateKernel.t * BlockAlloc.ptr :=
  match idx with
  | [] => (ks, BlockAlloc.Ptr 0 0)
  | i :: idx' =>
      match BlockAlloc.get (wrap32 (first_id + N.of_nat i)) alloc ks with
      | (ks1, BlockAlloc.Ptr _ _) => ensure_kernels alloc first_id idx' ks1
      | (ks1, p) => (ks1, p)
      end
  end.

(** The part of [find_entry] after the walk, for a non-null [entry]. *)
Definition find_entry_kernels (alloc : bool) (blk off : N) (db : AggregateDB)
    : AggregateDB * BlockAlloc.ptr :=
  let node := BlockAlloc.read (m_trie db) blk off in
  if k_id node =? NO_KERNEL then
    let num_ids := length (m_aggr_attributes db) in
    if (0 <? num_ids)%nat then
      let first_id := wrap32 (m_num_kernel_entries db + 1) in
      let db1 := set_num_kernel_entries
                   (wrap64 (m_num_kernel_entries db + N.of_nat num_ids)) db in
      match ensure_kernels alloc first_id (seq 0 num_ids) (m_kernels db1) with
      | (ks, BlockAlloc.Ptr _ _) =>
          let db2 := set_kernels ks db1 in
          (set_trie (BlockAlloc.write (m_trie db2) blk off (set_k_id first_id node)) db2,
           BlockAlloc.Ptr blk off)
      | (ks, BlockAlloc.Null) => (set_kernels ks db1, BlockAlloc.Null)
      | (ks, BlockAlloc.OutOfBounds b) => (set_kernels ks db1, BlockAlloc.OutOfBounds b)
      end
    else (db, BlockAlloc.Ptr blk off)
  else (db, BlockAlloc.Ptr blk off).

(** [TrieNode* find_entry(size_t n, unsigned char* key, bool alloc)];
    [key] holds the [n] bytes that are read. *)
Definition find_entry (key : list N) (alloc : bool) (db : AggregateDB)
    : AggregateDB * BlockAlloc.ptr :=
  match BlockAlloc.get 0 alloc (m_trie db) with
  | (tr, BlockAlloc.Ptr blk off) =>
      match find_entry_walk alloc key blk off (set_trie tr db) with
      | (db1, BlockAlloc.Ptr blk' off') => find_entry_kernels alloc blk' off' db1
      | (db1, p) => (db1, p)
      end
  | (tr, p) => (set_trie tr db, p)
  end.

(** ** The varint codec *)

(** Modelled from the spec: [vlenc_u64] of c-util/vlenc.h, which is not
    among the sources.  Little-endian base 128: each byte carries seven
    payload bits, the high bit is set on every byte but the last.  A
    64-bit value has at most nine continuation bytes. *)
Fixpoint vlenc_bytes (more : nat) (val : N) : list N :=
  match more with
  | O => [val]
  | S more' =>
      if 0x7F <? val
      then N.lor (N.land val 0x7F) 0x80 :: vlenc_bytes more' (N.shiftr val 7)
      else [val]
  end.

Definition vlenc_u64 (val : N) : list N := vlenc_bytes 9 (wrap64 val).

(** Modelled from the spec: [vldec_u64] of c-util/vlenc.h, which is not
    among the sources.  The answer is the value and the number of bytes
    read, at most ten; its callers have no failure path, so a number
    that is still open at its tenth byte ends there.  A byte past the end
    of [buf] reads as 0, as in the zero-filled key of [recursive_flush]. *)
Fixpoint vldec_bytes (more : nat) (shift : N) (buf : list N) : N * nat :=
  let b := default 0 (head buf) in
  let v := N.shiftl (N.land b 0x7F) shift in
  match more with
  | O => (v, 1%nat)
  | S more' =>
      if N.testbit b 7 then
        let '(v', n) := vldec_bytes more' (shift + 7) (tail buf) in
        (N.lor v v', S n)
      else (v, 1%nat)
  end.

Definition vldec_u64 (buf : list N) : N * nat :=
  let '(v, n) := vldec_bytes 9 0 buf in (wrap64 v, n).

(** ** The key builder of [process_snapshot] *)

(** [std::sort] on node ids: the ascending arrangement of the array. *)
Definition std_sort (ids : list N) : list N := merge_sort N.le ids.

(** *** Node portion with key attributes *)

(** The first loop nest: [++key_entries[a]] for every node on the parent
    chains whose attribute is the key attribute [a]. *)
Definition count_key_entries (key_attribute_ids : list N) (nodes : list Node)
    : list nat :=
  foldl (fun key_entries node =>
           zip_with (fun ka cnt =>
                       if bool_decide (ka = node_attribute node) then S cnt else cnt)
                    key_attribute_ids key_entries)
        (replicate (length key_attribute_ids) 0%nat)
        (nodes ≫= parent_chain).

(** [start_nodes[i]]: the first node on the chain of [node_entries[i]]
    that carries a key attribute, or null. *)
Definition start_node (key_attribute_ids : list N) (n : Node) : option Node :=
  head (filter (fun m => node_attribute m ∈ key_attribute_ids) (parent_chain n)).

(** [key_entries[a] += key_entries[a-1]] for [a = 1, 2, ...]. *)
Fixpoint prefix_sum (acc : nat) (l : list nat) : list nat :=
  match l with
  | [] => []
  | x :: l' => (acc + x)%nat :: prefix_sum (acc + x)%nat l'
  end.

(** [nodelist[key_entries[a] - (++filled[a])] = node] for every key
    attribute [a] of [node].  The index is inside [nodelist] because
    [filled[a]] never exceeds the count taken by [count_key_entries]. *)
Definition place_node (key_attribute_ids : list N) (key_entries : list nat)
    (st : list (option Node) * list nat) (node : Node)
    : list (option Node) * list nat :=
  foldl (fun st a =>
           if bool_decide (key_attribute_ids !! a = Some (node_attribute node)) then
             let f := S (default 0%nat (st.2 !! a)) in
             (<[(default 0%nat (key_entries !! a) - f)%nat := Some node]> (st.1),
              <[a := f]> (st.2))
           else st)
        st (seq 0 (length key_attribute_ids)).

(** The branch [n_key_attr > 0 && sizes.n_nodes > 0]: the ids written to
    [nodeid_vec], none or one. *)
Definition key_node_ids (c : Caliper) (key_attribute_ids : list N)
    (nodes : list Node) : list N :=
  let key_entries := prefix_sum 0 (count_key_entries key_attribute_ids nodes) in
  let tot_entries := default 0%nat (last key_entries) in
  if (0 <? tot_entries)%nat then
    let starts := nodes ≫= (fun n =>
                    from_option parent_chain [] (start_node key_attribute_ids n)) in
    let nodelist :=
      (foldl (place_node key_attribute_ids key_entries)
             (replicate tot_entries None,
              replicate (length key_attribute_ids) 0%nat) starts).1 in
    match make_tree_entry c nodelist with
    | Some id => [id]
    | None => []
    end
  else [].

(** [nodeid_vec[0 .. n_nodes)] as it stands before the key is encoded.
    [K] is [s_key_attribute_ids]. *)
Definition nodeid_vec (c : Caliper) (K : list (option N)) (snap : SnapshotRecord)
    : list N :=
  let key_attribute_ids := omap id K in
  if (0 <? length key_attribute_ids)%nat && (0 <? length (node_entries snap))%nat
  then key_node_ids c key_attribute_ids (node_entries snap)
  else std_sort (map node_id (node_entries snap)).

(** *** Encoding *)

(** The loop over [nodeid_vec] that fills [node_key]; the bytes written
    so far are [node_key], so [node_key_len] is its length. *)
Fixpoint encode_node_key (ids : list N) (node_key : list N) : list N :=
  match ids with
  | [] => node_key
  | id :: ids' =>
      if (length node_key + 10 <? MAX_KEYLEN)%nat
      then encode_node_key ids' (node_key ++ vlenc_u64 id)
      else node_key
  end.

(** Storing [bytes] at [buf + pos]; [buf] lists the bytes of the buffer
    that were written so far. *)
Definition write_at (buf : list N) (pos : nat) (bytes : list N) : list N :=
  resize pos 0 buf ++ bytes ++ drop (pos + length bytes) buf.

(** [1 << k]: a shift of the [int] 1, converted to [uint64_t] where it
    meets the 64-bit bitfield.  For [k < 31] the value is [2^k].  For
    [k = 31] the shift gives [INT_MIN], whose conversion sets the bits 31
    to 63.  For [k >= 32] the shift count is not less than the width of
    [int] and the shift is undefined: [None]. *)
Definition int_shl1 (k : nat) : option N :=
  if (k <? 31)%nat then Some (N.shiftl 1 (N.of_nat k))
  else if (k =? 31)%nat then Some 0xFFFFFFFF80000000
  else None.

(** The scratch buffer [imm_key] with [imm_key_len] and
    [imm_key_bitfield]. *)
Record ImmKey := mkImmKey {
  imm_key : list N;
  imm_key_len : nat;
  imm_key_bitfield : N
}.

(** The size check of the immediate loop: true when the candidate with
    [p] encoded bytes is discarded; [bit] is the value of [1 << k]. *)
Definition imm_too_long (node_key_len : nat) (p : nat) (bit : N) (st : ImmKey) : bool :=
  (MAX_KEYLEN <=? node_key_len + imm_key_len st + p
                  + length (vlenc_u64 (N.lor (imm_key_bitfield st) bit)) + 1)%nat.

(** The inner loop [for (i = 0; i < sizes.n_immediate; ++i)] for the key
    attribute of index [k] with the id [attr_k], over the immediate
    entries that are still to be visited.  The value of a matching entry
    is encoded to [imm_key + imm_key_len] first; then the size check
    evaluates [1 << k].  [None] is an undefined shift. *)
Fixpoint imm_scan (node_key_len : nat) (k : nat) (attr_k : option N)
    (imms : list ImmEntry) (st : ImmKey) : option ImmKey :=
  match imms with
  | [] => Some st
  | e :: imms' =>
      if bool_decide (attr_k = imm_attr e) then
        let bytes := vlenc_u64 (imm_u64 e) in
        let written := write_at (imm_key st) (imm_key_len st) bytes in
        bit ← int_shl1 k;
        if imm_too_long node_key_len (length bytes) bit st then
          (* break *)
          Some (mkImmKey written (imm_key_len st) (imm_key_bitfield st))
        else
          imm_scan node_key_len k attr_k imms'
            (mkImmKey written (imm_key_len st + length bytes)%nat
                      (N.lor (imm_key_bitfield st) bit))
      else imm_scan node_key_len k attr_k imms' st
  end.

(** The outer loop [for (k = 0; k < s_key_attribute_ids.size(); ++k)],
    from the index [k] on; [K] are the ids from that index on. *)
Fixpoint imm_loop (node_key_len : nat) (k : nat) (K : list (option N))
    (imms : list ImmEntry) (st : ImmKey) : option ImmKey :=
  match K with
  | [] => Some st
  | attr_k :: K' =>
      st1 ← imm_scan node_key_len k attr_k imms st;
      imm_loop node_key_len (S k) K' imms st1
  end.

(** The assembly of [key]: byte [j] of the answer is stored to [key[j]],
    and [pos] is its length. *)
Definition assemble_key (n_nodes : nat) (node_key : list N) (st : ImmKey) : list N :=
  let has_imm := negb (imm_key_bitfield st =? 0) in
  vlenc_u64 (N.of_nat n_nodes * 2 + (if has_imm then 1 else 0))
  ++ node_key
  ++ (if has_imm
      then vlenc_u64 (imm_key_bitfield st) ++ take (imm_key_len st) (imm_key st)
      else []).

(** The state of the immediate loop when it ends; [None] when a shift
    in it is undefined. *)
Definition snapshot_imm_key (c : Caliper) (K : list (option N))
    (snap : SnapshotRecord) : option ImmKey :=
  let node_key := encode_node_key (nodeid_vec c K snap) [] in
  imm_loop (length node_key) 0 K (immediate snap) (mkImmKey [] 0 0).

(** The key of a snapshot, as [process_snapshot] hands it to
    [find_entry]; [None] when a shift of the immediate loop is
    undefined. *)
Definition snapshot_key (c : Caliper) (K : list (option N))
    (snap : SnapshotRecord) : option (list N) :=
  let ids := nodeid_vec c K snap in
  st ← snapshot_imm_key c K snap;
  Some (assemble_key (length ids) (encode_node_key ids []) st).

(** ** Ingest *)

(** The inner loop of the update,
    [for (i = 0; i < sizes.n_immediate; ++i)], for the aggregated
    attribute of index [a] with the id [attr_a]; [None] when [get]
    indexes past the block array. *)
Fixpoint add_matching (alloc : bool) (kid : N) (a : nat) (attr_a : option N)
    (imms : list ImmEntry) (ks : BlockAlloc.t AggregateKernel.t)
    : option (BlockAlloc.t AggregateKernel.t) :=
  match imms with
  | [] => Some ks
  | e :: imms' =>
      if bool_decide (attr_a = imm_attr e) then
        match BlockAlloc.get (wrap64 (kid + N.of_nat a)) alloc ks with
        | (ks1, BlockAlloc.Ptr blk off) =>
            add_matching alloc kid a attr_a imms'
              (BlockAlloc.write ks1 blk off
                 (AggregateKernel.add (imm_double e) (BlockAlloc.read ks1 blk off)))
        | (ks1, BlockAlloc.Null) => add_matching alloc kid a attr_a imms' ks1
        | (_, BlockAlloc.OutOfBounds _) => None
        end
      else add_matching alloc kid a attr_a imms' ks
  end.

(** The outer loop [for (a = 0; a < m_aggr_attributes.size(); ++a)]. *)
Fixpoint update_kernels (alloc : bool) (kid : N) (a : nat) (attrs : list (option N))
    (imms : list ImmEntry) (ks : BlockAlloc.t AggregateKernel.t)
    : option (BlockAlloc.t AggregateKernel.t) :=
  match attrs with
  | [] => Some ks
  | attr_a :: attrs' =>
      ks1 ← add_matching alloc kid a attr_a imms ks;
      update_kernels alloc kid (S a) attrs' imms ks1
  end.

(** [void process_snapshot(Caliper* c, const SnapshotRecord* snapshot)],
    with [K] for [s_key_attribute_ids].  [None] is undefined behaviour:
    an undefined shift [1 << k], a store past the end of [imm_key] or
    [key] (both [MAX_KEYLEN] bytes), or a [get] that indexes past the
    block array. *)
Definition process_snapshot (c : Caliper) (K : list (option N))
    (snap : SnapshotRecord) (db : AggregateDB) : option AggregateDB :=
  if (length (node_entries snap) + length (immediate snap) =? 0)%nat then Some db
  else
    st ← snapshot_imm_key c K snap;
    key ← snapshot_key c K snap;
    if (MAX_KEYLEN <? length (imm_key st))%nat || (MAX_KEYLEN <? length key)%nat
    then None
    else
      let db1 := set_max_keylen (N.max (N.of_nat (length key)) (m_max_keylen db)) db in
      let alloc := negb (is_signal c) in
      match find_entry key alloc db1 with
      | (db2, BlockAlloc.Null) =>
          Some (set_num_dropped (wrap64 (m_num_dropped db2 + 1)) db2)
      | (_, BlockAlloc.OutOfBounds _) => None
      | (db2, BlockAlloc.Ptr blk off) =>
          let node := incr_count (BlockAlloc.read (m_trie db2) blk off) in
          let db3 := set_trie (BlockAlloc.write (m_trie db2) blk off node) db2 in
          ks ← update_kernels alloc (k_id node) 0 (m_aggr_attributes db3)
                 (immediate snap) (m_kernels db3);
          Some (set_kernels ks db3)
      end.

(** ** Flush *)

(** The attributes of the entries of an emitted record:
    [s_key_attribute_ids[k]], the three attributes of
    [s_stats_attributes[a]], and [s_count_attribute]. *)
Inductive AttrRef :=
  | KeyAttr (k : nat)
  | MinAttr (a : nat)
  | MaxAttr (a : nat)
  | SumAttr (a : nat)
  | CountAttr.

Inductive Variant :=
  | VUint (v : N)
  | VDouble (v : float).

(** Modelled from the spec: the record handed to [flush_snapshot] is the
    sequence of the entries appended to it, without a bound of its own
    (SnapshotRecord.h is not among the sources).  An entry is one
    [snapshot.append(...)] of [write_aggregated_snapshot]: a node
    [c->node(id)] or an immediate entry. *)
Inductive RecEntry :=
  | RNode (id : N)
  | RImm (attr : AttrRef) (v : Variant).

(** [static_cast<int>(toc)]. *)
Definition int_of_u64 (x : N) : Z :=
  let z := Z.of_N (wrap32 x) in
  if (z <? 2 ^ 31)%Z then z else (z - 2 ^ 32)%Z.

(** The loop that decodes [n] node ids from [key + p]; the answer has
    the appended entries and the new [p]. *)
Fixpoint decode_nodes (n : nat) (key : list N) (p : nat) : list RecEntry * nat :=
  match n with
  | O => ([], p)
  | S n' =>
      let '(id, len) := vldec_u64 (drop p key) in
      let '(es, p') := decode_nodes n' key (p + len)%nat in
      (RNode id :: es, p')
  end.

(** The loop over the key attributes [k, k+1, ...] that decodes the
    immediate key entries selected by [imm_bitfield]; [ks] are the
    indices still to be visited.  The test [imm_bitfield & (1 << k)] is
    evaluated for every index; [None] is an undefined shift. *)
Fixpoint decode_imms (imm_bitfield : N) (ks : list nat) (key : list N) (p : nat)
    : option (list RecEntry) :=
  match ks with
  | [] => Some []
  | k :: ks' =>
      bit ← int_shl1 k;
      if negb (N.land imm_bitfield bit =? 0) then
        let '(val, len) := vldec_u64 (drop p key) in
        rest ← decode_imms imm_bitfield ks' key (p + len)%nat;
        Some (RImm (KeyAttr k) (VUint val) :: rest)
      else decode_imms imm_bitfield ks' key p
  end.

(** The key part of an emitted record; [None] when a shift of the loop
    over the key attributes is undefined. *)
Definition decode_key (K : list (option N)) (key : list N) : option (list RecEntry) :=
  let '(toc, p) := vldec_u64 key in
  let num_nodes := (int_of_u64 toc ÷ 2)%Z in
  let '(nodes, p1) :=
    decode_nodes (Z.to_nat (Z.min num_nodes (Z.of_nat SNAP_MAX))) key p in
  if toc mod 2 =? 1 then
    let '(imm_bitfield, len) := vldec_u64 (drop p1 key) in
    imms ← decode_imms imm_bitfield (seq 0 (length K)) key (p1 + len)%nat;
    Some (nodes ++ imms)
  else Some nodes.

(** The loop [for (a = 0; a < min(num_aggr_attr, SNAP_MAX/3); ++a)] over
    the values of [a] that are still to be visited; [kid] is
    [entry->k_id] and [entry->k_id + a] is an [unsigned] sum. *)
Fixpoint write_statistics (ks : BlockAlloc.t AggregateKernel.t) (kid : N)
    (aa : list nat) : option (list RecEntry) :=
  match aa with
  | [] => Some []
  | a :: aa' =>
      match (BlockAlloc.get (wrap32 (kid + N.of_nat a)) false ks).2 with
      | BlockAlloc.Null => Some []                 (* break *)
      | BlockAlloc.OutOfBounds _ => None
      | BlockAlloc.Ptr blk off =>
          let k := BlockAlloc.read ks blk off in
          rest ← write_statistics ks kid aa';
          if (AggregateKernel.count k =? 0)%Z then Some rest   (* continue *)
          else Some (RImm (MinAttr a) (VDouble (AggregateKernel.min k))
                     :: RImm (MaxAttr a) (VDouble (AggregateKernel.max k))
                     :: RImm (SumAttr a) (VDouble (AggregateKernel.sum k))
                     :: rest)
      end
  end.

(** The values of [a] the statistics loop ranges over. *)
Definition statistics_range (db : AggregateDB) : list nat :=
  seq 0 (Nat.min (length (m_aggr_attributes db)) (SNAP_MAX / 3)).

(** [write_aggregated_snapshot]: the entries appended to the record
    that is handed to [flush_snapshot], in the order of the appends;
    [None] is undefined behaviour, in the decoding of the key or in the
    statistics loop. *)
Definition write_aggregated_snapshot (K : list (option N)) (db : AggregateDB)
    (key : list N) (entry : TrieNode) : option (list RecEntry) :=
  keypart ← decode_key K key;
  stats ← write_statistics (m_kernels db) (k_id entry) (statistics_range db);
  Some (keypart ++ stats ++ [RImm CountAttr (VUint (count entry))]).

(** [recursive_flush]: the records written, in order; [num_written] is
    their number.  [key] holds the [n] bytes of the key so far; [depth]
    bounds the depth of the recursion, and [None] is either that bound
    reached or undefined behaviour. *)
Fixpoint recursive_flush (depth : nat) (K : list (option N)) (db : AggregateDB)
    (key : list N) (entry : BlockAlloc.ptr) : option (list (list RecEntry)) :=
  match entry with
  | BlockAlloc.Null => Some []
  | BlockAlloc.OutOfBounds _ => None
  | BlockAlloc.Ptr blk off =>
      match depth with
      | O => None
      | S depth' =>
          let node := BlockAlloc.read (m_trie db) blk off in
          own ← (if 0 <? count node
                 then r ← write_aggregated_snapshot K db key node; Some [r]
                 else Some []);
          foldl (fun acc i =>
                   if next_at node i =? 0 then acc
                   else
                     let e := (BlockAlloc.get (next_at node i) false (m_trie db)).2 in
                     written ← acc;
                     sub ← recursive_flush depth' K db (key ++ [i]) e;
                     Some (written ++ sub))
                (Some own) (map N.of_nat (seq 0 256))
      end
  end.

(** [size_t flush(Caliper* c)]. *)
Definition flush (depth : nat) (K : list (option N)) (db : AggregateDB)
    : option (list (list RecEntry)) :=
  recursive_flush depth K db [] (BlockAlloc.get 0 false (m_trie db)).2.

(** [void clear()]. *)
Definition clear (db : AggregateDB) : AggregateDB :=
  set_max_keylen 0
    (set_num_dropped 0
       (set_num_kernel_entries 0
          (set_num_trie_entries 0
             (set_kernels (BlockAlloc.clear (m_kernels db))
                (set_trie (BlockAlloc.clear (m_trie db)) db))))).

(** ** The registry of per-thread databases *)

(** The global statistics [s_global_...]. *)
Record GlobalStats := mkGlobalStats {
  s_global_num_trie_entries : N;
  s_global_num_kernel_entries : N;
  s_global_num_trie_blocks : N;
  s_global_num_kernel_blocks : N;
  s_global_num_dropped : N;
  s_global_max_keylen : N
}.

(** The static data of the class together with the databases that were
    created by [new] and not yet deleted, by address ([dbs]), and the
    value of the thread-specific slot [s_aggregate_db_key] of every
    thread ([tls]; no binding is a null slot). *)
Record Service := mkService {
  dbs : gmap N AggregateDB;
  s_list : option N;
  tls : gmap N N;
  s_key_attribute_names : list string;
  s_key_attribute_ids : list (option N);
  s_aggr_attribute_names : list string;
  globals : GlobalStats
}.

Definition set_dbs (h : gmap N AggregateDB) (s : Service) : Service :=
  mkService h (s_list s) (tls s) (s_key_attribute_names s)
            (s_key_attribute_ids s) (s_aggr_attribute_names s) (globals s).

Definition set_s_list (l : option N) (s : Service) : Service :=
  mkService (dbs s) l (tls s) (s_key_attribute_names s)
            (s_key_attribute_ids s) (s_aggr_attribute_names s) (globals s).

Definition set_tls (m : gmap N N) (s : Service) : Service :=
  mkService (dbs s) (s_list s) m (s_key_attribute_names s)
            (s_key_attribute_ids s) (s_aggr_attribute_names s) (globals s).

Definition set_key_attribute_ids (ids : list (option N)) (s : Service) : Service :=
  mkService (dbs s) (s_list s) (tls s) (s_key_attribute_names s)
            ids (s_aggr_attribute_names s) (globals s).

Definition set_globals (g : GlobalStats) (s : Service) : Service :=
  mkService (dbs s) (s_list s) (tls s) (s_key_attribute_names s)
            (s_key_attribute_ids s) (s_aggr_attribute_names s) g.

(** [init_static_data], given the two configured name lists. *)
Definition init_static_data (key_names aggr_names : list string) : Service :=
  {| dbs := ∅; s_list := None; tls := ∅;
     s_key_attribute_names := key_names;
     s_key_attribute_ids := replicate (length key_names) None;
     s_aggr_attribute_names := aggr_names;
     globals := mkGlobalStats 0 0 0 0 0 0 |}.

(** A store through the database pointer [a]; [None] when [a] is not the
    address of a live database. *)
Definition store_db (a : N) (f : AggregateDB -> AggregateDB)
    (h : gmap N AggregateDB) : option (gmap N AggregateDB) :=
  d ← h !! a; Some (<[a := f d]> h).

(** What the platform contributes to the construction of a database,
    taken as parameters: whether [pthread_setspecific] succeeds, and the
    two indeterminate block counters. *)
Record Platform := mkPlatform {
  setspecific_ok : bool;
  indet_trie : N;
  indet_kernels : N
}.

(** [static AggregateDB* acquire(Caliper* c, bool alloc)] on the thread
    [t].  [new] answers an address that is not in use. *)
Definition acquire (t : N) (c : Caliper) (alloc : bool) (pf : Platform)
    (s : Service) : option (Service * option N) :=
  match tls s !! t with
  | Some a => Some (s, Some a)
  | None =>
      if alloc then
        let a := fresh (dom (dbs s)) in
        let db := AggregateDB_new c (s_aggr_attribute_names s)
                                  (indet_trie pf) (indet_kernels pf) in
        if setspecific_ok pf then
          h ← match s_list s with
              | Some l => store_db l (set_prev_db (Some a)) (dbs s)
              | None => Some (dbs s)
              end;
          Some (set_tls (<[t := a]> (tls s))
                  (set_s_list (Some a)
                     (set_dbs (<[a := set_next_db (s_list s) db]> h) s)),
                Some a)
        else Some (set_dbs (<[a := db]> (dbs s)) s, Some a)
      else Some (s, None)
  end.

(** [static void retire(void* ptr)]. *)
Definition retire (ptr : option N) (s : Service) : option Service :=
  match ptr with
  | None => Some s
  | Some a => h ← store_db a (set_retired true) (dbs s); Some (set_dbs h s)
  end.

(** The end of the thread [t]: its slot is reset and the destructor
    [retire] of the key runs on the value the slot had. *)
Definition thread_exit (t : N) (s : Service) : option Service :=
  retire (tls s !! t) (set_tls (delete t (tls s)) s).

(** [void unlink()] on the database [d]. *)
Definition unlink (d : AggregateDB) (h : gmap N AggregateDB)
    : option (gmap N AggregateDB) :=
  h1 ← match m_next d with
       | Some n => store_db n (set_prev_db (m_prev d)) h
       | None => Some h
       end;
  match m_prev d with
  | Some p => store_db p (set_next_db (m_next d)) h1
  | None => Some h1
  end.

(** The statistics one database adds to the global ones in [flush_cb]. *)
Definition add_db_stats (d : AggregateDB) (g : GlobalStats) : GlobalStats :=
  {| s_global_num_trie_entries :=
       wrap64 (s_global_num_trie_entries g + m_num_trie_entries d);
     s_global_num_kernel_entries :=
       wrap64 (s_global_num_kernel_entries g + m_num_kernel_entries d);
     s_global_num_trie_blocks :=
       wrap64 (s_global_num_trie_blocks g + BlockAlloc.num_blocks (m_trie d));
     s_global_num_kernel_blocks :=
       wrap64 (s_global_num_kernel_blocks g + BlockAlloc.num_blocks (m_kernels d));
     s_global_num_dropped := wrap64 (s_global_num_dropped g + m_num_dropped d);
     s_global_max_keylen := N.max (s_global_max_keylen g) (m_max_keylen d) |}.

(** What [flush_cb] leaves behind: the state, the records written, and
    the addresses of the databases it visited, both in order. *)
Record Flushed := mkFlushed {
  fl_state : Service;
  fl_records : list (list RecEntry);
  fl_visited : list N
}.

(** The body of the loop [while (db)] of [flush_cb] for the database
    at [a]: the state it leaves, the next value of [db], and the records
    written. *)
Definition flush_db (depth : nat) (a : N) (s : Service)
    : option (Service * option N * list (list RecEntry)) :=
  d ← dbs s !! a;
  let d1 := set_stopped true d in
  recs ← flush depth (s_key_attribute_ids s) d1;
  let g := add_db_stats d1 (globals s) in
  let d2 := set_stopped false (clear d1) in
  let s1 := set_globals g (set_dbs (<[a := d2]> (dbs s)) s) in
  if m_retired d2 then
    let tmp := m_next d2 in
    h ← unlink d2 (dbs s1);
    let l := if bool_decide (s_list s1 = Some a) then tmp else s_list s1 in
    Some (set_s_list l (set_dbs (delete a h) s1), tmp, recs)
  else Some (s1, m_next d2, recs).

(** The loop [while (db)] of [flush_cb].  [steps] bounds the number of
    iterations and [depth] the recursion of each [flush]; [None] is one
    of the bounds reached or undefined behaviour. *)
Fixpoint flush_loop (steps depth : nat) (db : option N) (s : Service)
    : option Flushed :=
  match db with
  | None => Some (mkFlushed s [] [])
  | Some a =>
      match steps with
      | O => None
      | S steps' =>
          '(s1, next_db, recs) ← flush_db depth a s;
          r ← flush_loop steps' depth next_db s1;
          Some (mkFlushed (fl_state r) (recs ++ fl_records r) (a :: fl_visited r))
      end
  end.

(** [static void flush_cb(Caliper* c, const SnapshotRecord* trigger)]. *)
Definition flush_cb (steps depth : nat) (s : Service) : option Flushed :=
  flush_loop steps depth (s_list s) s.

(** [++s_global_num_dropped]. *)
Definition count_dropped (g : GlobalStats) : GlobalStats :=
  {| s_global_num_trie_entries := s_global_num_trie_entries g;
     s_global_num_kernel_entries := s_global_num_kernel_entries g;
     s_global_num_trie_blocks := s_global_num_trie_blocks g;
     s_global_num_kernel_blocks := s_global_num_kernel_blocks g;
     s_global_num_dropped := wrap64 (s_global_num_dropped g + 1);
     s_global_max_keylen := s_global_max_keylen g |}.

(** [static void process_snapshot_cb(Caliper* c, ..., snapshot)] on the
    thread [t]. *)
Definition process_snapshot_cb (t : N) (c : Caliper) (pf : Platform)
    (snap : SnapshotRecord) (s : Service) : option Service :=
  '(s1, db) ← acquire t c (negb (is_signal c)) pf s;
  let dropped := set_globals (count_dropped (globals s1)) s1 in
  match db with
  | None => Some dropped
  | Some a =>
      d ← dbs s1 !! a;
      if m_stopped d then Some dropped
      else
        d' ← process_snapshot c (s_key_attribute_ids s1) snap d;
        Some (set_dbs (<[a := d']> (dbs s1)) s1)
  end.

(** [static void post_init_cb(Caliper* c)] on the thread [t]. *)
Definition post_init_cb (t : N) (c : Caliper) (pf : Platform) (s : Service)
    : option Service :=
  '(s1, _) ← acquire t c true pf s;
  Some (set_key_attribute_ids
          (zip_with (fun name old =>
                       match get_attribute c name with
                       | Some id => Some id
                       | None => old
                       end)
                    (s_key_attribute_names s1) (s_key_attribute_ids s1)) s1).

(** [static void create_attribute_cb(Caliper* c, const Attribute& attr)]
    for the attribute with the given name and id. *)
Definition create_attribute_cb (name : string) (id : N) (s : Service) : Service :=
  match list_find (fun n => n = name) (s_key_attribute_names s) with
  | Some (i, _) => set_key_attribute_ids (<[i := Some id]> (s_key_attribute_ids s)) s
  | None => s
  end.

(** The callbacks the host can invoke, and a run of the service over a
    sequence of them, one callback at a time. *)
Inductive Event :=
  | EvProcessSnapshot (t : N) (c : Caliper) (pf : Platform) (snap : SnapshotRecord)
  | EvPostInit (t : N) (c : Caliper) (pf : Platform)
  | EvCreateAttribute (name : string) (id : N)
  | EvThreadExit (t : N)
  | EvFlush (steps depth : nat).

Definition handle (ev : Event) (s : Service) : option Service :=
  match ev with
  | EvProcessSnapshot t c pf snap => process_snapshot_cb t c pf snap s
  | EvPostInit t c pf => post_init_cb t c pf s
  | EvCreateAttribute name id => Some (create_attribute_cb name id s)
  | EvThreadExit t => thread_exit t s
  | EvFlush steps depth => fl_state <$> flush_cb steps depth s
  end.

Fixpoint run (evs : list Event) (s : Service) : option Service :=
  match evs with
  | [] => Some s
  | ev :: evs' => s1 ← handle ev s; run evs' s1
  end.

(** ** Concrete hosts, platforms and states *)

(** A host that knows the attributes [t] (id 100) and [rank] (id 200)
    and cannot synthesize nodes. *)
Definition host (signal : bool) : Caliper :=
  {| is_signal := signal;
     make_tree_entry := fun _ => None;
     get_attribute := fun name =>
       if String.eqb name "t" then Some 100
       else if String.eqb name "rank" then Some 200
       else None |}.

(** A platform on which [pthread_setspecific] succeeds, or fails. *)
Definition platform (ok : bool) : Platform :=
  {| setspecific_ok := ok; indet_trie := 0; indet_kernels := 0 |}.

(** A database that aggregates [t], as its constructor leaves it. *)
Definition fresh_db : AggregateDB := AggregateDB_new (host false) ["t"%string] 0 0.

(** A service whose only database, at the address 7 and owned by the
    thread 0, is being flushed: its [stopped] flag is set. *)
Definition stopped_service : Service :=
  {| dbs := {[ 7 := set_stopped true fresh_db ]};
     s_list := Some 7;
     tls := {[ 0 := 7 ]};
     s_key_attribute_names := [];
     s_key_attribute_ids := [];
     s_aggr_attribute_names := ["t"%string];
     globals := mkGlobalStats 0 0 0 0 0 0 |}.

(** A snapshot with the nodes of the given ids and the value [v] of [t]. *)
Definition sample (ids : list N) (v : float) : SnapshotRecord :=
  {| node_entries := map (fun i => TopNode i 1) ids;
     immediate := [mkImm (Some 100) 0 v] |}.

(** The service after the primary thread 0 ingested [sample [7] 10]. *)
Definition ingested_service : Service :=
  default (init_static_data [] ["t"%string])
    (run [EvPostInit 0 (host false) (platform true);
          EvProcessSnapshot 0 (host false) (platform true) (sample [7] 10)]
         (init_static_data [] ["t"%string])).

(** A snapshot without nodes that carries [rank = r] and [t = v]. *)
Definition ranked_sample (r : N) (v : float) : SnapshotRecord :=
  {| node_entries := []; immediate := [mkImm (Some 200) r 0; mkImm (Some 100) 0 v] |}.

(** The records of a [flush_cb] after the primary thread 0 ran
    [post_init_cb] and ingested the given snapshots, for the configured
    key and aggregated attribute names. *)
Definition flushed_records (key_names aggr_names : list string)
    (snaps : list SnapshotRecord) : option (list (list RecEntry)) :=
  s ← run (EvPostInit 0 (host false) (platform true)
           :: map (EvProcessSnapshot 0 (host false) (platform true)) snaps)
          (init_static_data key_names aggr_names);
  fl_records <$> flush_cb 4 16 s.

(** The database [fresh_db] after it ingested a snapshot with the node 7
    and [t = 10]. *)
Definition ingested_db : AggregateDB :=
  default fresh_db (process_snapshot (host false) [] (sample [7] 10) fresh_db).

(** The trie node of that snapshot's key, the bytes 2 and 7. *)
Definition ingested_entry : TrieNode := BlockAlloc.read (m_trie ingested_db) 0 2.

(** A snapshot of 64 nodes for a service without key attributes:
    thirteen ids that take nine bytes each and 51 ids that take ten. *)
Definition overlong_snapshot : SnapshotRecord :=
  {| node_entries :=
       map (fun i => TopNode (2 ^ 56 + N.of_nat i) 1) (seq 0 13)
       ++ map (fun i => TopNode (2 ^ 63 + N.of_nat i) 1) (seq 0 51);
     immediate := [] |}.

(** The key attributes with the ids 1 to [n], and a snapshot that gives
    each of them the immediate value [2^64 - 1], ten bytes once encoded. *)
Definition wide_keys (n : nat) : list (option N) :=
  map (fun k => Some (N.of_nat k)) (seq 1 n).

Definition wide_snapshot (n : nat) : SnapshotRecord :=
  {| node_entries := [];
     immediate := map (fun k => mkImm (Some (N.of_nat k)) (2 ^ 64 - 1) 0) (seq 1 n) |}.

(** Fourteen key attributes with one immediate entry each: eleven
    values of ten bytes, one of six bytes, one of ten bytes and one of
    one byte. *)
Definition mixed_snapshot : SnapshotRecord :=
  {| node_entries := [];
     immediate := immediate (wide_snapshot 11)
                  ++ [mkImm (Some 12) (2 ^ 35) 0; mkImm (Some 13) (2 ^ 64 - 1) 0;
                      mkImm (Some 14) 0 0] |}.

(** ** Notions used by the properties *)

(** Two block allocators have the same blocks allocated. *)
Definition same_blocks {T} (a b : BlockAlloc.t T) : Prop :=
  dom (BlockAlloc.m_blocks a) = dom (BlockAlloc.m_blocks b) /\
  BlockAlloc.num_blocks a = BlockAlloc.num_blocks b.

(** *** The rule of the immediate portion

    The rule for the immediate entries of a key, worded without the
    loops, the scratch buffer and the [break] of the code: what is
    committed is a bitfield and a sequence of bytes. *)
Record Committed := mkCommitted {
  cm_bitfield : N;
  cm_bytes : list N
}.

(** The size check: the node portion, the committed bytes, the bytes of
    the candidate, the encoding of the bitfield with the bit [k] and one
    more byte stay below [MAX_KEYLEN]. *)
Definition candidate_fits (node_key_len : nat) (k : nat) (value : N) (cm : Committed)
    : bool :=
  (node_key_len + length (cm_bytes cm) + length (vlenc_u64 value)
   + length (vlenc_u64 (N.lor (cm_bitfield cm) (2 ^ N.of_nat k))) + 1 <? MAX_KEYLEN)%nat.

(** The candidates of one key attribute, in their order: each one is
    checked, and committed when it passes; the first one that fails is
    left out together with those after it. *)
Fixpoint commit_candidates (node_key_len : nat) (k : nat) (values : list N)
    (cm : Committed) : Committed :=
  match values with
  | [] => cm
  | v :: values' =>
      if candidate_fits node_key_len k v cm then
        commit_candidates node_key_len k values'
          (mkCommitted (N.lor (cm_bitfield cm) (2 ^ N.of_nat k))
                       (cm_bytes cm ++ vlenc_u64 v))
      else cm
  end.

(** The candidates of a key attribute: the values of the immediate
    entries of the snapshot that carry its id. *)
Definition candidates (attr_k : option N) (imms : list ImmEntry) : list N :=
  imm_u64 <$> filter (fun e => attr_k = imm_attr e) imms.

(** The key attributes in their order, from the index [k] on: whatever
    happened to the candidates of one attribute, those of the next are
    checked and committed by the same rule. *)
Fixpoint commit_attributes (node_key_len : nat) (k : nat) (K : list (option N))
    (imms : list ImmEntry) (cm : Committed) : Committed :=
  match K with
  | [] => cm
  | attr_k :: K' =>
      commit_attributes node_key_len (S k) K' imms
        (commit_candidates node_key_len k (candidates attr_k imms) cm)
  end.

(** What the state of the immediate loop has committed: the bitfield and
    the first [imm_key_len] bytes of [imm_key]. *)
Definition committed (st : ImmKey) : Committed :=
  mkCommitted (imm_key_bitfield st) (take (imm_key_len st) (imm_key st)).

(** The kernel slot [m_kernels.get(kid + a, false)] of the statistics
    loop of [write_aggregated_snapshot]. *)
Definition kernel_slot (ks : BlockAlloc.t AggregateKernel.t) (kid : N) (a : nat)
    : BlockAlloc.ptr :=
  (BlockAlloc.get (wrap32 (kid + N.of_nat a)) false ks).2.

(** The entry is a statistic of the aggregated attribute [a]. *)
Definition stat_of (a : nat) (e : RecEntry) : Prop :=
  exists v, e = RImm (MinAttr a) v \/ e = RImm (MaxAttr a) v \/ e = RImm (SumAttr a) v.

(** The list pointers and the [retired] flag of [d'] are those of [d]. *)
Definition same_links (d d' : AggregateDB) : Prop :=
  m_next d' = m_next d /\ m_prev d' = m_prev d /\ m_retired d' = m_retired d.

(** No pointer of the registry holds the address [x]. *)
Definition unreferenced (x : N) (s : Service) : Prop :=
  s_list s <> Some x /\
  (forall t, tls s !! t <> Some x) /\
  forall a d, dbs s !! a = Some d -> m_next d <> Some x /\ m_prev d <> Some x.

(** [x] is the address of the live database [dx], and nothing points to
    it. *)
Definition orphan (x : N) (dx : AggregateDB) (s : Service) : Prop :=
  dbs s !! x = Some dx /\ unreferenced x s.

(** Every pointer of the registry is the address of a live database. *)
Definition closed (s : Service) : Prop :=
  (forall a, s_list s = Some a -> is_Some (dbs s !! a)) /\
  (forall t a, tls s !! t = Some a -> is_Some (dbs s !! a)) /\
  forall a d, dbs s !! a = Some d ->
    (forall n, m_next d = Some n -> is_Some (dbs s !! n)) /\
    (forall p, m_prev d = Some p -> is_Some (dbs s !! p)).

(** The database as one iteration of [flush_cb] leaves it. *)
Definition flushed_db (d : AggregateDB) : AggregateDB :=
  set_stopped false (clear (set_stopped true d)).

(** The trie of the database has no block, as [clear] leaves it. *)
Definition cleared (d : AggregateDB) : Prop := BlockAlloc.m_blocks (m_trie d) = ∅.

(** [l] is null or one of the addresses [V]. *)
Definition null_or_in (V : list N) (l : option N) : Prop :=
  l = None \/ exists a, l = Some a /\ a ∈ V.

(** The databases at the addresses [V] are cleared and chained to each
    other. *)
Definition cleared_chain (V : list N) (s : Service) : Prop :=
  forall a d, a ∈ V -> dbs s !! a = Some d -> cleared d /\ null_or_in V (m_next d).

(** What [unlink] on the database [d] makes of the database [db0] at the
    address [b]. *)
Definition relink (d : AggregateDB) (b : N) (db0 : AggregateDB) : AggregateDB :=
  let d1 := if bool_decide (m_next d = Some b)
            then set_prev_db (m_prev d) db0 else db0 in
  if bool_decide (m_prev d = Some b) then set_next_db (m_next d) d1 else d1.

(** The registry is well formed: [s_list] heads a chain that [m_next]
    and [m_prev] link in both directions, and the slot of a thread holds
    a live database of its own that is not retired. *)
Definition well_formed (s : Service) : Prop :=
  (forall h, s_list s = Some h ->
     exists d, dbs s !! h = Some d /\ m_prev d = None) /\
  (forall a d n, dbs s !! a = Some d -> m_next d = Some n ->
     exists dn, dbs s !! n = Some dn /\ m_prev dn = Some a) /\
  (forall a d p, dbs s !! a = Some d -> m_prev d = Some p ->
     exists dp, dbs s !! p = Some dp /\ m_next dp = Some a) /\
  (forall t a, tls s !! t = Some a ->
     exists d, dbs s !! a = Some d /\ m_retired d = false) /\
  (forall t1 t2 a, tls s !! t1 = Some a -> tls s !! t2 = Some a -> t1 = t2).

(** The database the loop of [flush_cb] is about to visit is the head of
    the list or has a predecessor. *)
Definition cursor_ok (s : Service) (l : option N) : Prop :=
  match l with
  | None => True
  | Some a => s_list s = Some a \/ forall d, dbs s !! a = Some d -> is_Some (m_prev d)
  end.

(** Along the addresses [V], each live database points to a later one
    or to null. *)
Fixpoint chain_sorted (s : Service) (V : list N) : Prop :=
  match V with
  | [] => True
  | a :: V' =>
      (forall d, dbs s !! a = Some d -> null_or_in V' (m_next d)) /\ chain_sorted s V'
  end.

(** *** Kernel slots *)

(** The kernel slots [kid + a] of all [n] aggregated attributes can be
    fetched. *)
Definition slots_ready (ks : BlockAlloc.t AggregateKernel.t) (n : nat) (kid : N) : Prop :=
  forall a, (a < n)%nat -> exists blk off, kernel_slot ks kid a = BlockAlloc.Ptr blk off.

(** Every trie node that was given kernels has all its slots. *)
Definition kernels_ready (db : AggregateDB) : Prop :=
  forall blk off,
    k_id (BlockAlloc.read (m_trie db) blk off) <> NO_KERNEL ->
    slots_ready (m_kernels db) (length (m_aggr_attributes db))
                (k_id (BlockAlloc.read (m_trie db) blk off)).

(** [get] without [alloc] looks at the allocated blocks only. *)
Definition fetchable {T} (a : BlockAlloc.t T) (id : N) : Prop :=
  exists blk off, (BlockAlloc.get id false a).2 = BlockAlloc.Ptr blk off.

(** Every live database of the registry keeps its kernels fetchable. *)
Definition all_ready (s : Service) : Prop :=
  forall a d, dbs s !! a = Some d -> kernels_ready d.

(** *** Block counters *)

(** The counter [m_num_blocks] is [i] more than the number of blocks
    that are allocated, all of them at indices below [MAX_BLOCKS]. *)
Definition counted_from {T} (i : N) (a : BlockAlloc.t T) : Prop :=
  BlockAlloc.num_blocks a = wrap64 (i + N.of_nat (size (BlockAlloc.m_blocks a))) /\
  forall blk, is_Some (BlockAlloc.m_blocks a !! blk) -> blk < BlockAlloc.MAX_BLOCKS.

(** One snapshot ingested by a database, and any number of them. *)
Definition ingest_step (d d' : AggregateDB) : Prop :=
  exists c K snap, process_snapshot c K snap d = Some d'.

Definition ingested (d d' : AggregateDB) : Prop := rtc ingest_step d d'.

(** Both block counters of a database, with their offsets. *)
Definition db_counted (i j : N) (db : AggregateDB) : Prop :=
  counted_from i (m_trie db) /\ counted_from j (m_kernels db).

(** *** The shape of the trie *)

(** The trie node with the id [id], the element [get(id, ...)] points
    to. *)
Definition node_at (tr : BlockAlloc.t TrieNode) (id : N) : TrieNode :=
  BlockAlloc.read tr (id / BlockAlloc.ENTRIES_PER_BLOCK) (id mod BlockAlloc.ENTRIES_PER_BLOCK).

(** The id of the node the bytes [key] lead to from the node [u], along
    child ids that are set and whose nodes [get] fetches. *)
Fixpoint path_from (tr : BlockAlloc.t TrieNode) (u : N) (key : list N) : option N :=
  match key with
  | [] => Some u
  | b :: key' =>
      let v := next_at (node_at tr u) b in
      if v =? 0 then None
      else match (BlockAlloc.get v false tr).2 with
           | BlockAlloc.Ptr _ _ => path_from tr v key'
           | _ => None
           end
  end.

(** The child ids form a tree below the root 0: every child id that is
    set is greater than the id of its node and at most
    [m_num_trie_entries], which a [uint32_t] holds, and no two places
    hold the same child id. *)
Definition trie_tree (db : AggregateDB) : Prop :=
  m_num_trie_entries db < 2 ^ 32 /\
  (forall u b, next_at (node_at (m_trie db) u) b <> 0 ->
     u < next_at (node_at (m_trie db) u) b <= m_num_trie_entries db) /\
  (forall u1 b1 u2 b2,
     next_at (node_at (m_trie db) u1) b1 <> 0 ->
     next_at (node_at (m_trie db) u1) b1 = next_at (node_at (m_trie db) u2) b2 ->
     u1 = u2 /\ b1 = b2).

(** The child ids that are set in [tr] are the same in [tr'], and the
    blocks of [tr] are allocated in [tr']. *)
Definition trie_grows (tr tr' : BlockAlloc.t TrieNode) : Prop :=
  (forall u b, next_at (node_at tr u) b <> 0 ->
     next_at (node_at tr' u) b = next_at (node_at tr u) b) /\
  (forall blk, is_Some (BlockAlloc.m_blocks tr !! blk) ->
     is_Some (BlockAlloc.m_blocks tr' !! blk)).

(** *** Keys that fit *)

(** What the size check of the immediate loop keeps: nothing is
    committed, or the committed bytes, the bitfield and one more byte fit
    behind the node portion. *)
Definition imm_fits (node_key_len : nat) (st : ImmKey) : Prop :=
  (imm_key_bitfield st = 0 /\ imm_key_len st = 0%nat) \/
  (node_key_len + imm_key_len st + length (vlenc_u64 (imm_key_bitfield st)) + 1
   < MAX_KEYLEN)%nat.

(** *** The configuration *)

(** The key attribute of index [i] is resolved: its id is known. *)
Definition resolved (s : Service) (i : nat) : Prop :=
  exists x, s_key_attribute_ids s !! i = Some (Some x).

(** The id vector has one entry for each configured key attribute. *)
Definition ids_sized (s : Service) : Prop :=
  length (s_key_attribute_ids s) = length (s_key_attribute_names s).

(** The configured names are [key_names] and [aggr_names], the id vector
    is sized, and every live database has one aggregated attribute for
    each configured name. *)
Definition config_kept (key_names aggr_names : list string) (s : Service) : Prop :=
  s_key_attribute_names s = key_names /\
  s_aggr_attribute_names s = aggr_names /\
  ids_sized s /\
  forall a d, dbs s !! a = Some d ->
    length (m_aggr_attributes d) = length aggr_names.

(** The aggregated attribute names are [names] and every live database
    has the property [I]. *)
Definition all_dbs (names : list string) (I : AggregateDB -> Prop) (s : Service) : Prop :=
  s_aggr_attribute_names s = names /\ forall a d, dbs s !! a = Some d -> I d.

(** *** Aggregation *)

(** The kernel with the id [id], the element [get(id, ...)] points to. *)
Definition kernel_at (ks : BlockAlloc.t AggregateKernel.t) (id : N) : AggregateKernel.t :=
  BlockAlloc.read ks (id / BlockAlloc.ENTRIES_PER_BLOCK) (id mod BlockAlloc.ENTRIES_PER_BLOCK).

(** [get(id, alloc)] answers an element: its block is there, or [get]
    makes it. *)
Definition slot_usable (alloc : bool) (ks : BlockAlloc.t AggregateKernel.t) (id : N) : Prop :=
  fetchable ks id \/
  (alloc = true /\ id / BlockAlloc.ENTRIES_PER_BLOCK < BlockAlloc.MAX_BLOCKS).

(** The values of the immediate entries of the attribute [attr], in the
    order of the snapshot. *)
Definition values_of (attr : option N) (imms : list ImmEntry) : list float :=
  imm_double <$> filter (fun e => attr = imm_attr e) imms.

(** * Properties *)

(** ** The aggregation kernel *)

(** C1.  A new kernel has finite [min] and [max], and its [max] is
    positive: the constructor starts [max] at the smallest positive
    double instead of minus infinity (and [min] at the largest finite
    double instead of plus infinity).  So the kernel that ingested the
    single sample [-1.0] reports [max = DBL_MIN] (about 2.2e-308), not
    [-1.0]: the maximum of samples that are all negative is lost; [min],
    [sum] and [count] are as the update rule says. *)
Theorem AggregateKernel_max_of_negative_sample :
  let k := AggregateKernel.add_all [(-1)%float] AggregateKernel.new in
  PrimFloat.is_infinity (AggregateKernel.min AggregateKernel.new) = false /\
  PrimFloat.is_infinity (AggregateKernel.max AggregateKernel.new) = false /\
  PrimFloat.ltb 0%float (AggregateKernel.max AggregateKernel.new) = true /\
  AggregateKernel.max k = AggregateKernel.DBL_MIN /\
  AggregateKernel.max k <> (-1)%float /\
  PrimFloat.ltb (-1)%float (AggregateKernel.max k) = true /\
  AggregateKernel.min k = (-1)%float /\
  AggregateKernel.sum k = (-1)%float /\
  AggregateKernel.count k = 1%Z.
Proof.
  cbv zeta. repeat split; try (vm_compute; reflexivity).
  intros H. vm_compute in H.
  assert (E : PrimFloat.ltb (-1)%float 0x1p-1022%float = true) by (vm_compute; reflexivity).
  rewrite H in E. vm_compute in E. discriminate.
Qed.

(** ** The block allocator *)

Section block_alloc.
Context {T : Type}.
Implicit Types (a : BlockAlloc.t T).

Lemma same_blocks_refl a : same_blocks a a.
Proof. split; reflexivity. Qed.

Lemma same_blocks_trans a b c :
  same_blocks a b -> same_blocks b c -> same_blocks a c.
Proof. intros [? ?] [? ?]. split; congruence. Qed.

Lemma same_blocks_is_Some a b blk :
  same_blocks a b ->
  is_Some (BlockAlloc.m_blocks a !! blk) -> is_Some (BlockAlloc.m_blocks b !! blk).
Proof. intros [Hd _] H. apply elem_of_dom. rewrite <- Hd. by apply elem_of_dom. Qed.

Lemma write_same_blocks a blk off v : same_blocks (BlockAlloc.write a blk off v) a.
Proof.
  split; [|reflexivity]. simpl. apply set_eq. intros i.
  rewrite !elem_of_dom, lookup_alter.
  case_decide; subst; [|reflexivity].
  destruct (BlockAlloc.m_blocks a !! i); simpl; split; intros [? ?]; simplify_eq; eauto.
Qed.

(** Without [alloc], [get] leaves the allocator as it is. *)
Lemma get_no_alloc id a : (BlockAlloc.get id false a).1 = a.
Proof. unfold BlockAlloc.get. repeat case_match; reflexivity. Qed.


(** Beyond the bound the guard of [get] answers null. *)
Lemma get_beyond_bound id alloc a :
  BlockAlloc.MAX_BLOCKS < id / BlockAlloc.ENTRIES_PER_BLOCK ->
  BlockAlloc.get id alloc a = (a, BlockAlloc.Null).
Proof.
  intros H. unfold BlockAlloc.get.
  apply N.ltb_lt in H. rewrite H. reflexivity.
Qed.

End block_alloc.

(** C3.  An id whose block index is exactly [MAX_BLOCKS] passes the
    guard [block > MAX_BLOCKS] of [get]: instead of answering null, [get]
    indexes [m_blocks] one past its last element, for either value of
    [alloc]. *)
Theorem BlockAlloc_get_at_bound {T} (id : N) (alloc : bool) (a : BlockAlloc.t T) :
  id / BlockAlloc.ENTRIES_PER_BLOCK = BlockAlloc.MAX_BLOCKS ->
  BlockAlloc.get id alloc a = (a, BlockAlloc.OutOfBounds BlockAlloc.MAX_BLOCKS) /\
  (BlockAlloc.get id alloc a).2 <> BlockAlloc.Null.
Proof.
  intros H. unfold BlockAlloc.get. rewrite H. simpl. split; [reflexivity|discriminate].
Qed.

Lemma BlockAlloc_get_at_bound_witness :
  2097152 / BlockAlloc.ENTRIES_PER_BLOCK = BlockAlloc.MAX_BLOCKS /\
  BlockAlloc.get 2097152 false (m_trie fresh_db)
    = (m_trie fresh_db, BlockAlloc.OutOfBounds BlockAlloc.MAX_BLOCKS) /\
  BlockAlloc.get 2097152 true (m_trie fresh_db)
    = (m_trie fresh_db, BlockAlloc.OutOfBounds BlockAlloc.MAX_BLOCKS).
Proof.
  split; [reflexivity|].
  split; apply (BlockAlloc_get_at_bound 2097152 _ (m_trie fresh_db)); reflexivity.
Defined.

(** ** The byte trie *)






(** ** The key builder *)

Lemma std_sort_sorted ids : Sorted N.le (std_sort ids) /\ std_sort ids ≡ₚ ids.
Proof.
  split; [apply Sorted_merge_sort, _|apply merge_sort_Permutation].
Qed.

Lemma std_sort_Permutation ids1 ids2 :
  ids1 ≡ₚ ids2 -> std_sort ids1 = std_sort ids2.
Proof.
  intros Hp. apply (Sorted_unique N.le); try apply std_sort_sorted.
  by rewrite !(proj2 (std_sort_sorted _)).
Qed.

(** C6.  Without key attributes the node ids that are encoded are the
    ids of the snapshot's nodes in ascending order, so two snapshots
    whose node lists are permutations of each other have the same key,
    byte for byte (whatever their immediate entries are, identical ones
    in particular: none enters the key, and no shift is evaluated, so
    the key is defined). *)
Theorem keyless_key_of_permuted_nodes (c : Caliper) (s1 s2 : SnapshotRecord) :
  node_entries s1 ≡ₚ node_entries s2 ->
  Sorted N.le (nodeid_vec c [] s1) /\
  nodeid_vec c [] s1 ≡ₚ map node_id (node_entries s1) /\
  nodeid_vec c [] s1 = nodeid_vec c [] s2 /\
  snapshot_key c [] s1 = snapshot_key c [] s2 /\
  exists key, snapshot_key c [] s1 = Some key.
Proof.
  intros Hn.
  assert (Hv : nodeid_vec c [] s1 = nodeid_vec c [] s2).
  { unfold nodeid_vec. simpl. apply std_sort_Permutation. by rewrite Hn. }
  split; [apply std_sort_sorted|]. split; [apply std_sort_sorted|]. split; [exact Hv|].
  unfold snapshot_key, snapshot_imm_key. rewrite Hv. split; [reflexivity|].
  simpl. by eexists.
Qed.

Lemma keyless_key_of_permuted_nodes_witness :
  snapshot_key (host false) [] (sample [3; 5] 1)
  = snapshot_key (host false) [] (sample [5; 3] 2).
Proof.
  apply (keyless_key_of_permuted_nodes (host false) (sample [3; 5] 1) (sample [5; 3] 2)).
  simpl. apply perm_swap.
Defined.

Lemma write_at_length buf pos bytes :
  (pos + length bytes <= length (write_at buf pos bytes))%nat.
Proof. unfold write_at. rewrite !length_app, length_resize. lia. Qed.

Lemma write_at_take buf pos bytes :
  (pos <= length buf)%nat -> take pos (write_at buf pos bytes) = take pos buf.
Proof.
  intros H. unfold write_at. rewrite resize_le by done.
  rewrite take_app_le by (rewrite length_take; lia).
  rewrite take_take. f_equal. lia.
Qed.

Lemma write_at_take_app buf pos bytes :
  (pos <= length buf)%nat ->
  take (pos + length bytes) (write_at buf pos bytes) = take pos buf ++ bytes.
Proof.
  intros H. unfold write_at. rewrite resize_le by done.
  rewrite take_app_add' by (rewrite length_take; lia).
  by rewrite take_app_length.
Qed.

(** Below the index 31 the shift [1 << k] is the bit [k]. *)
Lemma int_shl1_bit k : (k < 31)%nat -> int_shl1 k = Some (2 ^ N.of_nat k).
Proof.
  intros Hk. unfold int_shl1. apply Nat.ltb_lt in Hk. rewrite Hk.
  by rewrite N.shiftl_1_l.
Qed.

(** At the index 31 the shift sets the bits 31 to 63 of the bitfield,
    which then takes ten bytes once encoded; from the index 32 on it is
    undefined. *)
Remark int_shl1_from_31 :
  int_shl1 30 = Some (2 ^ 30) /\
  int_shl1 31 = Some (2 ^ 64 - 2 ^ 31) /\
  length (vlenc_u64 (2 ^ 64 - 2 ^ 31)) = 10%nat /\
  forall k, (32 <= k)%nat -> int_shl1 k = None.
Proof.
  split_and!; try reflexivity. intros k Hk. unfold int_shl1.
  assert (E1 : (k <? 31)%nat = false) by (apply Nat.ltb_ge; lia).
  assert (E2 : (k =? 31)%nat = false) by (apply Nat.eqb_neq; lia).
  by rewrite E1, E2.
Qed.

(** The inner loop commits what the rule commits. *)
Lemma imm_scan_commits nkl k attr_k : forall imms st,
  (k < 31)%nat ->
  (imm_key_len st <= length (imm_key st))%nat ->
  exists st',
    imm_scan nkl k attr_k imms st = Some st' /\
    (imm_key_len st' <= length (imm_key st'))%nat /\
    committed st' = commit_candidates nkl k (candidates attr_k imms) (committed st).
Proof.
  intros imms st Hk. revert st.
  induction imms as [|e imms IH]; intros st Hlen; simpl.
  { by exists st. }
  unfold candidates. rewrite filter_cons.
  destruct (decide (attr_k = imm_attr e)) as [He|He].
  - rewrite bool_decide_eq_true_2 by done. rewrite int_shl1_bit by done.
    cbn [mbind option_bind fmap list_fmap commit_candidates].
    assert (Hfit : candidate_fits nkl k (imm_u64 e) (committed st)
                   = negb (imm_too_long nkl (length (vlenc_u64 (imm_u64 e)))
                             (2 ^ N.of_nat k) st)).
    { unfold candidate_fits, imm_too_long, committed. cbn [cm_bytes cm_bitfield].
      rewrite length_take, Nat.min_l by done. apply Nat.ltb_antisym. }
    rewrite Hfit.
    destruct (imm_too_long nkl _ _ st); simpl.
    + eexists. split; [reflexivity|]. simpl. split.
      * pose proof (write_at_length (imm_key st) (imm_key_len st)
                      (vlenc_u64 (imm_u64 e))). lia.
      * unfold committed. simpl. by rewrite write_at_take.
    + destruct (IH (mkImmKey (write_at (imm_key st) (imm_key_len st)
                                (vlenc_u64 (imm_u64 e)))
                             (imm_key_len st + length (vlenc_u64 (imm_u64 e)))
                             (N.lor (imm_key_bitfield st) (2 ^ N.of_nat k))))
        as (st' & H1 & H2 & H3).
      { simpl. apply write_at_length. }
      exists st'. split; [exact H1|]. split; [exact H2|].
      rewrite H3. unfold committed at 1. simpl. by rewrite write_at_take_app.
  - rewrite bool_decide_eq_false_2 by done. by apply IH.
Qed.

(** C5, as the code has it.  With at most 31 key attributes (beyond
    that [1 << k] is no longer the bit [k]) the loops over the key
    attributes and the immediate entries commit what the rule
    [commit_attributes] commits, as long as every store stays inside
    [imm_key]: each candidate is length-checked against the committed
    state and committed, its bit set and its bytes appended, exactly when
    it passes; a candidate that fails is left out together with the
    remaining entries of the same key attribute, and only those: the
    candidates of the next key attribute are checked and committed by
    the same rule. *)
Theorem imm_loop_commits_what_fits
    (nkl k : nat) (K : list (option N)) (imms : list ImmEntry) (st : ImmKey) :
  (k + length K <= 31)%nat ->
  (imm_key_len st <= length (imm_key st))%nat ->
  exists st',
    imm_loop nkl k K imms st = Some st' /\
    ((length (imm_key st') <= MAX_KEYLEN)%nat ->
     committed st' = commit_attributes nkl k K imms (committed st)).
Proof.
  revert k st. induction K as [|attr_k K IH]; intros k st Hk Hlen; simpl.
  { by exists st. }
  simpl in Hk.
  destruct (imm_scan_commits nkl k attr_k imms st) as (st1 & H1 & H2 & H3); [lia|done|].
  rewrite H1. cbn [mbind option_bind].
  destruct (IH (S k) st1) as (st' & H4 & H5); [lia|done|].
  exists st'. split; [exact H4|]. intros Hb. rewrite <- H3. by apply H5.
Qed.

Lemma imm_loop_commits_what_fits_witness :
  exists st,
    snapshot_imm_key (host false) (wide_keys 14) mixed_snapshot = Some st /\
    committed st
    = commit_attributes 0 0 (wide_keys 14) (immediate mixed_snapshot) (mkCommitted 0 []).
Proof.
  destruct (imm_loop_commits_what_fits 0 0 (wide_keys 14) (immediate mixed_snapshot)
              (mkImmKey [] 0 0)) as (st & H1 & H2).
  - simpl. lia.
  - simpl. lia.
  - exists st. split; [exact H1|]. apply H2.
    vm_compute in H1. injection H1 as <-. apply Nat.leb_le. vm_compute. reflexivity.
Defined.

(** C5, as stated, fails for fourteen key attributes with one immediate
    entry each (no shift is undefined and no store is outside a buffer).
    Twelve values are committed, 116 bytes.  The ten-byte candidate of
    the attribute 12 would make the key 129 bytes long, more than
    [MAX_KEYLEN]: it fails the size check and is left out.  Yet the later
    one-byte candidate of the attribute 13 is committed: its bit is set
    and its value is appended to the committed bytes. *)
Lemma imm_loop_commits_after_discard :
  let K := wide_keys 14 in
  let imms := immediate mixed_snapshot in
  let st12 := imm_loop 0 0 (take 12 K) imms (mkImmKey [] 0 0) in
  let st := snapshot_imm_key (host false) K mixed_snapshot in
  imm_key_len <$> st12 = Some 116%nat /\
  (fun s => length (assemble_key 0 []
                      (mkImmKey (write_at (imm_key s) (imm_key_len s)
                                   (vlenc_u64 (2 ^ 64 - 1)))
                                (imm_key_len s + length (vlenc_u64 (2 ^ 64 - 1)))
                                (N.lor (imm_key_bitfield s) (2 ^ 12))))) <$> st12
    = Some 129%nat /\
  (MAX_KEYLEN < 129)%nat /\
  (fun s => imm_too_long 0 (length (vlenc_u64 (2 ^ 64 - 1))) (2 ^ 12) s) <$> st12
    = Some true /\
  (fun s => N.testbit (imm_key_bitfield s) 12) <$> st = Some false /\
  (fun s => N.testbit (imm_key_bitfield s) 13) <$> st = Some true /\
  imm_key_len <$> st = Some 117%nat /\
  cm_bytes <$> (committed <$> st)
    = (fun s => cm_bytes (committed s) ++ vlenc_u64 0) <$> st12 /\
  (fun s => length (imm_key s) <=? MAX_KEYLEN)%nat <$> st = Some true /\
  length <$> snapshot_key (host false) K mixed_snapshot = Some 120%nat /\
  process_snapshot (host false) K mixed_snapshot fresh_db <> None.
Proof.
  cbv zeta. split_and!; try (vm_compute; reflexivity || lia).
  intros H. vm_compute in H. discriminate.
Qed.

(** C4.  Two snapshots on which [process_snapshot] stores past the end
    of a [MAX_KEYLEN]-byte buffer (no shift is undefined on either).  For
    64 nodes with wide ids and no key attributes the node portion has 127
    bytes and the [toc] two, so the key has 129 bytes.  For thirteen key
    attributes with ten-byte values the thirteenth value is stored to
    [imm_key + 120], before the check that discards it. *)
Theorem snapshot_key_exceeds_MAX_KEYLEN :
  length (node_entries overlong_snapshot) = 64%nat /\
  length (encode_node_key (nodeid_vec (host false) [] overlong_snapshot) []) = 127%nat /\
  length <$> snapshot_key (host false) [] overlong_snapshot = Some 129%nat /\
  (exists key, snapshot_key (host false) [] overlong_snapshot = Some key /\
               (MAX_KEYLEN < length key)%nat) /\
  process_snapshot (host false) [] overlong_snapshot fresh_db = None /\
  (fun st => length (imm_key st))
    <$> snapshot_imm_key (host false) (wide_keys 13) (wide_snapshot 13)
    = Some 130%nat /\
  process_snapshot (host false) (wide_keys 13) (wide_snapshot 13) fresh_db = None.
Proof.
  split_and!; try (vm_compute; reflexivity).
  eexists. split; [vm_compute; reflexivity|]. vm_compute. lia.
Qed.

(** ** The records written by a flush *)

Lemma write_statistics_spec ks kid : forall n s,
  (forall a b, (s <= a < s + n)%nat -> kernel_slot ks kid a <> BlockAlloc.OutOfBounds b) ->
  exists stats,
    write_statistics ks kid (seq s n) = Some stats /\
    (length stats <= 3 * n)%nat /\
    (forall e, e ∈ stats ->
       exists a, stat_of a e /\ (s <= a < s + n)%nat /\
         forall a', (s <= a' <= a)%nat -> kernel_slot ks kid a' <> BlockAlloc.Null) /\
    (forall a blk off,
       (s <= a < s + n)%nat ->
       (forall a', (s <= a' <= a)%nat -> kernel_slot ks kid a' <> BlockAlloc.Null) ->
       kernel_slot ks kid a = BlockAlloc.Ptr blk off ->
       AggregateKernel.count (BlockAlloc.read ks blk off) <> 0%Z ->
       let k := BlockAlloc.read ks blk off in
       RImm (MinAttr a) (VDouble (AggregateKernel.min k)) ∈ stats /\
       RImm (MaxAttr a) (VDouble (AggregateKernel.max k)) ∈ stats /\
       RImm (SumAttr a) (VDouble (AggregateKernel.sum k)) ∈ stats).
Proof.
  induction n as [|n IH]; intros s Hub; simpl.
  - exists []. split; [done|]. split; [simpl; lia|].
    split; [intros e He; inversion He|]. intros; lia.
  - pose proof (Hub s) as Hs. unfold kernel_slot in Hs.
    destruct (BlockAlloc.get (wrap32 (kid + N.of_nat s)) false ks).2 as [|blk off|b] eqn:Hget.
    + exists []. split; [done|]. split; [simpl; lia|].
      split; [intros e He; inversion He|].
      intros a blk off Ha Hf. exfalso. apply (Hf s); [lia|exact Hget].
    + destruct (IH (S s)) as (rest & Hrest & Hlen & Hin & Hall).
      { intros a b Ha. apply Hub. lia. }
      rewrite Hrest. simpl.
      assert (Hs' : forall a', (s <= a' <= s)%nat -> kernel_slot ks kid a' <> BlockAlloc.Null).
      { intros a' Ha'. assert (a' = s) as -> by lia.
        unfold kernel_slot. rewrite Hget. discriminate. }
      assert (Hin' : forall e, e ∈ rest ->
        exists a, stat_of a e /\ (s <= a < s + S n)%nat /\
          forall a', (s <= a' <= a)%nat -> kernel_slot ks kid a' <> BlockAlloc.Null).
      { intros e He. destruct (Hin e He) as (a & Hst & Ha & Hf).
        exists a. split; [done|]. split; [lia|].
        intros a' Ha'. destruct (decide (a' = s)) as [->|Hne]; [by apply Hs'|].
        apply Hf. lia. }
      assert (Hall' : forall a blk' off',
        (S s <= a < s + S n)%nat ->
        (forall a', (s <= a' <= a)%nat -> kernel_slot ks kid a' <> BlockAlloc.Null) ->
        kernel_slot ks kid a = BlockAlloc.Ptr blk' off' ->
        AggregateKernel.count (BlockAlloc.read ks blk' off') <> 0%Z ->
        RImm (MinAttr a) (VDouble (AggregateKernel.min (BlockAlloc.read ks blk' off'))) ∈ rest /\
        RImm (MaxAttr a) (VDouble (AggregateKernel.max (BlockAlloc.read ks blk' off'))) ∈ rest /\
        RImm (SumAttr a) (VDouble (AggregateKernel.sum (BlockAlloc.read ks blk' off'))) ∈ rest).
      { intros a blk' off' Ha Hf Hslot Hcnt.
        apply (Hall a blk' off'); [lia| |done|done]. intros a' Ha'. apply Hf. lia. }
      destruct (AggregateKernel.count (BlockAlloc.read ks blk off) =? 0)%Z eqn:Hcnt.
      * exists rest. split; [done|]. split; [lia|]. split; [exact Hin'|].
        intros a blk' off' Ha Hf Hslot Hc. cbv zeta.
        destruct (decide (a = s)) as [->|Hne]; [|apply Hall'; [lia|done..]].
        unfold kernel_slot in Hslot. rewrite Hget in Hslot. simplify_eq.
        apply Z.eqb_eq in Hcnt. done.
      * eexists. split; [reflexivity|]. split; [simpl; lia|]. split.
        -- intros e He. rewrite !elem_of_cons in He.
           destruct He as [->|[->|[->|He]]]; [..|by apply Hin'];
             (exists s; split; [eexists; eauto|]; split; [lia|exact Hs']).
        -- intros a blk' off' Ha Hf Hslot Hc. cbv zeta.
           destruct (decide (a = s)) as [->|Hne].
           ++ unfold kernel_slot in Hslot. rewrite Hget in Hslot. simplify_eq.
              split_and!; eauto using list_elem_of_here, list_elem_of_further.
           ++ destruct (Hall' a blk' off') as (H1 & H2 & H3); [lia|done..|].
              split_and!; eauto using list_elem_of_further.
    + exfalso. apply (Hs b); [lia|reflexivity].
Qed.



(** C9.  Unless a kernel slot the statistics loop may fetch lies at the
    unguarded block index (C3), which happens in no state the service
    reaches ([reachable_statistics_in_bounds]),
    [write_aggregated_snapshot] appends the key entries, as far as their
    decoding is defined (it is with at most 32 key attributes,
    [decode_key_defined]), then the statistics, then the count entry.
    The statistics are at most 26
    triples: each belongs to an aggregated attribute [a < 26] such that
    every slot up to [a] could be fetched, so the first attribute whose
    slot cannot be fetched and all later ones are left out; and every
    such attribute with a non-zero kernel count has its three entries. *)
Theorem write_aggregated_snapshot_statistics
    (K : list (option N)) (db : AggregateDB) (key : list N) (entry : TrieNode) :
  (forall a b, a ∈ statistics_range db ->
     kernel_slot (m_kernels db) (k_id entry) a <> BlockAlloc.OutOfBounds b) ->
  exists stats,
    write_aggregated_snapshot K db key entry
      = (fun keypart => keypart ++ stats ++ [RImm CountAttr (VUint (count entry))])
          <$> decode_key K key /\
    (length stats <= 3 * 26)%nat /\
    (forall e, e ∈ stats ->
       exists a, stat_of a e /\ (a < 26)%nat /\ (a < length (m_aggr_attributes db))%nat /\
         forall a', (a' <= a)%nat ->
           kernel_slot (m_kernels db) (k_id entry) a' <> BlockAlloc.Null) /\
    (forall a blk off,
       (a < 26)%nat -> (a < length (m_aggr_attributes db))%nat ->
       (forall a', (a' <= a)%nat ->
          kernel_slot (m_kernels db) (k_id entry) a' <> BlockAlloc.Null) ->
       kernel_slot (m_kernels db) (k_id entry) a = BlockAlloc.Ptr blk off ->
       AggregateKernel.count (BlockAlloc.read (m_kernels db) blk off) <> 0%Z ->
       let k := BlockAlloc.read (m_kernels db) blk off in
       RImm (MinAttr a) (VDouble (AggregateKernel.min k)) ∈ stats /\
       RImm (MaxAttr a) (VDouble (AggregateKernel.max k)) ∈ stats /\
       RImm (SumAttr a) (VDouble (AggregateKernel.sum k)) ∈ stats).
Proof.
  intros Hub. unfold write_aggregated_snapshot, statistics_range.
  set (n := Nat.min (length (m_aggr_attributes db)) (SNAP_MAX / 3)).
  assert (Hn : n = Nat.min (length (m_aggr_attributes db)) 26) by reflexivity.
  destruct (write_statistics_spec (m_kernels db) (k_id entry) n 0)
    as (stats & Hst & Hlen & Hin & Hall).
  { intros a b Ha. apply Hub. unfold statistics_range. apply elem_of_seq. lia. }
  exists stats. rewrite Hst. split; [by destruct (decode_key K key)|].
  split; [lia|]. split.
  - intros e He. destruct (Hin e He) as (a & Hs & Ha & Hf).
    exists a. split; [done|]. split; [lia|]. split; [lia|].
    intros a' Ha'. apply Hf. lia.
  - intros a blk off Ha1 Ha2 Hf Hslot Hc.
    apply (Hall a blk off); [lia| |done|done]. intros a' Ha'. apply Hf. lia.
Qed.

Lemma write_aggregated_snapshot_statistics_witness :
  exists stats,
    write_aggregated_snapshot [] ingested_db [2; 7] ingested_entry
      = Some ([RNode 7] ++ stats
              ++ [RImm CountAttr (VUint (count ingested_entry))]) /\
    (length stats <= 3 * 26)%nat.
Proof.
  destruct (write_aggregated_snapshot_statistics [] ingested_db [2; 7] ingested_entry)
    as (stats & H1 & H2 & _).
  - intros a b Ha.
    assert (Hrange : statistics_range ingested_db = [0%nat]) by (vm_compute; reflexivity).
    rewrite Hrange in Ha. apply list_elem_of_singleton in Ha as ->.
    vm_compute. discriminate.
  - exists stats. split; [exact H1|exact H2].
Defined.

(** *** The kernel slots of reachable databases *)

Section block_alloc_more.
Context {T : Type}.
Implicit Types (a : BlockAlloc.t T).

Lemma fetchable_iff a id :
  fetchable a id <->
  id / BlockAlloc.ENTRIES_PER_BLOCK < BlockAlloc.MAX_BLOCKS /\
  is_Some (BlockAlloc.m_blocks a !! (id / BlockAlloc.ENTRIES_PER_BLOCK)).
Proof.
  unfold fetchable, BlockAlloc.get. split.
  - intros (blk & off & H).
    destruct (BlockAlloc.MAX_BLOCKS <? _) eqn:E1; [done|].
    destruct (_ <? BlockAlloc.MAX_BLOCKS) eqn:E2; simpl in H; [|done].
    apply N.ltb_lt in E2. split; [done|].
    destruct (BlockAlloc.m_blocks a !! _); [eauto|done].
  - intros [Hlt [blk Hblk]].
    assert (E1 : (BlockAlloc.MAX_BLOCKS <? id / BlockAlloc.ENTRIES_PER_BLOCK) = false)
      by (apply N.ltb_ge; lia).
    apply N.ltb_lt in Hlt. rewrite E1, Hlt, Hblk. simpl. eauto.
Qed.

Lemma get_grows id alloc a a' p blk :
  BlockAlloc.get id alloc a = (a', p) ->
  is_Some (BlockAlloc.m_blocks a !! blk) -> is_Some (BlockAlloc.m_blocks a' !! blk).
Proof.
  unfold BlockAlloc.get. intros H Hblk.
  repeat case_match; simplify_eq; try done.
  simpl. rewrite lookup_insert. case_decide; eauto.
Qed.

Lemma get_fetchable_mono id alloc a a' p id' :
  BlockAlloc.get id alloc a = (a', p) -> fetchable a id' -> fetchable a' id'.
Proof.
  intros H. rewrite !fetchable_iff. intros [? ?]. split; [done|]. by eapply get_grows.
Qed.

Lemma get_Ptr_fetchable id alloc a a' blk off :
  BlockAlloc.get id alloc a = (a', BlockAlloc.Ptr blk off) -> fetchable a' id.
Proof.
  unfold BlockAlloc.get. intros H. apply fetchable_iff.
  destruct (BlockAlloc.MAX_BLOCKS <? _) eqn:E1; [done|].
  destruct (_ <? BlockAlloc.MAX_BLOCKS) eqn:E2; simpl in H; [|done].
  apply N.ltb_lt in E2. split; [done|].
  destruct (BlockAlloc.m_blocks a !! _) eqn:E3.
  - simplify_eq. rewrite E3. eauto.
  - destruct alloc; simplify_eq. simpl. rewrite lookup_insert_eq. eauto.
Qed.

Lemma write_fetchable a blk off v id :
  fetchable (BlockAlloc.write a blk off v) id <-> fetchable a id.
Proof.
  rewrite !fetchable_iff.
  pose proof (write_same_blocks a blk off v) as [Hdom _].
  rewrite <- !elem_of_dom, Hdom. done.
Qed.

Lemma get_read `{DefaultCtor T} id alloc a a' p blk off :
  BlockAlloc.get id alloc a = (a', p) ->
  BlockAlloc.read a' blk off = BlockAlloc.read a blk off.
Proof.
  unfold BlockAlloc.get, BlockAlloc.read. intros Hg.
  repeat case_match; simplify_eq; try done; simpl in *.
  all: match goal with
       | H : <[_ := _]> _ !! _ = _ |- _ =>
           rewrite lookup_insert in H; case_decide; simplify_eq
       end; try done.
  all: by rewrite ?lookup_empty.
Qed.

End block_alloc_more.

Lemma write_trie_k_id (tr : BlockAlloc.t TrieNode) blk off v blk' off' :
  k_id (BlockAlloc.read (BlockAlloc.write tr blk off v) blk' off') = k_id v \/
  BlockAlloc.read (BlockAlloc.write tr blk off v) blk' off' = BlockAlloc.read tr blk' off'.
Proof.
  unfold BlockAlloc.read, BlockAlloc.write. simpl.
  rewrite lookup_alter. destruct (decide (blk = blk')) as [->|]; [|by right].
  destruct (BlockAlloc.m_blocks tr !! blk') as [b|]; simpl; [|by right].
  rewrite lookup_insert. destruct (decide (off = off')) as [->|]; [by left|by right].
Qed.

Lemma write_trie_same_k_id (tr : BlockAlloc.t TrieNode) blk off v blk' off' :
  k_id v = k_id (BlockAlloc.read tr blk off) ->
  k_id (BlockAlloc.read (BlockAlloc.write tr blk off v) blk' off')
  = k_id (BlockAlloc.read tr blk' off').
Proof.
  intros Hv. unfold BlockAlloc.read, BlockAlloc.write in *. simpl.
  rewrite lookup_alter. destruct (decide (blk = blk')) as [->|]; [|done].
  destruct (BlockAlloc.m_blocks tr !! blk') as [b|]; simpl in *; [|done].
  rewrite lookup_insert. destruct (decide (off = off')) as [->|]; [|done].
  simpl. exact Hv.
Qed.

(** The walk of [find_entry] changes child ids only. *)
Lemma find_entry_walk_k_id alloc key : forall blk off db,
  let db' := (find_entry_walk alloc key blk off db).1 in
  m_kernels db' = m_kernels db /\
  m_aggr_attributes db' = m_aggr_attributes db /\
  forall blk' off', k_id (BlockAlloc.read (m_trie db') blk' off')
                    = k_id (BlockAlloc.read (m_trie db) blk' off').
Proof.
  induction key as [|b key IH]; intros blk off db; cbv zeta; simpl; [done|].
  set (node := BlockAlloc.read (m_trie db) blk off).
  assert (Hstep : forall db1 id1,
            m_kernels db1 = m_kernels db ->
            m_aggr_attributes db1 = m_aggr_attributes db ->
            (forall blk' off', k_id (BlockAlloc.read (m_trie db1) blk' off')
                               = k_id (BlockAlloc.read (m_trie db) blk' off')) ->
            let r := match BlockAlloc.get id1 alloc (m_trie db1) with
                     | (tr, BlockAlloc.Ptr blk' off') =>
                         find_entry_walk alloc key blk' off' (set_trie tr db1)
                     | (tr, p) => (set_trie tr db1, p)
                     end in
            m_kernels r.1 = m_kernels db /\
            m_aggr_attributes r.1 = m_aggr_attributes db /\
            forall blk' off', k_id (BlockAlloc.read (m_trie r.1) blk' off')
                              = k_id (BlockAlloc.read (m_trie db) blk' off')).
  { intros db1 id1 Hk Ha Hid. cbv zeta.
    destruct (BlockAlloc.get id1 alloc (m_trie db1)) as [tr p] eqn:Hget.
    assert (Hrd : forall blk' off', k_id (BlockAlloc.read tr blk' off')
                                    = k_id (BlockAlloc.read (m_trie db) blk' off')).
    { intros blk' off'. rewrite (get_read _ _ _ _ _ blk' off' Hget). apply Hid. }
    destruct p as [|blk1 off1|]; simpl; try done.
    destruct (IH blk1 off1 (set_trie tr db1)) as (H1 & H2 & H3).
    split; [rewrite H1; exact Hk|]. split; [rewrite H2; exact Ha|].
    intros blk' off'. rewrite H3. apply Hrd. }
  destruct (next_at node b =? 0).
  - apply Hstep; [done|done|].
    intros blk' off'. simpl. by apply write_trie_same_k_id.
  - by apply Hstep.
Qed.

Lemma ensure_kernels_ready alloc first_id : forall idx ks ks' p,
  ensure_kernels alloc first_id idx ks = (ks', p) ->
  (forall id, fetchable ks id -> fetchable ks' id) /\
  (forall blk off, p = BlockAlloc.Ptr blk off ->
     forall i, i ∈ idx -> fetchable ks' (wrap32 (first_id + N.of_nat i))).
Proof.
  induction idx as [|i idx IH]; intros ks ks' p H; simpl in H.
  - simplify_eq. split; [done|]. intros ?? _ i Hi. by apply elem_of_nil in Hi.
  - destruct (BlockAlloc.get _ alloc ks) as [ks1 p1] eqn:Hget.
    destruct p1 as [|blk1 off1|]; simplify_eq.
    + split; [intros id; by eapply get_fetchable_mono|done].
    + destruct (IH _ _ _ H) as [Hmono Hall].
      split; [intros id Hid; apply Hmono; by eapply get_fetchable_mono|].
      intros blk off -> j Hj. apply elem_of_cons in Hj as [->|Hj].
      * apply Hmono. by eapply get_Ptr_fetchable.
      * by eapply Hall.
    + split; [intros id; by eapply get_fetchable_mono|done].
Qed.

Lemma slots_ready_mono ks ks' n kid :
  (forall id, fetchable ks id -> fetchable ks' id) ->
  slots_ready ks n kid -> slots_ready ks' n kid.
Proof. intros Hmono Hr a Ha. apply Hmono. by apply Hr. Qed.

Lemma find_entry_kernels_ready alloc blk off db :
  kernels_ready db ->
  let db' := (find_entry_kernels alloc blk off db).1 in
  kernels_ready db' /\ m_aggr_attributes db' = m_aggr_attributes db.
Proof.
  intros Hkr. cbv zeta. unfold find_entry_kernels.
  destruct (k_id _ =? NO_KERNEL); [|done].
  destruct (0 <? length _)%nat; [|done].
  set (db1 := set_num_kernel_entries _ db).
  set (first_id := wrap32 (m_num_kernel_entries db + 1)).
  destruct (ensure_kernels alloc first_id _ (m_kernels db1)) as [ks p] eqn:He.
  destruct (ensure_kernels_ready _ _ _ _ _ _ He) as [Hmono Hall].
  assert (Hold : forall blk' off',
            k_id (BlockAlloc.read (m_trie db) blk' off') <> NO_KERNEL ->
            slots_ready ks (length (m_aggr_attributes db))
              (k_id (BlockAlloc.read (m_trie db) blk' off'))).
  { intros blk' off' Hne. eapply slots_ready_mono; [exact Hmono|]. by apply Hkr. }
  destruct p as [|blk1 off1|]; simpl; [split; [exact Hold|done]| |split; [exact Hold|done]].
  split; [|done].
  intros blk' off' Hne. simpl in *.
  destruct (write_trie_k_id (m_trie db) blk off
              (set_k_id first_id (BlockAlloc.read (m_trie db) blk off)) blk' off')
    as [Hk|Hk].
  - rewrite Hk. simpl. intros a Ha.
    apply (Hall _ _ eq_refl). apply elem_of_seq. lia.
  - rewrite Hk in *. by apply Hold.
Qed.

Lemma find_entry_ready key alloc db :
  kernels_ready db ->
  let db' := (find_entry key alloc db).1 in
  kernels_ready db' /\ m_aggr_attributes db' = m_aggr_attributes db.
Proof.
  intros Hkr. cbv zeta. unfold find_entry.
  destruct (BlockAlloc.get 0 alloc (m_trie db)) as [tr p] eqn:Hget.
  assert (Hkr0 : kernels_ready (set_trie tr db)).
  { intros blk off. simpl. rewrite (get_read _ _ _ _ _ blk off Hget). apply Hkr. }
  destruct p as [|blk off|]; simpl; [done| |done].
  destruct (find_entry_walk_k_id alloc key blk off (set_trie tr db)) as (H1 & H2 & H3).
  destruct (find_entry_walk alloc key blk off (set_trie tr db)) as [db1 p] eqn:Hw.
  simpl in H1, H2, H3.
  assert (Hkr1 : kernels_ready db1).
  { intros blk' off'. rewrite H1, H2, H3. apply Hkr0. }
  destruct p as [|blk1 off1|]; simpl; [done| |done].
  destruct (find_entry_kernels_ready alloc blk1 off1 db1 Hkr1) as [Hk Ha].
  split; [exact Hk|]. rewrite Ha. exact H2.
Qed.

Lemma add_matching_fetchable alloc kid a attr_a : forall imms ks ks',
  add_matching alloc kid a attr_a imms ks = Some ks' ->
  forall id, fetchable ks id -> fetchable ks' id.
Proof.
  induction imms as [|e imms IH]; intros ks ks' H id Hid; simpl in H; [by simplify_eq|].
  destruct (bool_decide _); [|by eapply IH].
  destruct (BlockAlloc.get _ alloc ks) as [ks1 p] eqn:Hget.
  destruct p as [|blk off|]; [|..|done].
  - eapply IH; [exact H|]. by eapply get_fetchable_mono.
  - eapply IH; [exact H|]. apply write_fetchable. by eapply get_fetchable_mono.
Qed.

Lemma update_kernels_fetchable alloc kid imms : forall attrs a ks ks',
  update_kernels alloc kid a attrs imms ks = Some ks' ->
  forall id, fetchable ks id -> fetchable ks' id.
Proof.
  induction attrs as [|attr attrs IH]; intros a ks ks' H id Hid; simpl in H;
    [by simplify_eq|].
  destruct (add_matching _ _ _ _ _ ks) as [ks1|] eqn:Ha; cbn [mbind option_bind] in H;
    [|done].
  eapply IH; [exact H|]. by eapply add_matching_fetchable.
Qed.

(** Ingest keeps the kernels of every trie node fetchable. *)
Lemma process_snapshot_kernels_ready c K snap db db' :
  kernels_ready db -> process_snapshot c K snap db = Some db' -> kernels_ready db'.
Proof.
  intros Hkr H. unfold process_snapshot in H.
  destruct (_ =? 0)%nat; [by simplify_eq|].
  destruct (snapshot_imm_key c K snap) as [st|]; cbn [mbind option_bind] in H; [|done].
  destruct (snapshot_key c K snap) as [key|]; cbn [mbind option_bind] in H; [|done].
  destruct (_ || _); [done|].
  set (db1 := set_max_keylen _ db) in H.
  assert (Hkr1 : kernels_ready db1) by exact Hkr.
  destruct (find_entry_ready key (negb (is_signal c)) db1 Hkr1)
    as [Hkr2 Ha2].
  destruct (find_entry _ _ db1) as [db2 p]. simpl in Hkr2, Ha2.
  destruct p as [|blk off|]; [by simplify_eq| |done].
  destruct (update_kernels _ _ _ _ _ _) as [ks|] eqn:Hu; cbn [mbind option_bind] in H;
    [|done].
  simplify_eq. intros blk' off'. simpl.
  rewrite (write_trie_same_k_id (m_trie db2) blk off _ blk' off') by reflexivity.
  intros Hne. eapply slots_ready_mono.
  - intros id. by eapply update_kernels_fetchable.
  - by apply Hkr2.
Qed.

Lemma kernels_ready_new c names i1 i2 : kernels_ready (AggregateDB_new c names i1 i2).
Proof.
  intros blk off Hne. exfalso. apply Hne.
  change (m_trie (AggregateDB_new c names i1 i2))
    with (BlockAlloc.get 0 true (BlockAlloc.new (T:=TrieNode) i1)).1.
  rewrite (get_read 0 true (BlockAlloc.new i1) _ _ blk off (surjective_pairing _)).
  reflexivity.
Qed.

Lemma kernels_ready_clear db : kernels_ready (clear db).
Proof. intros blk off Hne. exfalso. apply Hne. reflexivity. Qed.

(** On a database that keeps its kernels fetchable, no slot the
    statistics loop asks for lies at the unguarded block index. *)
Lemma kernels_ready_statistics db blk off a b :
  kernels_ready db -> a ∈ statistics_range db ->
  kernel_slot (m_kernels db) (k_id (BlockAlloc.read (m_trie db) blk off)) a
    <> BlockAlloc.OutOfBounds b.
Proof.
  intros Hkr Ha. unfold statistics_range in Ha. apply elem_of_seq in Ha.
  assert (Ha26 : (a < 26)%nat).
  { assert (SNAP_MAX / 3 = 26)%nat by reflexivity. lia. }
  destruct (decide (k_id (BlockAlloc.read (m_trie db) blk off) = NO_KERNEL)) as [->|Hne].
  - unfold kernel_slot, BlockAlloc.get.
    destruct (decide (a = 0%nat)) as [->|Ha0].
    + change (wrap32 (NO_KERNEL + N.of_nat 0) / BlockAlloc.ENTRIES_PER_BLOCK)
        with 4194303. simpl. discriminate.
    + assert (Hw : wrap32 (NO_KERNEL + N.of_nat a) = N.of_nat a - 1).
      { unfold wrap32, NO_KERNEL.
        replace (4294967295 + N.of_nat a) with ((N.of_nat a - 1) + 1 * 2 ^ 32) by lia.
        rewrite N.Div0.mod_add. apply N.mod_small. lia. }
      rewrite Hw.
      assert (Hb : (N.of_nat a - 1) / BlockAlloc.ENTRIES_PER_BLOCK = 0).
      { apply N.div_small. unfold BlockAlloc.ENTRIES_PER_BLOCK. lia. }
      rewrite Hb. simpl. by repeat case_match.
  - destruct (Hkr blk off Hne a) as (blk' & off' & ->); [lia|discriminate].
Qed.

Lemma store_db_ready a f h h' :
  (forall d, kernels_ready d -> kernels_ready (f d)) ->
  (forall x d, h !! x = Some d -> kernels_ready d) ->
  store_db a f h = Some h' ->
  forall x d, h' !! x = Some d -> kernels_ready d.
Proof.
  intros Hf Hh H x d Hx. unfold store_db in H.
  destruct (h !! a) as [da|] eqn:Ha; cbn [mbind option_bind] in H; [|done].
  simplify_eq. rewrite lookup_insert in Hx. case_decide; simplify_eq; eauto.
Qed.

Lemma acquire_ready t c alloc pf s s' r :
  all_ready s -> acquire t c alloc pf s = Some (s', r) -> all_ready s'.
Proof.
  intros Hr H. unfold acquire in H.
  destruct (tls s !! t); [by simplify_eq|].
  destruct alloc; [|by simplify_eq].
  destruct (setspecific_ok pf).
  - match type of H with (?m ≫= _) = _ => destruct m as [h|] eqn:Hh end;
      cbn [mbind option_bind] in H; [|done].
    simplify_eq. intros x d Hx. simpl in Hx.
    rewrite lookup_insert in Hx. case_decide; simplify_eq.
    + apply (kernels_ready_new c (s_aggr_attribute_names s)).
    + destruct (s_list s); simplify_eq; [|by eapply Hr].
      eapply store_db_ready; [|exact Hr|exact Hh|exact Hx]. intros ? Hk; exact Hk.
  - simplify_eq. intros x d Hx. simpl in Hx.
    rewrite lookup_insert in Hx. case_decide; simplify_eq; [|by eapply Hr].
    apply kernels_ready_new.
Qed.

Lemma unlink_ready d h h' :
  (forall x d, h !! x = Some d -> kernels_ready d) ->
  unlink d h = Some h' ->
  forall x d, h' !! x = Some d -> kernels_ready d.
Proof.
  intros Hh H. unfold unlink in H.
  match type of H with (?m ≫= _) = _ => destruct m as [h1|] eqn:Hh1 end;
    cbn [mbind option_bind] in H; [|done].
  assert (H1 : forall x d, h1 !! x = Some d -> kernels_ready d).
  { destruct (m_next d); simplify_eq; [|done].
    eapply store_db_ready; [|exact Hh|exact Hh1]. intros ? Hk; exact Hk. }
  destruct (m_prev d); simplify_eq; [|done].
  eapply store_db_ready; [|exact H1|exact H]. intros ? Hk; exact Hk.
Qed.

Lemma flush_db_ready depth a s s' next recs :
  all_ready s -> flush_db depth a s = Some (s', next, recs) -> all_ready s'.
Proof.
  intros Hr H. unfold flush_db in H.
  destruct (dbs s !! a) as [d|] eqn:Hd; cbn [mbind option_bind] in H; [|done].
  destruct (flush depth _ _) as [rs|]; cbn [mbind option_bind] in H; [|done].
  assert (H2 : forall x dx,
            <[a := flushed_db d]> (dbs s) !! x = Some dx -> kernels_ready dx).
  { intros x dx Hx. rewrite lookup_insert in Hx. case_decide; simplify_eq; [|by eapply Hr].
    exact (kernels_ready_clear (set_stopped true d)). }
  change (set_stopped false (clear (set_stopped true d))) with (flushed_db d) in H.
  destruct (m_retired (flushed_db d)).
  - match type of H with (?m ≫= _) = _ => destruct m as [h|] eqn:Hh end;
      cbn [mbind option_bind] in H; [|done].
    simplify_eq. intros x dx Hx. simpl in Hx.
    apply lookup_delete_Some in Hx as [_ Hx].
    exact (unlink_ready _ _ _ H2 Hh x dx Hx).
  - simplify_eq. exact H2.
Qed.

Lemma flush_loop_ready depth : forall steps db s r,
  all_ready s -> flush_loop steps depth db s = Some r -> all_ready (fl_state r).
Proof.
  induction steps as [|steps IH]; intros db s r Hr H; destruct db as [a|]; simpl in H;
    try done; try by simplify_eq.
  destruct (flush_db depth a s) as [[[s1 next] recs]|] eqn:Hf;
    cbn [mbind option_bind] in H; [|done].
  destruct (flush_loop steps depth next s1) as [r1|] eqn:Hl;
    cbn [mbind option_bind] in H; [|done].
  simplify_eq. simpl. eapply IH; [|exact Hl]. by eapply flush_db_ready.
Qed.

Lemma handle_ready ev s s' : all_ready s -> handle ev s = Some s' -> all_ready s'.
Proof.
  intros Hr H. destruct ev as [t c pf snap|t c pf|name id|t|steps depth]; simpl in H.
  - unfold process_snapshot_cb in H.
    destruct (acquire t c _ pf s) as [[s1 db]|] eqn:Ha; cbn [mbind option_bind] in H;
      [|done].
    pose proof (acquire_ready _ _ _ _ _ _ _ Hr Ha) as Hr1.
    destruct db as [a|]; [|by simplify_eq].
    destruct (dbs s1 !! a) as [d|] eqn:Hd; cbn [mbind option_bind] in H; [|done].
    destruct (m_stopped d); [by simplify_eq|].
    destruct (process_snapshot _ _ _ d) as [d'|] eqn:Hp; cbn [mbind option_bind] in H;
      [|done].
    simplify_eq. intros x dx Hx. simpl in Hx.
    rewrite lookup_insert in Hx. case_decide; simplify_eq; [|by eapply Hr1].
    eapply process_snapshot_kernels_ready; [|exact Hp]. by eapply Hr1.
  - unfold post_init_cb in H.
    destruct (acquire t c true pf s) as [[s1 db]|] eqn:Ha; cbn [mbind option_bind] in H;
      [|done].
    simplify_eq. exact (acquire_ready _ _ _ _ _ _ _ Hr Ha).
  - simplify_eq. unfold create_attribute_cb. by repeat case_match.
  - unfold thread_exit, retire in H. destruct (tls s !! t) as [a|]; [|by simplify_eq].
    match type of H with (?m ≫= _) = _ => destruct m as [h|] eqn:Hh end;
      cbn [mbind option_bind] in H; [|done].
    simplify_eq. intros x dx Hx. simpl in Hx.
    eapply store_db_ready; [|exact Hr|exact Hh|exact Hx]. intros ? Hk; exact Hk.
  - destruct (flush_cb steps depth s) as [r|] eqn:Hf; [|done].
    simpl in H. apply (inj Some) in H. subst s'.
    unfold flush_cb in Hf. by eapply flush_loop_ready.
Qed.

Lemma run_ready evs : forall s s', all_ready s -> run evs s = Some s' -> all_ready s'.
Proof.
  induction evs as [|ev evs IH]; intros s s' Hr H; simpl in H; [by simplify_eq|].
  destruct (handle ev s) as [s1|] eqn:Hh; cbn [mbind option_bind] in H; [|done].
  eapply IH; [|exact H]. by eapply handle_ready.
Qed.

(** In every state the service reaches, the statistics loop of
    [write_aggregated_snapshot] never fetches a kernel at the unguarded
    block index, whatever trie entry it is called on. *)
Lemma reachable_statistics_in_bounds key_names aggr_names evs s x db blk off a b :
  run evs (init_static_data key_names aggr_names) = Some s ->
  dbs s !! x = Some db -> a ∈ statistics_range db ->
  kernel_slot (m_kernels db) (k_id (BlockAlloc.read (m_trie db) blk off)) a
    <> BlockAlloc.OutOfBounds b.
Proof.
  intros Hrun Hx Ha. apply kernels_ready_statistics; [|done].
  eapply (run_ready evs); [|exact Hrun|exact Hx].
  intros y d Hy. simpl in Hy. by rewrite lookup_empty in Hy.
Qed.

(** ** The registry *)

(** *** Snapshots during a flush *)

(** C8, as the code has it.  A snapshot that arrives on a thread whose
    database has [stopped] set is dropped: no database changes, its
    [m_num_dropped] included, and the global counter
    [s_global_num_dropped] is incremented by one. *)
Theorem process_snapshot_cb_stopped
    (t : N) (c : Caliper) (pf : Platform) (snap : SnapshotRecord) (s : Service)
    (a : N) (d : AggregateDB) :
  tls s !! t = Some a -> dbs s !! a = Some d -> m_stopped d = true ->
  exists s',
    process_snapshot_cb t c pf snap s = Some s' /\
    dbs s' = dbs s /\ s_list s' = s_list s /\ tls s' = tls s /\
    s_global_num_dropped (globals s') = wrap64 (s_global_num_dropped (globals s) + 1).
Proof.
  intros Ht Ha Hs. exists (set_globals (count_dropped (globals s)) s).
  split; [|by repeat split].
  unfold process_snapshot_cb, acquire. rewrite Ht. simpl.
  rewrite Ha. simpl. rewrite Hs. reflexivity.
Qed.

Lemma process_snapshot_cb_stopped_witness :
  exists s',
    process_snapshot_cb 0 (host false) (platform true) (sample [7] 1) stopped_service
      = Some s' /\
    dbs s' = dbs stopped_service /\
    s_global_num_dropped (globals s') = 1.
Proof.
  destruct (process_snapshot_cb_stopped 0 (host false) (platform true) (sample [7] 1)
              stopped_service 7 (set_stopped true fresh_db))
    as (s' & H1 & H2 & _ & _ & H3); [reflexivity..|].
  exists s'. split; [exact H1|]. split; [exact H2|exact H3].
Defined.

(** C8, as stated, fails on [stopped_service]: the snapshot is dropped,
    but the [m_num_dropped] of the stopped database is 0 before and
    after; it is the global counter that goes from 0 to 1. *)
Lemma stopped_db_num_dropped_unchanged :
  m_stopped <$> dbs stopped_service !! 7 = Some true /\
  m_num_dropped <$> dbs stopped_service !! 7 = Some 0 /\
  (s' ← process_snapshot_cb 0 (host false) (platform true) (sample [7] 1) stopped_service;
   m_num_dropped <$> dbs s' !! 7) = Some 0 /\
  (s' ← process_snapshot_cb 0 (host false) (platform true) (sample [7] 1) stopped_service;
   Some (s_global_num_dropped (globals s'))) = Some 1.
Proof. split_and!; vm_compute; reflexivity. Qed.

(** *** Ingest keeps the list pointers *)

Lemma same_links_refl d : same_links d d.
Proof. by split_and!. Qed.

Lemma same_links_trans d1 d2 d3 :
  same_links d1 d2 -> same_links d2 d3 -> same_links d1 d3.
Proof. intros (? & ? & ?) (? & ? & ?). split_and!; congruence. Qed.

Lemma find_entry_walk_links alloc key : forall blk off db,
  same_links db (find_entry_walk alloc key blk off db).1.
Proof.
  induction key as [|b key IH]; intros blk off db; simpl; [by split_and!|].
  destruct (next_at _ b =? 0);
    (destruct (BlockAlloc.get _ alloc _) as [tr [|blk' off'|]]; simpl;
     [by split_and!
     |eapply same_links_trans; [|apply IH]; by split_and!
     |by split_and!]).
Qed.

Lemma find_entry_kernels_links alloc blk off db :
  same_links db (find_entry_kernels alloc blk off db).1.
Proof.
  unfold find_entry_kernels.
  repeat case_match; simpl; by split_and!.
Qed.

Lemma find_entry_links key alloc db : same_links db (find_entry key alloc db).1.
Proof.
  unfold find_entry.
  destruct (BlockAlloc.get 0 alloc (m_trie db)) as [tr [|blk off|]]; simpl;
    try by split_and!.
  pose proof (find_entry_walk_links alloc key blk off (set_trie tr db)) as Hw.
  destruct (find_entry_walk alloc key blk off _) as [db1 [|blk' off'|]]; simpl in *;
    try exact Hw.
  eapply same_links_trans; [exact Hw|apply find_entry_kernels_links].
Qed.

Lemma process_snapshot_links c K snap d d' :
  process_snapshot c K snap d = Some d' -> same_links d d'.
Proof.
  unfold process_snapshot. intros H.
  destruct (_ =? 0)%nat; [simplify_eq; by split_and!|].
  destruct (snapshot_imm_key c K snap) as [st|]; cbn [mbind option_bind] in H; [|done].
  destruct (snapshot_key c K snap) as [key|]; cbn [mbind option_bind] in H; [|done].
  destruct (_ || _); [done|].
  set (db1 := set_max_keylen _ d) in H.
  pose proof (find_entry_links key (negb (is_signal c)) db1) as Hf.
  destruct (find_entry _ _ db1) as [db2 [|blk off|]]; simpl in *.
  - simplify_eq. exact Hf.
  - destruct (update_kernels _ _ _ _ _ _) as [ks|]; simpl in H; simplify_eq. exact Hf.
  - done.
Qed.

(** *** No callback links a database that nothing points to *)

Lemma fresh_not_live (s : Service) : dbs s !! fresh (dom (dbs s)) = None.
Proof. apply not_elem_of_dom, is_fresh. Qed.

Lemma closed_unreferenced_fresh s : closed s -> unreferenced (fresh (dom (dbs s))) s.
Proof.
  intros (Hl & Ht & Hd). pose proof (fresh_not_live s) as Hf.
  split_and!.
  - intros H. apply Hl in H. rewrite Hf in H. by destruct H.
  - intros t H. apply Ht in H. rewrite Hf in H. by destruct H.
  - intros a d Ha. destruct (Hd a d Ha) as [Hn Hp].
    split; intros H; [apply Hn in H|apply Hp in H]; rewrite Hf in H; by destruct H.
Qed.

Lemma store_db_Some a f h h' :
  store_db a f h = Some h' -> exists d, h !! a = Some d /\ h' = <[a := f d]> h.
Proof.
  unfold store_db. destruct (h !! a) as [d|]; simpl; [|done].
  intros [= <-]. eauto.
Qed.

Lemma acquire_orphan x dx t c alloc pf s s' r :
  orphan x dx s -> acquire t c alloc pf s = Some (s', r) ->
  orphan x dx s' /\ r <> Some x.
Proof.
  intros [Hx (Hl & Ht & Hd)] H. unfold acquire in H.
  destruct (tls s !! t) as [a|] eqn:Htls.
  { simplify_eq. split; [by split|]. rewrite <- Htls. apply Ht. }
  destruct alloc; [|simplify_eq; split; [by split|done]].
  pose proof (fresh_not_live s) as Hf.
  remember (fresh (dom (dbs s))) as a eqn:Ha. clear Ha.
  assert (Hax : a <> x) by congruence.
  destruct (setspecific_ok pf).
  - destruct (s_list s) as [l|] eqn:Hsl; simpl in H.
    + destruct (store_db l _ (dbs s)) as [h|] eqn:Hst; simpl in H; [|done].
      apply store_db_Some in Hst as (dl & Hdl & ->). simplify_eq.
      split; [|congruence]. split; simpl.
      * rewrite lookup_insert_ne by done.
        rewrite lookup_insert_ne by (intros ->; congruence). done.
      * split_and!; simpl.
        -- congruence.
        -- intros t'. rewrite lookup_insert. case_decide; [congruence|apply Ht].
        -- intros b d. rewrite lookup_insert. case_decide.
           { intros [= <-]. simpl. split; [done|done]. }
           rewrite lookup_insert. case_decide.
           { intros [= <-]. simpl. destruct (Hd _ _ Hdl). split; [done|congruence]. }
           apply Hd.
    + simplify_eq. split; [|congruence]. split; simpl.
      * by rewrite lookup_insert_ne.
      * split_and!; simpl.
        -- congruence.
        -- intros t'. rewrite lookup_insert. case_decide; [congruence|apply Ht].
        -- intros b d. rewrite lookup_insert. case_decide.
           { intros [= <-]. simpl. done. }
           apply Hd.
  - simplify_eq. split; [|congruence]. split; simpl.
    + by rewrite lookup_insert_ne.
    + split_and!; simpl; [done|done|].
      intros b d. rewrite lookup_insert. case_decide.
      { intros [= <-]. simpl. done. }
      apply Hd.
Qed.

(** A store to a database other than [x] that keeps [x] out of its list
    pointers preserves the invariant. *)
Lemma orphan_insert x dx s a d' :
  orphan x dx s -> a <> x -> m_next d' <> Some x -> m_prev d' <> Some x ->
  orphan x dx (set_dbs (<[a := d']> (dbs s)) s).
Proof.
  intros [Hx (Hl & Ht & Hd)] Hax Hn Hp. split; simpl.
  - by rewrite lookup_insert_ne.
  - split_and!; simpl; [done|done|].
    intros b d. rewrite lookup_insert. case_decide; [intros [= <-]; by split|apply Hd].
Qed.

Lemma orphan_set_globals x dx s g : orphan x dx s -> orphan x dx (set_globals g s).
Proof. intros [Hx (Hl & Ht & Hd)]. split; [done|]. split_and!; done. Qed.

Lemma orphan_set_key_attribute_ids x dx s ids :
  orphan x dx s -> orphan x dx (set_key_attribute_ids ids s).
Proof. intros [Hx (Hl & Ht & Hd)]. split; [done|]. split_and!; done. Qed.

Lemma process_snapshot_cb_orphan x dx t c pf snap s s' :
  orphan x dx s -> process_snapshot_cb t c pf snap s = Some s' -> orphan x dx s'.
Proof.
  intros Ho H. unfold process_snapshot_cb in H.
  destruct (acquire t c _ pf s) as [[s1 r]|] eqn:Hacq; simpl in H; [|done].
  destruct (acquire_orphan _ _ _ _ _ _ _ _ _ Ho Hacq) as [Ho1 Hr].
  destruct r as [a|]; [|simplify_eq; by apply orphan_set_globals].
  destruct (dbs s1 !! a) as [d|] eqn:Hd; simpl in H; [|done].
  destruct (m_stopped d); [simplify_eq; by apply orphan_set_globals|].
  destruct (process_snapshot _ _ _ d) as [d'|] eqn:Hp; simpl in H; [|done].
  simplify_eq. apply process_snapshot_links in Hp as (Hn & Hp & _).
  destruct Ho1 as [Hx1 (Hl1 & Ht1 & Hd1)]. destruct (Hd1 _ _ Hd).
  apply orphan_insert; [by split|congruence|congruence|congruence].
Qed.

Lemma post_init_cb_orphan x dx t c pf s s' :
  orphan x dx s -> post_init_cb t c pf s = Some s' -> orphan x dx s'.
Proof.
  intros Ho H. unfold post_init_cb in H.
  destruct (acquire t c true pf s) as [[s1 r]|] eqn:Hacq; simpl in H; [|done].
  destruct (acquire_orphan _ _ _ _ _ _ _ _ _ Ho Hacq) as [Ho1 Hr].
  simplify_eq. by apply orphan_set_key_attribute_ids.
Qed.

Lemma create_attribute_cb_orphan x dx name id s :
  orphan x dx s -> orphan x dx (create_attribute_cb name id s).
Proof.
  intros Ho. unfold create_attribute_cb.
  destruct (list_find _ _) as [[i ?]|]; [|done].
  by apply orphan_set_key_attribute_ids.
Qed.

Lemma thread_exit_orphan x dx t s s' :
  orphan x dx s -> thread_exit t s = Some s' -> orphan x dx s'.
Proof.
  intros [Hx (Hl & Ht & Hd)] H. unfold thread_exit, retire in H.
  assert (Ho : orphan x dx (set_tls (delete t (tls s)) s)).
  { split; [done|]. split_and!; simpl; [done| |done].
    intros t'. rewrite lookup_delete. case_decide; [done|apply Ht]. }
  destruct (tls s !! t) as [a|] eqn:Htls; [|by simplify_eq].
  simpl in H.
  destruct (store_db a _ _) as [h|] eqn:Hst; simpl in H; [|done].
  apply store_db_Some in Hst as (d & Hda & ->). simplify_eq.
  destruct (Hd _ _ Hda).
  apply (orphan_insert x dx (set_tls (delete t (tls s)) s) a (set_retired true d)); try done.
  intros ->. by apply (Ht t).
Qed.

Lemma unlink_other d h h' x :
  m_next d <> Some x -> m_prev d <> Some x ->
  unlink d h = Some h' -> h' !! x = h !! x.
Proof.
  intros Hn Hp H. unfold unlink in H.
  destruct (m_next d) as [n|]; simpl in H.
  - destruct (store_db n _ h) as [h1|] eqn:H1; simpl in H; [|done].
    apply store_db_Some in H1 as (dn & Hdn & ->).
    destruct (m_prev d) as [p|].
    + apply store_db_Some in H as (dp & Hdp & ->).
      rewrite !lookup_insert_ne by congruence. done.
    + simplify_eq. rewrite lookup_insert_ne by congruence. done.
  - destruct (m_prev d) as [p|].
    + apply store_db_Some in H as (dp & Hdp & ->).
      rewrite lookup_insert_ne by congruence. done.
    + by simplify_eq.
Qed.

(** What [unlink] does to the database at an address: nothing, or it
    redirects its list pointers to those of the unlinked database. *)
Lemma unlink_lookup d h h' b db' :
  unlink d h = Some h' -> h' !! b = Some db' ->
  exists db0 n p, h !! b = Some db0 /\ db' = set_next_db n (set_prev_db p db0) /\
    (n = m_next db0 \/ n = m_next d) /\ (p = m_prev db0 \/ p = m_prev d).
Proof.
  assert (Heta : forall d0, d0 = set_next_db (m_next d0) (set_prev_db (m_prev d0) d0)).
  { by intros []. }
  assert (Hst : forall a f h0 h1 (b0 : N) (d1 : AggregateDB),
            store_db a f h0 = Some h1 -> h1 !! b0 = Some d1 ->
            exists d0, h0 !! b0 = Some d0 /\ (d1 = d0 \/ d1 = f d0)).
  { intros a f h0 h1 b0 d1 Hs Hl. apply store_db_Some in Hs as (da & Hda & ->).
    rewrite lookup_insert in Hl. case_decide; simplify_eq; eauto. }
  intros H Hl. unfold unlink in H.
  destruct (m_next d) as [n|] eqn:Hn; simpl in H.
  - destruct (store_db n _ h) as [h1|] eqn:H1; simpl in H; [|done].
    destruct (m_prev d) as [p|] eqn:Hp.
    + destruct (Hst _ _ _ _ _ _ H Hl) as (d1 & Hd1 & Hc).
      destruct (Hst _ _ _ _ _ _ H1 Hd1) as (d0 & Hd0 & Hc0).
      exists d0. destruct Hc as [->| ->], Hc0 as [->| ->].
      * exists (m_next d0), (m_prev d0). split; [done|]. split; [by destruct d0|]. eauto.
      * exists (m_next d0), (Some p). split; [done|]. split; [by destruct d0|]. eauto.
      * exists (Some n), (m_prev d0). split; [done|]. split; [by destruct d0|]. eauto.
      * exists (Some n), (Some p). split; [done|]. split; [by destruct d0|]. eauto.
    + simplify_eq. destruct (Hst _ _ _ _ _ _ H1 Hl) as (d0 & Hd0 & Hc0).
      exists d0. destruct Hc0 as [->| ->].
      * exists (m_next d0), (m_prev d0). split; [done|]. split; [by destruct d0|]. eauto.
      * exists (m_next d0), None. split; [done|]. split; [by destruct d0|]. eauto.
  - destruct (m_prev d) as [p|] eqn:Hp.
    + destruct (Hst _ _ _ _ _ _ H Hl) as (d0 & Hd0 & Hc0).
      exists d0. destruct Hc0 as [->| ->].
      * exists (m_next d0), (m_prev d0). split; [done|]. split; [by destruct d0|]. eauto.
      * exists None, (m_prev d0). split; [done|]. split; [by destruct d0|]. eauto.
    + simplify_eq. exists db', (m_next db'), (m_prev db'). split; [done|]. split; [by destruct db'|]. eauto.
Qed.

Lemma flush_db_Some depth a s s1 next recs :
  flush_db depth a s = Some (s1, next, recs) ->
  exists d, dbs s !! a = Some d /\
    flush depth (s_key_attribute_ids s) (set_stopped true d) = Some recs /\
    next = m_next d /\
    let s0 := set_globals (add_db_stats (set_stopped true d) (globals s))
                (set_dbs (<[a := flushed_db d]> (dbs s)) s) in
    (m_retired d = false /\ s1 = s0) \/
    (m_retired d = true /\
     exists h, unlink (flushed_db d) (<[a := flushed_db d]> (dbs s)) = Some h /\
       s1 = set_s_list (if bool_decide (s_list s = Some a) then m_next d else s_list s)
              (set_dbs (delete a h) s0)).
Proof.
  unfold flush_db. intros H.
  destruct (dbs s !! a) as [d|]; cbn [mbind option_bind] in H; [|done].
  destruct (flush depth _ _) as [rs|] eqn:Hfl; cbn [mbind option_bind] in H; [|done].
  exists d. split; [done|].
  change (m_retired (set_stopped false (clear (set_stopped true d))))
    with (m_retired d) in H.
  change (m_next (set_stopped false (clear (set_stopped true d))))
    with (m_next d) in H.
  destruct (m_retired d) eqn:Hr.
  - destruct (unlink _ _) as [h|] eqn:Hu; cbn [mbind option_bind] in H; [|done].
    simplify_eq. split; [done|]. split; [done|]. right. split; [done|]. exists h. by split.
  - simplify_eq. split; [done|]. split; [done|]. left. by split.
Qed.

Lemma flush_db_orphan x dx depth a s s1 next recs :
  orphan x dx s -> a <> x -> flush_db depth a s = Some (s1, next, recs) ->
  orphan x dx s1 /\ next <> Some x.
Proof.
  intros Ho Hax H.
  apply flush_db_Some in H as (d & Hd & _ & -> & Hcase).
  pose proof Ho as [Hx (Hl & Ht & Hdb)]. destruct (Hdb _ _ Hd) as [Hn Hp].
  split; [|done].
  assert (Ho0 : orphan x dx (set_dbs (<[a := flushed_db d]> (dbs s)) s)).
  { by apply orphan_insert. }
  destruct Hcase as [[_ ->]|(_ & h & Hu & ->)]; [by apply orphan_set_globals|].
  destruct Ho0 as [Hx0 (Hl0 & Ht0 & Hdb0)]. simpl in *.
  split; simpl.
  - rewrite lookup_delete_ne by done.
    rewrite (unlink_other _ _ _ x Hn Hp Hu). exact Hx0.
  - split_and!; simpl.
    + case_bool_decide; done.
    + done.
    + intros b db'. rewrite lookup_delete. case_decide; [done|].
      intros Hb. destruct (unlink_lookup _ _ _ _ _ Hu Hb) as (db0 & n & p & Hb0 & -> & Hn' & Hp').
      destruct (Hdb0 _ _ Hb0). simpl.
      split; [destruct Hn' as [->| ->]|destruct Hp' as [->| ->]]; done.
Qed.

Lemma flush_loop_orphan x dx depth : forall steps l s r,
  orphan x dx s -> l <> Some x -> flush_loop steps depth l s = Some r ->
  orphan x dx (fl_state r) /\ x ∉ fl_visited r.
Proof.
  induction steps as [|steps IH]; intros l s r Ho Hl H;
    (destruct l as [a|]; simpl in H; [|simplify_eq; split; [done|apply not_elem_of_nil]]);
    [done|].
  destruct (flush_db depth a s) as [[[s1 next] recs]|] eqn:Hf; simpl in H; [|done].
  destruct (flush_loop steps depth next s1) as [r1|] eqn:Hr; simpl in H; [|done].
  simplify_eq. simpl.
  destruct (flush_db_orphan x dx depth a s s1 next recs Ho) as [Ho1 Hn]; [congruence|done|].
  destruct (IH _ _ _ Ho1 Hn Hr) as [Ho2 Hv].
  split; [done|]. rewrite not_elem_of_cons. split; [congruence|done].
Qed.

Lemma handle_orphan x dx ev s s' :
  orphan x dx s -> handle ev s = Some s' -> orphan x dx s'.
Proof.
  intros Ho H. destruct ev; simpl in H.
  - by eapply process_snapshot_cb_orphan.
  - by eapply post_init_cb_orphan.
  - simplify_eq. by apply create_attribute_cb_orphan.
  - by eapply thread_exit_orphan.
  - unfold flush_cb in H.
    destruct (flush_loop steps depth (s_list s) s) as [r|] eqn:Hr; simpl in H; [|done].
    simplify_eq. eapply flush_loop_orphan; [exact Ho| |exact Hr]. apply Ho.
Qed.

Lemma run_orphan x dx evs : forall s s',
  orphan x dx s -> run evs s = Some s' -> orphan x dx s'.
Proof.
  induction evs as [|ev evs IH]; intros s s' Ho H; simpl in H; [by simplify_eq|].
  destruct (handle ev s) as [s1|] eqn:Hh; simpl in H; [|done].
  eapply IH; [|exact H]. by eapply handle_orphan.
Qed.

(** *** Reachable states are well formed *)

Lemma well_formed_closed s : well_formed s -> closed s.
Proof.
  intros (W1 & W2 & W3 & W5 & _). split_and!.
  - intros a Ha. destruct (W1 _ Ha) as (d & -> & _). eauto.
  - intros t a Ha. destruct (W5 _ _ Ha) as (d & -> & _). eauto.
  - intros a d Ha. split.
    + intros n Hn. destruct (W2 _ _ _ Ha Hn) as (dn & -> & _). eauto.
    + intros p Hp. destruct (W3 _ _ _ Ha Hp) as (dp & -> & _). eauto.
Qed.

Lemma well_formed_init key_names aggr_names :
  well_formed (init_static_data key_names aggr_names).
Proof.
  split_and!; simpl; intros *; try rewrite lookup_empty; done.
Qed.

Lemma unlink_lookup_exact d h0 h b :
  unlink d h0 = Some h -> h !! b = relink d b <$> h0 !! b.
Proof.
  unfold unlink, relink. intros H.
  destruct (m_next d) as [n|]; cbn [mbind option_bind] in H.
  - destruct (store_db n _ h0) as [h1|] eqn:H1; cbn [mbind option_bind] in H; [|done].
    apply store_db_Some in H1 as (dn & Hdn & ->).
    destruct (m_prev d) as [p|].
    + apply store_db_Some in H as (dp & Hdp & ->).
      rewrite lookup_insert. destruct (decide (p = b)) as [->|Hpb].
      * rewrite (bool_decide_eq_true_2 (Some b = Some b)) by done.
        rewrite lookup_insert in Hdp. destruct (decide (n = b)) as [->|Hnb].
        -- rewrite (bool_decide_eq_true_2 (Some b = Some b)) by done.
           simplify_eq. by rewrite Hdn.
        -- rewrite Hdp. rewrite (bool_decide_eq_false_2 (Some n = Some b)) by congruence.
           done.
      * rewrite (bool_decide_eq_false_2 (Some p = Some b)) by congruence.
        rewrite lookup_insert. destruct (decide (n = b)) as [->|Hnb].
        -- rewrite (bool_decide_eq_true_2 (Some b = Some b)) by done. by rewrite Hdn.
        -- rewrite (bool_decide_eq_false_2 (Some n = Some b)) by congruence.
           by destruct (h0 !! b).
    + simplify_eq. rewrite (bool_decide_eq_false_2 (None = Some b)) by done.
      rewrite lookup_insert. destruct (decide (n = b)) as [->|Hnb].
      * rewrite (bool_decide_eq_true_2 (Some b = Some b)) by done. by rewrite Hdn.
      * rewrite (bool_decide_eq_false_2 (Some n = Some b)) by congruence.
        by destruct (h0 !! b).
  - rewrite (bool_decide_eq_false_2 (None = Some b)) by done.
    destruct (m_prev d) as [p|].
    + apply store_db_Some in H as (dp & Hdp & ->).
      rewrite lookup_insert. destruct (decide (p = b)) as [->|Hpb].
      * rewrite (bool_decide_eq_true_2 (Some b = Some b)) by done. by rewrite Hdp.
      * rewrite (bool_decide_eq_false_2 (Some p = Some b)) by congruence.
        by destruct (h0 !! b).
    + simplify_eq. rewrite (bool_decide_eq_false_2 (None = Some b)) by done.
      by destruct (h !! b).
Qed.

(** Well-formedness looks at the list pointers and the [retired] flags
    only. *)
Lemma well_formed_same_links s h' :
  (forall b, option_Forall2 same_links (dbs s !! b) (h' !! b)) ->
  well_formed s -> well_formed (set_dbs h' s).
Proof.
  intros Hrel (W1 & W2 & W3 & W5 & W6).
  assert (Hfw : forall b db0, dbs s !! b = Some db0 ->
            exists db', h' !! b = Some db' /\ same_links db0 db').
  { intros b db0 Hb. specialize (Hrel b). rewrite Hb in Hrel.
    inversion Hrel; simplify_eq. eauto. }
  assert (Hbw : forall b db', h' !! b = Some db' ->
            exists db0, dbs s !! b = Some db0 /\ same_links db0 db').
  { intros b db' Hb. specialize (Hrel b). rewrite Hb in Hrel.
    inversion Hrel; simplify_eq. eauto. }
  split_and!; simpl.
  - intros h Hh. destruct (W1 _ Hh) as (d & Hd & Hp).
    destruct (Hfw _ _ Hd) as (d' & Hd' & (_ & Hp' & _)). exists d'. split; [done|congruence].
  - intros a d n Ha Hn. destruct (Hbw _ _ Ha) as (d0 & Ha0 & (Hn0 & _ & _)).
    destruct (W2 a d0 n Ha0) as (dn & Hdn & Hpn); [congruence|].
    destruct (Hfw _ _ Hdn) as (dn' & Hdn' & (_ & Hp' & _)). exists dn'. split; [done|congruence].
  - intros a d p Ha Hp. destruct (Hbw _ _ Ha) as (d0 & Ha0 & (_ & Hp0 & _)).
    destruct (W3 a d0 p Ha0) as (dp & Hdp & Hnp); [congruence|].
    destruct (Hfw _ _ Hdp) as (dp' & Hdp' & (Hn' & _ & _)). exists dp'. split; [done|congruence].
  - intros t a Ht. destruct (W5 _ _ Ht) as (d & Hd & Hr).
    destruct (Hfw _ _ Hd) as (d' & Hd' & (_ & _ & Hr')). exists d'. split; [done|congruence].
  - exact W6.
Qed.

Lemma well_formed_insert s a d d' :
  well_formed s -> dbs s !! a = Some d -> same_links d d' ->
  well_formed (set_dbs (<[a := d']> (dbs s)) s).
Proof.
  intros Hwf Ha Hl. apply well_formed_same_links; [|done].
  intros b. rewrite lookup_insert. destruct (decide (a = b)) as [->|].
  - rewrite Ha. by constructor.
  - destruct (dbs s !! b); constructor. apply same_links_refl.
Qed.

Lemma well_formed_set_globals s g : well_formed s -> well_formed (set_globals g s).
Proof. intros (W1 & W2 & W3 & W5 & W6). by split_and!. Qed.

Lemma well_formed_set_key_attribute_ids s ids :
  well_formed s -> well_formed (set_key_attribute_ids ids s).
Proof. intros (W1 & W2 & W3 & W5 & W6). by split_and!. Qed.

Lemma acquire_well_formed t c alloc pf s s' r :
  well_formed s -> acquire t c alloc pf s = Some (s', r) ->
  well_formed s' /\ forall a, r = Some a -> tls s' !! t = Some a \/ setspecific_ok pf = false.
Proof.
  intros Hwf H. pose proof Hwf as (W1 & W2 & W3 & W5 & W6).
  pose proof (well_formed_closed s Hwf) as (C1 & C2 & C3).
  unfold acquire in H.
  destruct (tls s !! t) as [a|] eqn:Htls.
  { simplify_eq. split; [done|]. intros a' [= <-]. by left. }
  destruct alloc; [|simplify_eq; split; [done|by intros ? [=]]].
  pose proof (fresh_not_live s) as Hf.
  remember (fresh (dom (dbs s))) as x eqn:Hx. clear Hx.
  set (db := AggregateDB_new _ _ _ _) in H.
  destruct (setspecific_ok pf) eqn:Hok.
  2:{ simplify_eq. split; [|by right]. split_and!; simpl.
      - intros h Hh. destruct (W1 _ Hh) as (d & Hd & Hp). exists d.
        rewrite lookup_insert_ne by congruence. done.
      - intros a d n. rewrite lookup_insert. destruct (decide (x = a)) as [->|].
        + intros [= <-]. done.
        + intros Ha Hn. destruct (W2 _ _ _ Ha Hn) as (dn & Hdn & Hpn). exists dn.
          rewrite lookup_insert_ne by congruence. done.
      - intros a d p. rewrite lookup_insert. destruct (decide (x = a)) as [->|].
        + intros [= <-]. done.
        + intros Ha Hp. destruct (W3 _ _ _ Ha Hp) as (dp & Hdp & Hnp). exists dp.
          rewrite lookup_insert_ne by congruence. done.
      - intros t' a Ht. destruct (W5 _ _ Ht) as (d & Hd & Hr). exists d.
        rewrite lookup_insert_ne by congruence. done.
      - exact W6. }
  destruct (s_list s) as [l|] eqn:Hsl; cbn [mbind option_bind] in H.
  - destruct (store_db l _ (dbs s)) as [h|] eqn:Hst; cbn [mbind option_bind] in H; [|done].
    apply store_db_Some in Hst as (dl & Hdl & ->). simplify_eq.
    destruct (W1 _ eq_refl) as (dl' & Hdl' & Hpl). simplify_eq.
    assert (Hxl : x <> l) by congruence.
    split; [|intros a [= <-]; left; simpl; apply lookup_insert_eq].
    split_and!; simpl.
    + intros h [= <-]. eexists. rewrite lookup_insert_eq. done.
    + intros a d n. rewrite lookup_insert. destruct (decide (x = a)) as [->|Hxa].
      * intros [= <-]. simpl. intros [= <-].
        eexists. rewrite lookup_insert_ne by done. rewrite lookup_insert_eq. done.
      * rewrite lookup_insert. destruct (decide (l = a)) as [->|Hla].
        -- intros [= <-]. simpl. intros Hn.
           destruct (W2 _ _ _ Hdl Hn) as (dn & Hdn & Hpn).
           assert (n <> a) by (intros ->; congruence).
           exists dn. rewrite !lookup_insert_ne by congruence. done.
        -- intros Ha Hn. destruct (W2 _ _ _ Ha Hn) as (dn & Hdn & Hpn).
           assert (n <> l) by (intros ->; congruence).
           exists dn. rewrite !lookup_insert_ne by congruence. done.
    + intros a d p. rewrite lookup_insert. destruct (decide (x = a)) as [->|Hxa].
      * intros [= <-]. done.
      * rewrite lookup_insert. destruct (decide (l = a)) as [->|Hla].
        -- intros [= <-]. simpl. intros [= <-].
           eexists. rewrite lookup_insert_eq. done.
        -- intros Ha Hp. destruct (W3 _ _ _ Ha Hp) as (dp & Hdp & Hnp).
           destruct (decide (p = l)) as [->|Hpl'].
           ++ eexists. rewrite lookup_insert_ne by congruence.
              rewrite lookup_insert_eq. split; [reflexivity|]. simpl. congruence.
           ++ exists dp. rewrite !lookup_insert_ne by congruence. done.
    + intros t' a. rewrite lookup_insert. destruct (decide (t = t')) as [->|].
      * intros [= <-]. eexists. rewrite lookup_insert_eq. done.
      * intros Ht. destruct (W5 _ _ Ht) as (d & Hd & Hr).
        destruct (decide (a = l)) as [->|].
        -- eexists. rewrite lookup_insert_ne by congruence. rewrite lookup_insert_eq.
           split; [reflexivity|]. simpl. congruence.
        -- exists d. rewrite !lookup_insert_ne by congruence. done.
    + intros t1 t2 a. rewrite !lookup_insert.
      destruct (decide (t = t1)) as [E1|N1], (decide (t = t2)) as [E2|N2].
      * congruence.
      * intros [= <-] Ht2. destruct (C2 _ _ Ht2) as [? ?]. congruence.
      * intros Ht1 [= <-]. destruct (C2 _ _ Ht1) as [? ?]. congruence.
      * apply W6.
  - simplify_eq.
    split; [|intros a [= <-]; left; simpl; apply lookup_insert_eq].
    split_and!; simpl.
    + intros h [= <-]. eexists. rewrite lookup_insert_eq. done.
    + intros a d n. rewrite lookup_insert. destruct (decide (x = a)) as [->|Hxa].
      * intros [= <-]. done.
      * intros Ha Hn. destruct (W2 _ _ _ Ha Hn) as (dn & Hdn & Hpn). exists dn.
        rewrite lookup_insert_ne by congruence. done.
    + intros a d p. rewrite lookup_insert. destruct (decide (x = a)) as [->|Hxa].
      * intros [= <-]. done.
      * intros Ha Hp. destruct (W3 _ _ _ Ha Hp) as (dp & Hdp & Hnp). exists dp.
        rewrite lookup_insert_ne by congruence. done.
    + intros t' a. rewrite lookup_insert. destruct (decide (t = t')) as [->|].
      * intros [= <-]. eexists. rewrite lookup_insert_eq. done.
      * intros Ht. destruct (W5 _ _ Ht) as (d & Hd & Hr). exists d.
        rewrite lookup_insert_ne by congruence. done.
    + intros t1 t2 a. rewrite !lookup_insert.
      destruct (decide (t = t1)) as [E1|N1], (decide (t = t2)) as [E2|N2].
      * congruence.
      * intros [= <-] Ht2. destruct (C2 _ _ Ht2) as [? ?]. congruence.
      * intros Ht1 [= <-]. destruct (C2 _ _ Ht1) as [? ?]. congruence.
      * apply W6.
Qed.

Lemma process_snapshot_cb_well_formed t c pf snap s s' :
  well_formed s -> process_snapshot_cb t c pf snap s = Some s' -> well_formed s'.
Proof.
  intros Hwf H. unfold process_snapshot_cb in H.
  destruct (acquire t c _ pf s) as [[s1 r]|] eqn:Hacq; cbn [mbind option_bind] in H; [|done].
  destruct (acquire_well_formed _ _ _ _ _ _ _ Hwf Hacq) as [Hwf1 _].
  destruct r as [a|]; [|simplify_eq; by apply well_formed_set_globals].
  destruct (dbs s1 !! a) as [d|] eqn:Hd; cbn [mbind option_bind] in H; [|done].
  destruct (m_stopped d); [simplify_eq; by apply well_formed_set_globals|].
  destruct (process_snapshot _ _ _ d) as [d'|] eqn:Hp; cbn [mbind option_bind] in H; [|done].
  simplify_eq. eapply well_formed_insert; [done..|]. by eapply process_snapshot_links.
Qed.

Lemma post_init_cb_well_formed t c pf s s' :
  well_formed s -> post_init_cb t c pf s = Some s' -> well_formed s'.
Proof.
  intros Hwf H. unfold post_init_cb in H.
  destruct (acquire t c true pf s) as [[s1 r]|] eqn:Hacq; cbn [mbind option_bind] in H; [|done].
  destruct (acquire_well_formed _ _ _ _ _ _ _ Hwf Hacq) as [Hwf1 _].
  simplify_eq. by apply well_formed_set_key_attribute_ids.
Qed.

Lemma create_attribute_cb_well_formed name id s :
  well_formed s -> well_formed (create_attribute_cb name id s).
Proof.
  intros Hwf. unfold create_attribute_cb.
  destruct (list_find _ _) as [[i ?]|]; [|done].
  by apply well_formed_set_key_attribute_ids.
Qed.

Lemma thread_exit_well_formed t s s' :
  well_formed s -> thread_exit t s = Some s' -> well_formed s'.
Proof.
  intros (W1 & W2 & W3 & W5 & W6) H. unfold thread_exit, retire in H.
  destruct (tls s !! t) as [a|] eqn:Htls.
  - cbn [mbind option_bind] in H.
    destruct (store_db a _ _) as [h|] eqn:Hst; cbn [mbind option_bind] in H; [|done].
    apply store_db_Some in Hst as (d & Hda & ->). simpl in Hda. simplify_eq.
    split_and!; simpl.
    + intros h Hh. destruct (W1 _ Hh) as (dh & Hdh & Hp).
      rewrite lookup_insert. destruct (decide (a = h)) as [->|]; simplify_eq; eauto.
    + intros b db n. rewrite lookup_insert. destruct (decide (a = b)) as [->|].
      * intros [= <-]. simpl. intros Hn. destruct (W2 _ _ _ Hda Hn) as (dn & Hdn & Hpn).
        rewrite lookup_insert. destruct (decide (b = n)) as [->|]; simplify_eq; eauto.
      * intros Hb Hn. destruct (W2 _ _ _ Hb Hn) as (dn & Hdn & Hpn).
        rewrite lookup_insert. destruct (decide (a = n)) as [->|]; simplify_eq; eauto.
    + intros b db p. rewrite lookup_insert. destruct (decide (a = b)) as [->|].
      * intros [= <-]. simpl. intros Hp. destruct (W3 _ _ _ Hda Hp) as (dp & Hdp & Hnp).
        rewrite lookup_insert. destruct (decide (b = p)) as [->|]; simplify_eq; eauto.
      * intros Hb Hp. destruct (W3 _ _ _ Hb Hp) as (dp & Hdp & Hnp).
        rewrite lookup_insert. destruct (decide (a = p)) as [->|]; simplify_eq; eauto.
    + intros t' a'. rewrite lookup_delete. destruct (decide (t = t')) as [->|Htt]; [done|].
      intros Ht'. destruct (W5 _ _ Ht') as (d' & Hd' & Hr).
      assert (a <> a') by (intros ->; apply Htt; by eapply W6).
      exists d'. rewrite lookup_insert_ne by done. done.
    + intros t1 t2 a'. rewrite !lookup_delete.
      destruct (decide (t = t1)), (decide (t = t2)); try done. apply W6.
  - simplify_eq. split_and!; simpl; try done.
    + intros t' a'. rewrite lookup_delete. destruct (decide (t = t')); [done|]. apply W5.
    + intros t1 t2 a'. rewrite !lookup_delete.
      destruct (decide (t = t1)), (decide (t = t2)); try done. apply W6.
Qed.

Lemma relink_next d b db0 :
  m_next (relink d b db0)
  = if bool_decide (m_prev d = Some b) then m_next d else m_next db0.
Proof. unfold relink. repeat case_bool_decide; reflexivity. Qed.

Lemma relink_prev d b db0 :
  m_prev (relink d b db0)
  = if bool_decide (m_next d = Some b) then m_prev d else m_prev db0.
Proof. unfold relink. repeat case_bool_decide; reflexivity. Qed.

Lemma relink_retired d b db0 : m_retired (relink d b db0) = m_retired db0.
Proof. unfold relink. repeat case_bool_decide; reflexivity. Qed.

(** Unlinking and deleting the retired database under the cursor keeps
    the registry well formed and moves the cursor on. *)
Lemma unlink_delete_well_formed s a d h :
  well_formed s -> dbs s !! a = Some d -> m_retired d = true ->
  cursor_ok s (Some a) -> unlink d (dbs s) = Some h ->
  let s1 := set_s_list (if bool_decide (s_list s = Some a) then m_next d else s_list s)
              (set_dbs (delete a h) s) in
  well_formed s1 /\ cursor_ok s1 (m_next d).
Proof.
  intros (W1 & W2 & W3 & W5 & W6) Ha Hret Hcur Hu. cbv zeta.
  assert (Hlk : forall b db', delete a h !! b = Some db' ->
            b <> a /\ exists db0, dbs s !! b = Some db0 /\ db' = relink d b db0).
  { intros b db'. rewrite lookup_delete. destruct (decide (a = b)) as [->|]; [done|].
    rewrite (unlink_lookup_exact _ _ _ b Hu).
    destruct (dbs s !! b) as [db0|]; simpl; [|done]. intros [= <-]. eauto. }
  assert (Hlk' : forall b db0, b <> a -> dbs s !! b = Some db0 ->
            delete a h !! b = Some (relink d b db0)).
  { intros b db0 Hb Hb0. rewrite lookup_delete_ne by done.
    rewrite (unlink_lookup_exact _ _ _ b Hu), Hb0. done. }
  assert (F1 : forall b db, dbs s !! b = Some db -> m_next db = Some a -> m_prev d = Some b).
  { intros b db Hb Hn. destruct (W2 _ _ _ Hb Hn) as (d' & Hd' & Hp). congruence. }
  assert (F2 : forall b db, dbs s !! b = Some db -> m_prev db = Some a -> m_next d = Some b).
  { intros b db Hb Hp. destruct (W3 _ _ _ Hb Hp) as (d' & Hd' & Hn). congruence. }
  assert (F4 : s_list s = Some a -> m_prev d = None).
  { intros Hh. destruct (W1 _ Hh) as (d' & Hd' & Hp). congruence. }
  split; [split_and!; simpl|].
  - (* the head *)
    intros h'. case_bool_decide as Hhead.
    + intros Hn. assert (h' <> a).
      { intros ->. pose proof (F1 _ _ Ha Hn). rewrite F4 in *; done. }
      destruct (W2 _ _ _ Ha Hn) as (dh & Hdh & Hph).
      exists (relink d h' dh). split; [by apply Hlk'|].
      rewrite relink_prev, bool_decide_eq_true_2 by done. by apply F4.
    + intros Hh. assert (h' <> a) by congruence.
      destruct (W1 _ Hh) as (dh & Hdh & Hph).
      exists (relink d h' dh). split; [by apply Hlk'|].
      rewrite relink_prev. case_bool_decide as Hn; [|done].
      destruct (W2 _ _ _ Ha Hn) as (dh' & Hdh' & Hph'). congruence.
  - (* forward links *)
    intros b db' n' Hb Hn. destruct (Hlk _ _ Hb) as (Hba & db0 & Hb0 & ->).
    rewrite relink_next in Hn. case_bool_decide as Hp.
    + assert (n' <> a).
      { intros ->. pose proof (F1 _ _ Ha Hn). congruence. }
      destruct (W2 _ _ _ Ha Hn) as (dn & Hdn & Hpn).
      exists (relink d n' dn). split; [by apply Hlk'|].
      rewrite relink_prev, bool_decide_eq_true_2 by done. done.
    + assert (n' <> a).
      { intros ->. apply Hp. by eapply F1. }
      destruct (W2 _ _ _ Hb0 Hn) as (dn & Hdn & Hpn).
      exists (relink d n' dn). split; [by apply Hlk'|].
      rewrite relink_prev. case_bool_decide as Hn'; [|done].
      destruct (W2 _ _ _ Ha Hn') as (dn' & Hdn' & Hpn'). congruence.
  - (* backward links *)
    intros b db' p' Hb Hp. destruct (Hlk _ _ Hb) as (Hba & db0 & Hb0 & ->).
    rewrite relink_prev in Hp. case_bool_decide as Hn.
    + assert (p' <> a).
      { intros ->. pose proof (F2 _ _ Ha Hp). congruence. }
      destruct (W3 _ _ _ Ha Hp) as (dp & Hdp & Hnp).
      exists (relink d p' dp). split; [by apply Hlk'|].
      rewrite relink_next, bool_decide_eq_true_2 by done. done.
    + assert (p' <> a).
      { intros ->. apply Hn. by eapply F2. }
      destruct (W3 _ _ _ Hb0 Hp) as (dp & Hdp & Hnp).
      exists (relink d p' dp). split; [by apply Hlk'|].
      rewrite relink_next. case_bool_decide as Hp'; [|done].
      destruct (W3 _ _ _ Ha Hp') as (dp' & Hdp' & Hnp'). congruence.
  - (* thread slots *)
    intros t a' Ht. destruct (W5 _ _ Ht) as (d' & Hd' & Hr).
    assert (a' <> a) by (intros ->; congruence).
    exists (relink d a' d'). split; [by apply Hlk'|]. by rewrite relink_retired.
  - exact W6.
  - (* the cursor *)
    destruct (m_next d) as [n|] eqn:Hn; simpl; [|done].
    case_bool_decide as Hhead; [by left|]. right.
    intros dn' Hdn'. destruct (Hlk _ _ Hdn') as (Hna & dn0 & Hdn0 & ->).
    rewrite relink_prev, bool_decide_eq_true_2 by done.
    destruct Hcur as [?|Hcur]; [done|]. by apply Hcur.
Qed.

Lemma flush_db_well_formed depth a s s1 next recs :
  well_formed s -> cursor_ok s (Some a) ->
  flush_db depth a s = Some (s1, next, recs) ->
  well_formed s1 /\ cursor_ok s1 next.
Proof.
  intros Hwf Hcur H.
  apply flush_db_Some in H as (d & Hd & _ & -> & Hcase).
  set (s0 := set_globals (add_db_stats (set_stopped true d) (globals s))
               (set_dbs (<[a := flushed_db d]> (dbs s)) s)) in *.
  assert (Hwf0 : well_formed s0).
  { apply well_formed_set_globals. eapply well_formed_insert; [done..|]. by split_and!. }
  assert (Ha0 : dbs s0 !! a = Some (flushed_db d)) by apply lookup_insert_eq.
  destruct Hcase as [[Hr ->]|(Hr & h & Hu & ->)].
  - split; [done|]. destruct (m_next d) as [n|] eqn:Hn; simpl; [|done]. right.
    intros dn Hdn. destruct Hwf0 as (_ & W2 & _).
    destruct (W2 a (flushed_db d) n Ha0 Hn) as (dn' & Hdn' & Hp).
    change (dbs s0 !! n = Some dn) in Hdn.
    rewrite Hdn in Hdn'. simplify_eq. rewrite Hp. eauto.
  - apply (unlink_delete_well_formed s0 a (flushed_db d) h Hwf0 Ha0 Hr); [|exact Hu].
    destruct Hcur as [Hcur|Hcur]; [by left|right].
    intros d' Hd'. rewrite Ha0 in Hd'. simplify_eq.
    change (is_Some (m_prev d)). by apply Hcur.
Qed.

Lemma flush_loop_well_formed depth : forall steps l s r,
  well_formed s -> cursor_ok s l -> flush_loop steps depth l s = Some r ->
  well_formed (fl_state r).
Proof.
  induction steps as [|steps IH]; intros l s r Hwf Hcur H;
    (destruct l as [a|]; simpl in H; [|by simplify_eq]); [done|].
  destruct (flush_db depth a s) as [[[s1 next] recs]|] eqn:Hf;
    cbn [mbind option_bind] in H; [|done].
  destruct (flush_loop steps depth next s1) as [r1|] eqn:Hr;
    cbn [mbind option_bind] in H; [|done].
  simplify_eq. simpl.
  destruct (flush_db_well_formed _ _ _ _ _ _ Hwf Hcur Hf) as [Hwf1 Hcur1].
  by eapply IH.
Qed.

Lemma handle_well_formed ev s s' :
  well_formed s -> handle ev s = Some s' -> well_formed s'.
Proof.
  intros Hwf H. destruct ev; simpl in H.
  - by eapply process_snapshot_cb_well_formed.
  - by eapply post_init_cb_well_formed.
  - simplify_eq. by apply create_attribute_cb_well_formed.
  - by eapply thread_exit_well_formed.
  - unfold flush_cb in H.
    destruct (flush_loop steps depth (s_list s) s) as [r|] eqn:Hr; simpl in H; [|done].
    simplify_eq. eapply flush_loop_well_formed; [exact Hwf| |exact Hr].
    unfold cursor_ok. destruct (s_list s); [by left|done].
Qed.

(** Every state the service reaches from its initial one is well formed,
    and so has no dangling pointer. *)
Lemma run_well_formed evs : forall s s',
  well_formed s -> run evs s = Some s' -> well_formed s'.
Proof.
  induction evs as [|ev evs IH]; intros s s' Hwf H; simpl in H; [by simplify_eq|].
  destruct (handle ev s) as [s1|] eqn:Hh; cbn [mbind option_bind] in H; [|done].
  eapply IH; [|exact H]. by eapply handle_well_formed.
Qed.

Lemma reachable_closed key_names aggr_names evs s :
  run evs (init_static_data key_names aggr_names) = Some s -> closed s.
Proof.
  intros H. apply well_formed_closed.
  eapply run_well_formed; [apply well_formed_init|exact H].
Qed.

(** *** A database that is not in the list *)

(** C10.  In a registry without dangling pointers (every reachable one,
    by [reachable_closed]), on a thread without a database, outside
    signal context and with a failing [pthread_setspecific], [acquire]
    constructs a database at a new address [x] and returns it, while
    [s_list], the slot of the thread and every other database stay as
    they were; [process_snapshot_cb] ingests the snapshot into that
    database.  From then on, whatever callbacks run, the database at [x]
    is live and unchanged, [s_list] never is [x], and no [flush_cb]
    visits [x]: its contents are neither written out nor cleared nor
    deleted. *)
Theorem acquire_setspecific_failure
    (t : N) (c : Caliper) (pf : Platform) (snap : SnapshotRecord) (s : Service) :
  closed s -> tls s !! t = None -> is_signal c = false -> setspecific_ok pf = false ->
  let x := fresh (dom (dbs s)) in
  let db := AggregateDB_new c (s_aggr_attribute_names s) (indet_trie pf) (indet_kernels pf) in
  acquire t c true pf s = Some (set_dbs (<[x := db]> (dbs s)) s, Some x) /\
  forall s1, process_snapshot_cb t c pf snap s = Some s1 ->
    exists dx,
      process_snapshot c (s_key_attribute_ids s) snap db = Some dx /\
      s1 = set_dbs (<[x := dx]> (dbs s)) s /\
      forall evs s2, run evs s1 = Some s2 ->
        dbs s2 !! x = Some dx /\
        s_list s2 <> Some x /\
        forall steps depth r, flush_cb steps depth s2 = Some r ->
          (x ∉ fl_visited r) /\ dbs (fl_state r) !! x = Some dx.
Proof.
  intros Hc Ht Hsig Hok. cbv zeta.
  assert (Hacq : acquire t c true pf s
                 = Some (set_dbs (<[fresh (dom (dbs s)) :=
                      AggregateDB_new c (s_aggr_attribute_names s)
                        (indet_trie pf) (indet_kernels pf)]> (dbs s)) s,
                         Some (fresh (dom (dbs s))))).
  { unfold acquire. rewrite Ht, Hok. reflexivity. }
  split; [exact Hacq|].
  intros s1 H1. unfold process_snapshot_cb in H1.
  rewrite Hsig in H1. simpl in H1. rewrite Hacq in H1. simpl in H1.
  rewrite lookup_insert_eq in H1. simpl in H1.
  destruct (process_snapshot _ _ _ _) as [dx|] eqn:Hp; simpl in H1; [|done].
  simplify_eq. exists dx. split; [done|].
  rewrite insert_insert_eq. split; [done|].
  assert (Ho : orphan (fresh (dom (dbs s))) dx
                 (set_dbs (<[fresh (dom (dbs s)) := dx]> (dbs s)) s)).
  { apply process_snapshot_links in Hp as (Hn & Hpv & _). simpl in Hn, Hpv.
    destruct (closed_unreferenced_fresh s Hc) as (Hl & Htl & Hd).
    split; simpl; [apply lookup_insert_eq|].
    split_and!; simpl; [done|done|].
    intros b d. rewrite lookup_insert. case_decide.
    - intros [= <-]. rewrite Hn, Hpv. done.
    - apply Hd. }
  intros evs s2 Hrun.
  pose proof (run_orphan _ _ _ _ _ Ho Hrun) as Ho2.
  split; [apply Ho2|]. split; [apply Ho2|].
  intros steps depth r Hf. unfold flush_cb in Hf.
  destruct (flush_loop_orphan _ _ _ _ _ _ _ Ho2 (proj1 (proj2 Ho2)) Hf) as [Ho3 Hv].
  split; [done|apply Ho3].
Qed.

Lemma acquire_setspecific_failure_witness :
  let s := ingested_service in
  let x := fresh (dom (dbs s)) in
  exists s1 dx,
    process_snapshot_cb 1 (host false) (platform false) (sample [7] 10) s = Some s1 /\
    dbs s1 !! x = Some dx /\
    s_list s1 = s_list s /\
    forall evs s2, run evs s1 = Some s2 -> dbs s2 !! x = Some dx /\ s_list s2 <> Some x.
Proof.
  cbv zeta.
  destruct (acquire_setspecific_failure 1 (host false) (platform false) (sample [7] 10)
              ingested_service) as [_ H]; [|reflexivity..|].
  { apply (reachable_closed [] ["t"%string]
             [EvPostInit 0 (host false) (platform true);
              EvProcessSnapshot 0 (host false) (platform true) (sample [7] 10)]).
    vm_compute. reflexivity. }
  assert (H1 : process_snapshot_cb 1 (host false) (platform false) (sample [7] 10)
                 ingested_service
               = Some (default ingested_service
                         (process_snapshot_cb 1 (host false) (platform false)
                            (sample [7] 10) ingested_service)))
    by (vm_compute; reflexivity).
  destruct (H _ H1) as (dx & _ & Hs1 & Hinv).
  rewrite Hs1 in H1, Hinv.
  eexists _, dx. split; [exact H1|].
  split; [apply lookup_insert_eq|]. split; [reflexivity|].
  intros evs s2 Hrun.
  destruct (Hinv evs s2 Hrun) as (Ha & Hb & _). by split.
Defined.

(** *** Flushing twice *)

Lemma cleared_flush depth K d : cleared d -> flush depth K d = Some [].
Proof.
  unfold cleared, flush, BlockAlloc.get. intros ->.
  change (0 `div` BlockAlloc.ENTRIES_PER_BLOCK) with 0.
  rewrite lookup_empty. by destruct depth.
Qed.

Lemma null_or_in_cons V a l : null_or_in V l -> null_or_in (a :: V) l.
Proof. intros [->|(b & -> & Hb)]; [by left|right]. exists b. split; [done|by right]. Qed.

Lemma null_or_in_head V a : null_or_in (a :: V) (Some a).
Proof. right. exists a. split; [done|by left]. Qed.

(** One iteration of the loop changes a database in three ways at most:
    the flushed one is cleared, and [unlink] redirects list pointers to
    those of the flushed one. *)
Lemma flush_db_lookup depth a s s1 next recs b d1 :
  flush_db depth a s = Some (s1, next, recs) -> dbs s1 !! b = Some d1 ->
  exists d, dbs s !! b = Some d /\
    (cleared d -> cleared d1) /\
    (b = a -> cleared d1 /\ m_next d1 = next) /\
    (m_next d1 = m_next d \/ m_next d1 = next).
Proof.
  intros H Hb. apply flush_db_Some in H as (d & Hd & _ & -> & Hcase).
  assert (Hins : forall d0, <[a := flushed_db d]> (dbs s) !! b = Some d0 ->
            exists d', dbs s !! b = Some d' /\ (cleared d' -> cleared d0) /\
              (b = a -> cleared d0 /\ m_next d0 = m_next d) /\
              m_next d0 = m_next d').
  { intros d0. rewrite lookup_insert. destruct (decide (a = b)) as [Hab|Hab].
    - intros Heq. apply (inj Some) in Heq. subst b d0. exists d.
      split; [done|]. split; [done|]. split; [done|reflexivity].
    - intros Hd0. exists d0. split; [done|]. split; [done|]. split; [done|reflexivity]. }
  destruct Hcase as [[_ ->]|(_ & h & Hu & ->)]; simpl in Hb.
  - destruct (Hins _ Hb) as (d' & Hd' & Hc & Ha & Hn). exists d'. eauto.
  - rewrite lookup_delete in Hb. case_decide as Hab; [done|].
    destruct (unlink_lookup _ _ _ _ _ Hu Hb) as (d0 & n & p & Hd0 & -> & Hn & Hp).
    destruct (Hins _ Hd0) as (d' & Hd' & Hc & Ha & Hn').
    exists d'. split; [done|]. split; [exact Hc|]. split; [congruence|].
    simpl. destruct Hn as [->| ->]; [left; exact Hn'|right; reflexivity].
Qed.

Lemma flush_db_s_list depth a s s1 next recs :
  flush_db depth a s = Some (s1, next, recs) ->
  s_list s1 = s_list s \/ s_list s1 = next.
Proof.
  intros H. apply flush_db_Some in H as (d & Hd & _ & -> & Hcase).
  destruct Hcase as [[_ ->]|(_ & h & Hu & ->)]; simpl; [by left|].
  case_bool_decide; [by right|by left].
Qed.

(** After the loop, every database it visited and did not delete is
    cleared and points to a visited database or to null. *)
Lemma flush_loop_cleared depth : forall steps l s r,
  flush_loop steps depth l s = Some r ->
  null_or_in (fl_visited r) l /\
  (s_list (fl_state r) = s_list s \/ null_or_in (fl_visited r) (s_list (fl_state r))) /\
  forall b d', dbs (fl_state r) !! b = Some d' ->
    exists d, dbs s !! b = Some d /\
      (cleared d -> cleared d') /\
      (m_next d' = m_next d \/ null_or_in (fl_visited r) (m_next d')) /\
      (b ∈ fl_visited r -> cleared d' /\ null_or_in (fl_visited r) (m_next d')).
Proof.
  induction steps as [|steps IH]; intros l s r H.
  - destruct l as [a|]; simpl in H; [done|]. simplify_eq. simpl.
    split; [by left|]. split; [by left|].
    intros b d' Hb. exists d'. split; [done|]. split; [done|]. split; [by left|].
    intros Hin. by apply elem_of_nil in Hin.
  - destruct l as [a|]; simpl in H.
    2:{ simplify_eq. simpl. split; [by left|]. split; [by left|].
        intros b d' Hb. exists d'. split; [done|]. split; [done|]. split; [by left|].
        intros Hin. by apply elem_of_nil in Hin. }
    destruct (flush_db depth a s) as [[[s1 next] recs]|] eqn:Hf;
      cbn [mbind option_bind] in H; [|done].
    destruct (flush_loop steps depth next s1) as [r1|] eqn:Hr;
      cbn [mbind option_bind] in H; [|done].
    simplify_eq. simpl.
    destruct (IH _ _ _ Hr) as (Hhead & Hsl & Hdb).
    split; [apply null_or_in_head|]. split.
    + destruct Hsl as [Hsl|Hsl]; [|right; by apply null_or_in_cons].
      rewrite Hsl. destruct (flush_db_s_list _ _ _ _ _ _ Hf) as [->| ->];
        [by left|right; by apply null_or_in_cons].
    + intros b d' Hb. destruct (Hdb _ _ Hb) as (d1 & Hb1 & Hc1 & Hn1 & Hv1).
      destruct (flush_db_lookup _ _ _ _ _ _ _ _ Hf Hb1) as (d & Hbd & Hc & Ha & Hn).
      assert (Hnext : m_next d' = m_next d \/ null_or_in (fl_visited r1) (m_next d')).
      { destruct Hn1 as [Hn1|Hn1]; [|by right].
        rewrite Hn1. destruct Hn as [->| ->]; [by left|by right]. }
      exists d. split; [done|]. split; [auto|]. split.
      * destruct Hnext as [?|?]; [by left|right; by apply null_or_in_cons].
      * rewrite elem_of_cons. intros [->|Hin].
        -- destruct (Ha eq_refl) as [Hca Hna]. split; [auto|].
           apply null_or_in_cons.
           destruct Hn1 as [Hn1|Hn1]; [|done]. rewrite Hn1, Hna. exact Hhead.
        -- destruct (Hv1 Hin). split; [done|by apply null_or_in_cons].
Qed.

(** A loop over cleared, chained databases writes nothing. *)
Lemma flush_loop_cleared_chain V depth : forall steps l s r,
  cleared_chain V s -> null_or_in V l ->
  flush_loop steps depth l s = Some r -> fl_records r = [].
Proof.
  induction steps as [|steps IH]; intros l s r Hch Hl H;
    (destruct l as [a|]; simpl in H; [|by simplify_eq]); [done|].
  destruct (flush_db depth a s) as [[[s1 next] recs]|] eqn:Hf;
    cbn [mbind option_bind] in H; [|done].
  destruct (flush_loop steps depth next s1) as [r1|] eqn:Hr;
    cbn [mbind option_bind] in H; [|done].
  simplify_eq. simpl.
  destruct Hl as [?|(a' & [= <-] & Ha)]; [done|].
  pose proof Hf as Hf'.
  apply flush_db_Some in Hf' as (d & Hd & Hfl & -> & _).
  destruct (Hch _ _ Ha Hd) as [Hcl Hnx].
  rewrite (cleared_flush depth _ (set_stopped true d)) in Hfl by exact Hcl.
  simplify_eq. simpl.
  eapply IH; [|exact Hnx|exact Hr].
  intros b d1 Hb Hb1.
  destruct (flush_db_lookup _ _ _ _ _ _ _ _ Hf Hb1) as (d0 & Hb0 & Hc & _ & Hn).
  destruct (Hch _ _ Hb Hb0) as [Hc0 Hn0].
  split; [auto|]. destruct Hn as [->| ->]; done.
Qed.

Lemma flush_loop_length depth : forall steps l s r,
  flush_loop steps depth l s = Some r -> (length (fl_visited r) <= steps)%nat.
Proof.
  induction steps as [|steps IH]; intros l s r H;
    (destruct l as [a|]; simpl in H; [|simplify_eq; simpl; lia]); [done|].
  destruct (flush_db depth a s) as [[[s1 next] recs]|] eqn:Hf;
    cbn [mbind option_bind] in H; [|done].
  destruct (flush_loop steps depth next s1) as [r1|] eqn:Hr;
    cbn [mbind option_bind] in H; [|done].
  simplify_eq. simpl. apply IH in Hr. lia.
Qed.

Lemma flush_loop_more_steps depth : forall steps steps' l s r,
  (steps <= steps')%nat ->
  flush_loop steps depth l s = Some r -> flush_loop steps' depth l s = Some r.
Proof.
  induction steps as [|steps IH]; intros steps' l s r Hle H.
  - destruct l as [a|]; simpl in H; [done|]. by destruct steps'.
  - destruct steps' as [|steps']; [lia|].
    destruct l as [a|]; simpl in *; [|done].
    destruct (flush_db depth a s) as [[[s1 next] recs]|] eqn:Hf;
      cbn [mbind option_bind] in *; [|done].
    destruct (flush_loop steps depth next s1) as [r1|] eqn:Hr;
      cbn [mbind option_bind] in H; [|done].
    rewrite (IH steps' _ _ _ ltac:(lia) Hr). exact H.
Qed.

Lemma flush_db_retired depth a s s1 next recs b d1 :
  flush_db depth a s = Some (s1, next, recs) -> dbs s1 !! b = Some d1 ->
  exists d, dbs s !! b = Some d /\ m_retired d1 = m_retired d /\
    (b = a -> m_retired d1 = false).
Proof.
  intros H Hb. apply flush_db_Some in H as (d & Hd & _ & -> & Hcase).
  assert (Hins : forall d0, <[a := flushed_db d]> (dbs s) !! b = Some d0 ->
            exists d', dbs s !! b = Some d' /\ m_retired d0 = m_retired d' /\
              (b = a -> m_retired d0 = m_retired d)).
  { intros d0. rewrite lookup_insert. destruct (decide (a = b)) as [Hab|Hab].
    - intros Heq. apply (inj Some) in Heq. subst b d0. exists d. by split_and!.
    - intros Hd0. exists d0. split_and!; [done|done|]. intros ->. done. }
  destruct Hcase as [[Hr ->]|(_ & h & Hu & ->)]; simpl in Hb.
  - destruct (Hins _ Hb) as (d' & Hd' & Hr' & Ha). exists d'.
    split_and!; [done|done|]. intros Hba. rewrite (Ha Hba). exact Hr.
  - rewrite lookup_delete in Hb. destruct (decide (a = b)) as [Hab|Hab]; [done|].
    rewrite (unlink_lookup_exact _ _ _ b Hu) in Hb.
    destruct (<[a:=flushed_db d]> (dbs s) !! b) as [d0|] eqn:Hd0; simpl in Hb; [|done].
    simplify_eq. destruct (Hins _ eq_refl) as (d' & Hd' & Hr' & _).
    exists d'. rewrite relink_retired. split_and!; [done|done|]. intros ->. done.
Qed.

(** After the loop the databases it visited and left alive are chained
    in the order of the visits, and none of them is retired. *)
Lemma flush_loop_chain depth : forall steps l s r,
  flush_loop steps depth l s = Some r ->
  chain_sorted (fl_state r) (fl_visited r) /\
  (forall b d', dbs (fl_state r) !! b = Some d' ->
     exists d, dbs s !! b = Some d /\ m_retired d' = m_retired d) /\
  (forall b d', b ∈ fl_visited r -> dbs (fl_state r) !! b = Some d' ->
     m_retired d' = false).
Proof.
  induction steps as [|steps IH]; intros l s r H.
  - destruct l as [a|]; simpl in H; [done|]. simplify_eq. simpl.
    split_and!; [done|eauto|]. intros b d' Hin. by apply elem_of_nil in Hin.
  - destruct l as [a|]; simpl in H.
    2:{ simplify_eq. simpl.
        split_and!; [done|eauto|]. intros b d' Hin. by apply elem_of_nil in Hin. }
    destruct (flush_db depth a s) as [[[s1 next] recs]|] eqn:Hf;
      cbn [mbind option_bind] in H; [|done].
    destruct (flush_loop steps depth next s1) as [r1|] eqn:Hr;
      cbn [mbind option_bind] in H; [|done].
    simplify_eq. simpl.
    destruct (IH _ _ _ Hr) as (Hch & Hret & Hvis).
    destruct (flush_loop_cleared _ _ _ _ _ Hr) as (Hhead & _ & Hdb).
    split; [|split].
    + split; [|exact Hch].
      intros d' Ha. destruct (Hdb _ _ Ha) as (d1 & Ha1 & _ & Hn1 & _).
      destruct (flush_db_lookup _ _ _ _ _ _ _ _ Hf Ha1) as (d & _ & _ & Hna & _).
      destruct Hn1 as [Hn1|Hn1]; [|done].
      rewrite Hn1, (proj2 (Hna eq_refl)). exact Hhead.
    + intros b d' Hb. destruct (Hret _ _ Hb) as (d1 & Hb1 & Hr1).
      destruct (flush_db_retired _ _ _ _ _ _ _ _ Hf Hb1) as (d & Hbd & Hrd & _).
      exists d. split; [done|congruence].
    + intros b d' Hin Hb. apply elem_of_cons in Hin as [->|Hin]; [|by eapply Hvis].
      destruct (Hret _ _ Hb) as (d1 & Hb1 & Hr1).
      destruct (flush_db_retired _ _ _ _ _ _ _ _ Hf Hb1) as (d & _ & _ & Ha).
      rewrite Hr1. by apply Ha.
Qed.

Lemma chain_sorted_same_links s s' V :
  (forall b d', dbs s' !! b = Some d' ->
     exists d, dbs s !! b = Some d /\ m_next d' = m_next d) ->
  chain_sorted s V -> chain_sorted s' V.
Proof.
  intros Hrel. induction V as [|a V IH]; simpl; [done|].
  intros [Ha Hch]. split; [|by apply IH].
  intros d' Hd'. destruct (Hrel _ _ Hd') as (d & Hd & ->). by apply Ha.
Qed.

(** A loop over cleared databases that are chained in the order [V] and
    not retired ends within [length V] iterations and writes nothing. *)
Lemma flush_loop_survivors depth : forall V l s,
  chain_sorted s V ->
  (forall a d, a ∈ V -> dbs s !! a = Some d -> cleared d /\ m_retired d = false) ->
  (forall a d n, a ∈ V -> dbs s !! a = Some d -> m_next d = Some n ->
     is_Some (dbs s !! n)) ->
  (l = None \/ exists a, l = Some a /\ a ∈ V /\ is_Some (dbs s !! a)) ->
  exists r, flush_loop (length V) depth l s = Some r /\ fl_records r = [].
Proof.
  induction V as [|b V IH]; intros l s Hch Hcl Hlive Hl.
  - destruct Hl as [->|(a & _ & Hin & _)]; [|by apply elem_of_nil in Hin].
    eexists. split; reflexivity.
  - destruct Hl as [->|(a & -> & Hin & [d Hd])]; [eexists; split; reflexivity|].
    destruct Hch as [Hb Hch].
    destruct (decide (a = b)) as [->|Hab].
    + destruct (Hcl _ _ Hin Hd) as [Hc Hr].
      assert (Hf : flush_db depth b s
                   = Some (set_globals (add_db_stats (set_stopped true d) (globals s))
                             (set_dbs (<[b := flushed_db d]> (dbs s)) s),
                           m_next d, [])).
      { unfold flush_db. rewrite Hd. cbn [mbind option_bind].
        rewrite (cleared_flush depth _ (set_stopped true d)) by exact Hc.
        cbn [mbind option_bind].
        change (m_retired (set_stopped false (clear (set_stopped true d))))
          with (m_retired d). rewrite Hr. reflexivity. }
      simpl. rewrite Hf. cbn [mbind option_bind].
      set (s1 := set_globals _ _).
      assert (Hlk : forall x d1, dbs s1 !! x = Some d1 ->
                exists d0, dbs s !! x = Some d0 /\ m_next d1 = m_next d0 /\
                  (cleared d0 -> cleared d1) /\ m_retired d1 = m_retired d0).
      { intros x d1. simpl. rewrite lookup_insert.
        destruct (decide (b = x)) as [Hbx|Hbx].
        - intros Heq. apply (inj Some) in Heq. subst x d1. exists d. by split_and!.
        - intros Hx. exists d1. by split_and!. }
      destruct (IH (m_next d) s1) as (r1 & Hr1 & Hrec).
      * apply (chain_sorted_same_links s s1 V); [|exact Hch].
        intros x d1 Hx. destruct (Hlk _ _ Hx) as (d0 & ? & ? & _). eauto.
      * intros x d1 Hx Hx1. destruct (Hlk _ _ Hx1) as (d0 & Hx0 & _ & Hc0 & Hr0).
        destruct (Hcl x d0) as [? ?]; [by right|done|]. split; [auto|congruence].
      * intros x d1 n Hx Hx1 Hn. destruct (Hlk _ _ Hx1) as (d0 & Hx0 & Hn0 & _).
        destruct (Hlive x d0 n) as [dn Hdn]; [by right|done|congruence|].
        simpl. rewrite lookup_insert. destruct (decide (b = n)); eauto.
      * destruct (Hb _ Hd) as [Hn|(n & Hn & Hnin)]; [by left|right].
        exists n. split; [done|]. split; [done|].
        destruct (Hlive b d n Hin Hd Hn) as [dn Hdn].
        simpl. rewrite lookup_insert. destruct (decide (b = n)); eauto.
      * rewrite Hr1. cbn [mbind option_bind]. eexists. split; [reflexivity|].
        simpl. exact Hrec.
    + assert (Hin' : a ∈ V) by (apply elem_of_cons in Hin as [?|?]; done).
      destruct (IH (Some a) s) as (r & Hr & Hrec); [done|..].
      * intros x dx Hx. apply Hcl. by right.
      * intros x dx n Hx. apply Hlive. by right.
      * right. exists a. eauto.
      * exists r. split; [|done].
        eapply flush_loop_more_steps; [|exact Hr]. simpl. lia.
Qed.

(** From a well-formed registry, the [flush_cb] that follows a
    [flush_cb] ends within the same number of iterations, whatever the
    bound on the recursion, and writes nothing. *)
Lemma flush_twice_total steps depth depth' s r :
  well_formed s -> flush_cb steps depth s = Some r ->
  exists r', flush_cb steps depth' (fl_state r) = Some r' /\ fl_records r' = [].
Proof.
  intros Hwf H1. unfold flush_cb in *.
  assert (Hcur : cursor_ok s (s_list s)).
  { unfold cursor_ok. destruct (s_list s); [by left|done]. }
  pose proof (flush_loop_well_formed _ _ _ _ _ Hwf Hcur H1) as Hwf'.
  pose proof (well_formed_closed _ Hwf') as (C1 & _ & C3).
  destruct (flush_loop_cleared _ _ _ _ _ H1) as (Hhead & Hsl & Hdb).
  destruct (flush_loop_chain _ _ _ _ _ H1) as (Hch & _ & Hret).
  destruct (flush_loop_survivors depth' (fl_visited r) (s_list (fl_state r)) (fl_state r))
    as (r' & Hr' & Hrec); [done|..].
  - intros a d Ha Hd. split; [|by eapply Hret].
    destruct (Hdb _ _ Hd) as (d0 & _ & _ & _ & Hv). by apply Hv.
  - intros a d n _ Hd Hn. by apply (proj1 (C3 a d Hd)).
  - assert (Hin : null_or_in (fl_visited r) (s_list (fl_state r))).
    { destruct Hsl as [->|Hsl]; done. }
    destruct Hin as [?|(a & Ha & Hin)]; [by left|right].
    exists a. split; [done|]. split; [done|]. by apply C1.
  - exists r'. split; [|done].
    eapply flush_loop_more_steps; [|exact Hr']. by eapply flush_loop_length.
Qed.

(** C7.  After [clear] the root of the trie is absent and [flush] writes
    nothing, for every database and every bound on the recursion.  So
    the [flush_cb] that follows a [flush_cb] writes no record: from a
    well-formed registry it runs to its end and the records it wrote are
    none, and from any registry it wrote none if it ran to its end. *)
Theorem flush_twice_writes_nothing :
  (forall depth K db,
     (BlockAlloc.get 0 false (m_trie (clear db))).2 = BlockAlloc.Null /\
     flush depth K (clear db) = Some []) /\
  (forall steps depth depth' s r,
     well_formed s ->
     flush_cb steps depth s = Some r ->
     exists r', flush_cb steps depth' (fl_state r) = Some r' /\ fl_records r' = []) /\
  (forall steps depth steps' depth' s r r',
     flush_cb steps depth s = Some r ->
     flush_cb steps' depth' (fl_state r) = Some r' ->
     fl_records r' = []).
Proof.
  split; [intros; split; [reflexivity|by apply cleared_flush]|].
  split; [intros *; apply flush_twice_total|].
  intros steps depth steps' depth' s r r' H1 H2. unfold flush_cb in *.
  destruct (flush_loop_cleared _ _ _ _ _ H1) as (Hhead & Hsl & Hdb).
  eapply (flush_loop_cleared_chain (fl_visited r)); [| |exact H2].
  - intros b d' Hb Hb'. destruct (Hdb _ _ Hb') as (d & _ & _ & _ & Hv). by apply Hv.
  - destruct Hsl as [->|Hsl]; done.
Qed.

Lemma flush_twice_writes_nothing_witness :
  exists r r',
    flush_cb 4 8 ingested_service = Some r /\
    length (fl_records r) = 1%nat /\
    flush_cb 4 0 (fl_state r) = Some r' /\
    fl_records r' = [].
Proof.
  assert (H1 : flush_cb 4 8 ingested_service
               = Some (default (mkFlushed ingested_service [] [])
                         (flush_cb 4 8 ingested_service)))
    by (vm_compute; reflexivity).
  destruct (proj1 (proj2 flush_twice_writes_nothing) 4%nat 8%nat 0%nat _ _
              (run_well_formed
                 [EvPostInit 0 (host false) (platform true);
                  EvProcessSnapshot 0 (host false) (platform true) (sample [7] 10)]
                 (init_static_data [] ["t"%string]) ingested_service
                 (well_formed_init _ _) ltac:(vm_compute; reflexivity))
              H1) as (r' & H2 & H3).
  eexists _, r'. split; [exact H1|]. split; [vm_compute; reflexivity|].
  split; [exact H2|exact H3].
Defined.

(** ** What [process_snapshot] does, case by case *)

Lemma process_snapshot_cases c K snap db db' :
  process_snapshot c K snap db = Some db' ->
  ((length (node_entries snap) + length (immediate snap) = 0)%nat /\ db' = db) \/
  exists key db2 p,
    (0 < length (node_entries snap) + length (immediate snap))%nat /\
    snapshot_key c K snap = Some key /\
    (length key <= MAX_KEYLEN)%nat /\
    find_entry key (negb (is_signal c))
      (set_max_keylen (N.max (N.of_nat (length key)) (m_max_keylen db)) db) = (db2, p) /\
    ((p = BlockAlloc.Null /\
      db' = set_num_dropped (wrap64 (m_num_dropped db2 + 1)) db2) \/
     (exists blk off ks,
        p = BlockAlloc.Ptr blk off /\
        update_kernels (negb (is_signal c))
          (k_id (incr_count (BlockAlloc.read (m_trie db2) blk off))) 0
          (m_aggr_attributes db2) (immediate snap) (m_kernels db2) = Some ks /\
        db' = set_kernels ks
                (set_trie (BlockAlloc.write (m_trie db2) blk off
                             (incr_count (BlockAlloc.read (m_trie db2) blk off))) db2))).
Proof.
  intros H. unfold process_snapshot in H.
  destruct (_ =? 0)%nat eqn:E0.
  { left. apply Nat.eqb_eq in E0. by simplify_eq. }
  right. apply Nat.eqb_neq in E0.
  destruct (snapshot_imm_key c K snap) as [st|]; cbn [mbind option_bind] in H; [|done].
  destruct (snapshot_key c K snap) as [key|]; cbn [mbind option_bind] in H; [|done].
  destruct (MAX_KEYLEN <? length (imm_key st))%nat; [done|].
  destruct (MAX_KEYLEN <? length key)%nat eqn:E2; [done|].
  apply Nat.ltb_ge in E2. cbn [orb] in H.
  destruct (find_entry key _ _) as [db2 p] eqn:Hf.
  exists key, db2, p. split_and!; [lia|done|done|done|].
  destruct p as [|blk off|]; [left|right|done].
  - by simplify_eq.
  - destruct (update_kernels _ _ _ _ _ _) as [ks|] eqn:Hu; cbn [mbind option_bind] in H;
      [|done].
    simplify_eq. by exists blk, off, ks.
Qed.

Section block_alloc_pointers.
Context {T : Type}.
Implicit Types (a : BlockAlloc.t T).

Lemma get_Ptr_inv id alloc a a' blk off :
  BlockAlloc.get id alloc a = (a', BlockAlloc.Ptr blk off) ->
  blk = id / BlockAlloc.ENTRIES_PER_BLOCK /\
  off = id mod BlockAlloc.ENTRIES_PER_BLOCK /\
  blk < BlockAlloc.MAX_BLOCKS /\
  is_Some (BlockAlloc.m_blocks a' !! blk).
Proof.
  unfold BlockAlloc.get. intros H.
  destruct (BlockAlloc.MAX_BLOCKS <? _) eqn:E1; [done|].
  destruct (_ <? BlockAlloc.MAX_BLOCKS) eqn:E2; simpl in H; [|done].
  apply N.ltb_lt in E2.
  destruct (BlockAlloc.m_blocks a !! _) eqn:E3.
  - simplify_eq. rewrite E3. eauto.
  - destruct alloc; simplify_eq. simpl. rewrite lookup_insert_eq. eauto.
Qed.

Lemma get_allocated id alloc a :
  id / BlockAlloc.ENTRIES_PER_BLOCK < BlockAlloc.MAX_BLOCKS ->
  is_Some (BlockAlloc.m_blocks a !! (id / BlockAlloc.ENTRIES_PER_BLOCK)) ->
  BlockAlloc.get id alloc a
  = (a, BlockAlloc.Ptr (id / BlockAlloc.ENTRIES_PER_BLOCK)
                       (id mod BlockAlloc.ENTRIES_PER_BLOCK)).
Proof.
  intros Hlt [b Hb]. unfold BlockAlloc.get.
  assert (E1 : (BlockAlloc.MAX_BLOCKS <? id / BlockAlloc.ENTRIES_PER_BLOCK) = false)
    by (apply N.ltb_ge; lia).
  apply N.ltb_lt in Hlt. by rewrite E1, Hlt, Hb.
Qed.

End block_alloc_pointers.



(** *** The block counters *)

Section block_counting.
Context {T : Type}.
Implicit Types (a : BlockAlloc.t T).

Lemma get_counted i id alloc a a' p :
  BlockAlloc.get id alloc a = (a', p) -> counted_from i a -> counted_from i a'.
Proof.
  unfold BlockAlloc.get. intros H [Hn Hb].
  destruct (BlockAlloc.MAX_BLOCKS <? _) eqn:E1; [by simplify_eq|].
  destruct (_ <? BlockAlloc.MAX_BLOCKS) eqn:E2; simpl in H; [|by simplify_eq].
  apply N.ltb_lt in E2.
  destruct (BlockAlloc.m_blocks a !! _) eqn:E3; [by simplify_eq|].
  destruct alloc; [|by simplify_eq]. simplify_eq. split; simpl.
  - rewrite map_size_insert_None by done.
    unfold BlockAlloc.num_blocks in Hn. rewrite Hn. unfold wrap64.
    rewrite N.Div0.add_mod_idemp_l. f_equal. lia.
  - intros blk. rewrite lookup_insert. case_decide; [by subst|apply Hb].
Qed.

Lemma write_counted i a blk off v :
  counted_from i a -> counted_from i (BlockAlloc.write a blk off v).
Proof.
  intros [Hn Hb]. pose proof (write_same_blocks a blk off v) as [Hdom Hnum].
  split.
  - rewrite Hnum, Hn. do 2 f_equal. rewrite <- !size_dom. by rewrite Hdom.
  - intros b Hs. apply Hb. apply elem_of_dom. rewrite <- Hdom. by apply elem_of_dom.
Qed.

Lemma clear_counted a : counted_from 0 (BlockAlloc.clear a).
Proof.
  split; [reflexivity|]. intros blk [x Hx]. simpl in Hx. by rewrite lookup_empty in Hx.
Qed.

Lemma new_counted i :
  i < 2 ^ 64 -> counted_from (T:=T) i (BlockAlloc.get 0 true (BlockAlloc.new i)).1.
Proof.
  intros Hi. eapply get_counted; [apply surjective_pairing|].
  split.
  - unfold BlockAlloc.num_blocks. simpl. rewrite map_size_empty.
    unfold wrap64. rewrite N.add_0_r. symmetry. by apply N.mod_small.
  - intros blk [x Hx]. simpl in Hx. by rewrite lookup_empty in Hx.
Qed.

End block_counting.

(** What [get] and the stores through its pointers keep of the two
    allocators, [find_entry] and [process_snapshot] keep. *)
Section alloc_invariant.
Variable alloc : bool.
Variable P : BlockAlloc.t TrieNode -> Prop.
Variable Q : BlockAlloc.t AggregateKernel.t -> Prop.
Hypothesis P_get : forall id a a' p, BlockAlloc.get id alloc a = (a', p) -> P a -> P a'.
Hypothesis P_write : forall a blk off v, P a -> P (BlockAlloc.write a blk off v).
Hypothesis Q_get : forall id a a' p, BlockAlloc.get id alloc a = (a', p) -> Q a -> Q a'.
Hypothesis Q_write : forall a blk off v, Q a -> Q (BlockAlloc.write a blk off v).

Lemma find_entry_walk_inv key : forall blk off db,
  P (m_trie db) ->
  P (m_trie (find_entry_walk alloc key blk off db).1) /\
  m_kernels (find_entry_walk alloc key blk off db).1 = m_kernels db.
Proof.
  induction key as [|b key IH]; intros blk off db HP; simpl; [done|].
  set (node := BlockAlloc.read (m_trie db) blk off).
  assert (Hstep : forall db1 id1,
            P (m_trie db1) -> m_kernels db1 = m_kernels db ->
            let r := match BlockAlloc.get id1 alloc (m_trie db1) with
                     | (tr, BlockAlloc.Ptr blk' off') =>
                         find_entry_walk alloc key blk' off' (set_trie tr db1)
                     | (tr, p) => (set_trie tr db1, p)
                     end in
            P (m_trie r.1) /\ m_kernels r.1 = m_kernels db).
  { intros db1 id1 HP1 Hk. cbv zeta.
    destruct (BlockAlloc.get id1 alloc (m_trie db1)) as [tr p] eqn:Hget.
    pose proof (P_get _ _ _ _ Hget HP1) as HPtr.
    destruct p as [|blk1 off1|]; simpl; try done.
    destruct (IH blk1 off1 (set_trie tr db1) HPtr) as [H1 H2].
    split; [done|]. by rewrite H2. }
  destruct (next_at node b =? 0).
  - apply Hstep; [|done]. simpl. by apply P_write.
  - by apply Hstep.
Qed.

Lemma ensure_kernels_inv first_id : forall idx ks,
  Q ks -> Q (ensure_kernels alloc first_id idx ks).1.
Proof.
  induction idx as [|i idx IH]; intros ks HQ; simpl; [done|].
  destruct (BlockAlloc.get _ alloc ks) as [ks1 p] eqn:Hget.
  pose proof (Q_get _ _ _ _ Hget HQ).
  destruct p; simpl; auto.
Qed.

Lemma find_entry_kernels_inv blk off db :
  P (m_trie db) -> Q (m_kernels db) ->
  P (m_trie (find_entry_kernels alloc blk off db).1) /\
  Q (m_kernels (find_entry_kernels alloc blk off db).1).
Proof.
  intros HP HQ. unfold find_entry_kernels.
  destruct (k_id _ =? NO_KERNEL); [|done].
  destruct (0 <? length _)%nat; [|done].
  set (db1 := set_num_kernel_entries _ db).
  pose proof (ensure_kernels_inv (wrap32 (m_num_kernel_entries db + 1))
                (seq 0 (length (m_aggr_attributes db))) (m_kernels db1) HQ) as HQ1.
  destruct (ensure_kernels _ _ _ _) as [ks p]. simpl in HQ1.
  destruct p; simpl; split; try done. by apply P_write.
Qed.

Lemma find_entry_inv key db :
  P (m_trie db) -> Q (m_kernels db) ->
  P (m_trie (find_entry key alloc db).1) /\ Q (m_kernels (find_entry key alloc db).1).
Proof.
  intros HP HQ. unfold find_entry.
  destruct (BlockAlloc.get 0 alloc (m_trie db)) as [tr p] eqn:Hget.
  pose proof (P_get _ _ _ _ Hget HP) as HPtr.
  destruct p as [|blk off|]; simpl; [done| |done].
  destruct (find_entry_walk_inv key blk off (set_trie tr db) HPtr) as [H1 H2].
  destruct (find_entry_walk alloc key blk off (set_trie tr db)) as [db1 p].
  simpl in H1, H2. destruct p as [|blk1 off1|]; simpl; [by rewrite H2| |by rewrite H2].
  apply find_entry_kernels_inv; [done|]. by rewrite H2.
Qed.

Lemma add_matching_inv kid a attr_a : forall imms ks ks',
  Q ks -> add_matching alloc kid a attr_a imms ks = Some ks' -> Q ks'.
Proof.
  induction imms as [|e imms IH]; intros ks ks' HQ H; simpl in H; [by simplify_eq|].
  destruct (bool_decide _); [|by eapply IH].
  destruct (BlockAlloc.get _ alloc ks) as [ks1 p] eqn:Hget.
  pose proof (Q_get _ _ _ _ Hget HQ).
  destruct p as [|blk off|]; [|..|done].
  - by eapply IH.
  - eapply IH; [|exact H]. by apply Q_write.
Qed.

Lemma update_kernels_inv kid imms : forall attrs a ks ks',
  Q ks -> update_kernels alloc kid a attrs imms ks = Some ks' -> Q ks'.
Proof.
  induction attrs as [|attr attrs IH]; intros a ks ks' HQ H; simpl in H;
    [by simplify_eq|].
  destruct (add_matching _ _ _ _ _ ks) as [ks1|] eqn:Ha; cbn [mbind option_bind] in H;
    [|done].
  eapply IH; [|exact H]. by eapply add_matching_inv.
Qed.

Lemma process_snapshot_inv c K snap db db' :
  negb (is_signal c) = alloc ->
  P (m_trie db) -> Q (m_kernels db) ->
  process_snapshot c K snap db = Some db' ->
  P (m_trie db') /\ Q (m_kernels db').
Proof.
  intros Hal HP HQ H.
  destruct (process_snapshot_cases _ _ _ _ _ H)
    as [[_ ->]|(key & db2 & p & _ & _ & _ & Hf & Hp)]; [done|].
  rewrite Hal in Hf, Hp. clear Hal.
  destruct (find_entry_inv key (set_max_keylen
              (N.max (N.of_nat (length key)) (m_max_keylen db)) db) HP HQ)
    as [HP2 HQ2].
  rewrite Hf in HP2, HQ2. simpl in HP2, HQ2.
  destruct Hp as [[-> ->]|(blk & off & ks & -> & Hu & ->)]; [done|].
  simpl. split; [by apply P_write|].
  eapply update_kernels_inv; [|exact Hu]. done.
Qed.

End alloc_invariant.

Lemma ingested_inv (P : BlockAlloc.t TrieNode -> Prop)
    (Q : BlockAlloc.t AggregateKernel.t -> Prop) db db' :
  (forall id alloc a a' p, BlockAlloc.get id alloc a = (a', p) -> P a -> P a') ->
  (forall a blk off v, P a -> P (BlockAlloc.write a blk off v)) ->
  (forall id alloc a a' p, BlockAlloc.get id alloc a = (a', p) -> Q a -> Q a') ->
  (forall a blk off v, Q a -> Q (BlockAlloc.write a blk off v)) ->
  P (m_trie db) -> Q (m_kernels db) -> ingested db db' ->
  P (m_trie db') /\ Q (m_kernels db').
Proof.
  intros P_get P_write Q_get Q_write HP HQ H.
  induction H as [|d1 d2 d3 (c & K & snap & Hs) _ IH]; [done|].
  destruct (process_snapshot_inv (negb (is_signal c)) P Q
              (fun id => P_get id _) P_write (fun id => Q_get id _) Q_write
              _ _ _ _ _ eq_refl HP HQ Hs).
  by apply IH.
Qed.

(** The block counters of a database.  The constructor of the allocator
    leaves [m_num_blocks] indeterminate, so the counter of a new database
    is off by that value, [i] for the trie and [j] for the kernels,
    however many snapshots the database ingests; [clear] sets the offset
    to 0, and from then on [num_blocks] is the number of allocated
    blocks.  The allocated blocks are always at indices below
    [MAX_BLOCKS]. *)
Theorem block_counters (c : Caliper) (names : list string) (i j : N)
    (d0 db : AggregateDB) :
  i < 2 ^ 64 -> j < 2 ^ 64 ->
  (ingested (AggregateDB_new c names i j) db -> db_counted i j db) /\
  (ingested (clear d0) db -> db_counted 0 0 db).
Proof.
  intros Hi Hj. split; intros H.
  - eapply (ingested_inv (counted_from i) (counted_from j)); [..|exact H];
      eauto using @get_counted, @write_counted.
    + by apply new_counted.
    + by apply new_counted.
  - eapply (ingested_inv (counted_from 0) (counted_from 0)); [..|exact H];
      eauto using @get_counted, @write_counted, @clear_counted.
    + apply clear_counted.
    + apply clear_counted.
Qed.

Lemma block_counters_witness : db_counted 0 0 ingested_db.
Proof.
  apply (proj1 (block_counters (host false) ["t"%string] 0 0 fresh_db ingested_db
                  ltac:(reflexivity) ltac:(reflexivity))).
  apply rtc_once. exists (host false), [], (sample [7] 10). vm_compute. reflexivity.
Defined.

(** ** The shape of the trie *)

Lemma node_at_get id alloc tr tr' p u :
  BlockAlloc.get id alloc tr = (tr', p) -> node_at tr' u = node_at tr u.
Proof. intros H. unfold node_at. by erewrite get_read. Qed.

Lemma div_mod_eq u u' :
  u / BlockAlloc.ENTRIES_PER_BLOCK = u' / BlockAlloc.ENTRIES_PER_BLOCK ->
  u mod BlockAlloc.ENTRIES_PER_BLOCK = u' mod BlockAlloc.ENTRIES_PER_BLOCK ->
  u = u'.
Proof.
  intros H1 H2.
  rewrite (N.div_mod u BlockAlloc.ENTRIES_PER_BLOCK) by done.
  rewrite (N.div_mod u' BlockAlloc.ENTRIES_PER_BLOCK) by done.
  by rewrite H1, H2.
Qed.

Lemma node_at_write tr u v u' :
  is_Some (BlockAlloc.m_blocks tr !! (u / BlockAlloc.ENTRIES_PER_BLOCK)) ->
  node_at (BlockAlloc.write tr (u / BlockAlloc.ENTRIES_PER_BLOCK)
                            (u mod BlockAlloc.ENTRIES_PER_BLOCK) v) u'
  = if decide (u = u') then v else node_at tr u'.
Proof.
  intros [blk Hblk]. unfold node_at, BlockAlloc.read, BlockAlloc.write. simpl.
  rewrite lookup_alter. destruct (decide (u = u')) as [<-|Hu].
  - rewrite decide_True by done. rewrite Hblk. simpl. by rewrite lookup_insert_eq.
  - destruct (decide (u / BlockAlloc.ENTRIES_PER_BLOCK = u' / BlockAlloc.ENTRIES_PER_BLOCK))
      as [Hd|Hd]; [|done].
    rewrite <- Hd, Hblk. simpl. rewrite lookup_insert_ne; [done|].
    intros Hm. apply Hu. by apply div_mod_eq.
Qed.

Lemma next_at_set_next b id node b' :
  next_at (set_next b id node) b' = if decide (b = b') then id else next_at node b'.
Proof.
  unfold next_at, set_next. simpl. rewrite lookup_insert. by case_decide.
Qed.

Lemma trie_grows_refl tr : trie_grows tr tr.
Proof. by split. Qed.

Lemma trie_grows_trans tr1 tr2 tr3 :
  trie_grows tr1 tr2 -> trie_grows tr2 tr3 -> trie_grows tr1 tr3.
Proof.
  intros [H1 H1'] [H2 H2']. split; [|by auto].
  intros u b Hne. rewrite H2; [by apply H1|]. by rewrite H1.
Qed.

Lemma trie_grows_get id alloc tr tr' p :
  BlockAlloc.get id alloc tr = (tr', p) -> trie_grows tr tr'.
Proof.
  intros H. split.
  - intros u b _. by erewrite node_at_get.
  - intros blk. by eapply get_grows.
Qed.

(** A store that keeps the child ids of the node. *)
Lemma trie_grows_write tr u v :
  is_Some (BlockAlloc.m_blocks tr !! (u / BlockAlloc.ENTRIES_PER_BLOCK)) ->
  (forall b, next_at (node_at tr u) b <> 0 -> next_at v b = next_at (node_at tr u) b) ->
  trie_grows tr (BlockAlloc.write tr (u / BlockAlloc.ENTRIES_PER_BLOCK)
                                  (u mod BlockAlloc.ENTRIES_PER_BLOCK) v).
Proof.
  intros Hblk Hv. split.
  - intros u' b Hne. rewrite node_at_write by done. case_decide; [subst; by apply Hv|done].
  - intros blk. apply same_blocks_is_Some. 
    pose proof (write_same_blocks tr (u / BlockAlloc.ENTRIES_PER_BLOCK)
                  (u mod BlockAlloc.ENTRIES_PER_BLOCK) v) as [H1 H2].
    split; [by rewrite H1|by rewrite H2].
Qed.

Lemma fetchable_grows tr tr' id : trie_grows tr tr' -> fetchable tr id -> fetchable tr' id.
Proof. intros [_ Hb]. rewrite !fetchable_iff. intros [? ?]. split; [done|by apply Hb]. Qed.

Lemma fetchable_Ptr {T} (a : BlockAlloc.t T) id :
  fetchable a id ->
  forall alloc, BlockAlloc.get id alloc a
    = (a, BlockAlloc.Ptr (id / BlockAlloc.ENTRIES_PER_BLOCK)
                         (id mod BlockAlloc.ENTRIES_PER_BLOCK)).
Proof. intros [? ?]%fetchable_iff alloc. by apply get_allocated. Qed.

(** One step of a path. *)
Lemma path_from_cons tr u b key w :
  path_from tr u (b :: key) = Some w <->
  next_at (node_at tr u) b <> 0 /\
  fetchable tr (next_at (node_at tr u) b) /\
  path_from tr (next_at (node_at tr u) b) key = Some w.
Proof.
  cbn [path_from]. destruct (_ =? 0) eqn:E.
  - apply N.eqb_eq in E. split; [done|]. by intros [? _].
  - apply N.eqb_neq in E. destruct (BlockAlloc.get _ false tr).2 eqn:F.
    + split; [done|]. intros (_ & (? & ? & Hf) & _). congruence.
    + split; [|by intros (_ & _ & ?)]. intros H. split_and!; [done| |done].
      by eexists _, _.
    + split; [done|]. intros (_ & (? & ? & Hf) & _). congruence.
Qed.

Lemma path_from_grows tr tr' key : forall u v,
  trie_grows tr tr' -> path_from tr u key = Some v -> path_from tr' u key = Some v.
Proof.
  induction key as [|b key IH]; intros u v Hg H; [done|].
  apply path_from_cons in H as (Hne & Hf & H). apply path_from_cons.
  rewrite (proj1 Hg u b Hne). split_and!; [done|by eapply fetchable_grows|by apply IH].
Qed.

Lemma path_from_snoc tr key b : forall u,
  path_from tr u (key ++ [b])
  = w ← path_from tr u key; path_from tr w [b].
Proof.
  induction key as [|c key IH]; intros u; [done|].
  cbn [app path_from]. destruct (_ =? 0); [done|].
  destruct (BlockAlloc.get _ false tr).2; [done|apply IH|done].
Qed.

Lemma path_from_singleton tr u b v :
  path_from tr u [b] = Some v ->
  next_at (node_at tr u) b = v /\ v <> 0 /\ fetchable tr v.
Proof.
  intros (Hne & Hf & H)%path_from_cons. simpl in H. by simplify_eq.
Qed.

(** Along a path the ids grow, so only the empty key leads to the node
    it starts at. *)
Lemma path_from_le db key : forall u v,
  trie_tree db -> path_from (m_trie db) u key = Some v ->
  u <= v /\ (key <> [] -> u < v).
Proof.
  intros u v (_ & Hlt & _). revert u.
  induction key as [|b key IH]; intros u H; [simpl in H; by simplify_eq|].
  apply path_from_cons in H as (E & _ & H).
  destruct (Hlt u b E) as [H1 _].
  destruct (IH _ H) as [H2 _]. lia.
Qed.

(** In a tree no two keys lead from the root to the same node. *)
Lemma path_from_inj db key1 : forall key2 v,
  trie_tree db ->
  path_from (m_trie db) 0 key1 = Some v -> path_from (m_trie db) 0 key2 = Some v ->
  key1 = key2.
Proof.
  induction key1 as [|b1 key1 IH] using rev_ind; intros key2 v Ht H1 H2.
  - simpl in H1. simplify_eq. destruct key2 as [|b2 key2]; [done|].
    destruct (path_from_le db (b2 :: key2) 0 0 Ht H2) as [_ Hlt].
    specialize (Hlt ltac:(done)). lia.
  - destruct key2 as [|b2 key2 _] using rev_ind.
    + simpl in H2. simplify_eq.
      destruct (path_from_le db (key1 ++ [b1]) 0 0 Ht H1) as [_ Hlt].
      assert (key1 ++ [b1] <> []) by (by destruct key1). specialize (Hlt ltac:(done)). lia.
    + rewrite path_from_snoc in H1, H2.
      destruct (path_from (m_trie db) 0 key1) as [w1|] eqn:E1; [|done].
      destruct (path_from (m_trie db) 0 key2) as [w2|] eqn:E2; [|done].
      cbn [mbind option_bind] in H1, H2.
      apply path_from_singleton in H1 as (F1 & Hv & _).
      apply path_from_singleton in H2 as (F2 & _ & _).
      destruct Ht as (Hc & Hlt & Hinj).
      destruct (Hinj w1 b1 w2 b2) as [-> ->]; [congruence|congruence|].
      f_equal. by eapply (IH key2 w2); [split_and!|..].
Qed.

Lemma trie_tree_ext db db' :
  (forall u b, next_at (node_at (m_trie db') u) b = next_at (node_at (m_trie db) u) b) ->
  m_num_trie_entries db' = m_num_trie_entries db ->
  trie_tree db -> trie_tree db'.
Proof.
  intros Hn Hc (H1 & H2 & H3). split_and!.
  - by rewrite Hc.
  - intros u b. rewrite Hn, Hc. apply H2.
  - intros u1 b1 u2 b2. rewrite !Hn. apply H3.
Qed.

(** The store of a new child id, one more than the number of entries. *)
Lemma trie_tree_new_child db u b :
  trie_tree db ->
  m_num_trie_entries db + 1 < 2 ^ 32 ->
  u <= m_num_trie_entries db ->
  is_Some (BlockAlloc.m_blocks (m_trie db) !! (u / BlockAlloc.ENTRIES_PER_BLOCK)) ->
  next_at (node_at (m_trie db) u) b = 0 ->
  let id' := m_num_trie_entries db + 1 in
  let db1 := set_trie (BlockAlloc.write (m_trie db) (u / BlockAlloc.ENTRIES_PER_BLOCK)
                         (u mod BlockAlloc.ENTRIES_PER_BLOCK)
                         (set_next b id' (node_at (m_trie db) u)))
                      (set_num_trie_entries id' db) in
  trie_tree db1 /\ trie_grows (m_trie db) (m_trie db1) /\
  next_at (node_at (m_trie db1) u) b = id'.
Proof.
  intros (Hc & Hlt & Hinj) Hb Hu Hblk Hz id' db1.
  assert (Hnext : forall u' b',
            next_at (node_at (m_trie db1) u') b'
            = if decide (u = u' /\ b = b') then id'
              else next_at (node_at (m_trie db) u') b').
  { intros u' b'. unfold db1. simpl. rewrite node_at_write by done.
    destruct (decide (u = u')) as [<-|Hne].
    - rewrite next_at_set_next. destruct (decide (b = b')) as [<-|Hne].
      + by rewrite decide_True.
      + rewrite decide_False; [done|]. by intros [_ ?].
    - rewrite decide_False; [done|]. by intros [? _]. }
  split_and!.
  - split_and!.
    + exact Hb.
    + intros u' b'. rewrite Hnext. change (m_num_trie_entries db1) with id'.
      case_decide as Hd.
      * destruct Hd as [<- <-]. unfold id'. lia.
      * intros Hne. destruct (Hlt u' b' Hne). unfold id'. lia.
    + intros u1 b1 u2 b2. rewrite !Hnext.
      destruct (decide (u = u1 /\ b = b1)) as [[<- <-]|Hd1];
        destruct (decide (u = u2 /\ b = b2)) as [[<- <-]|Hd2]; try done.
      * intros _ Heq. exfalso.
        assert (Hne : next_at (node_at (m_trie db) u2) b2 <> 0).
        { rewrite <- Heq. unfold id'. lia. }
        destruct (Hlt u2 b2 Hne). unfold id' in Heq. lia.
      * intros Hne Heq. exfalso. destruct (Hlt u1 b1 Hne). unfold id' in Heq. lia.
      * apply Hinj.
  - unfold db1. simpl. apply trie_grows_write; [done|].
    intros b' Hne. rewrite next_at_set_next. case_decide; [subst; done|done].
  - rewrite Hnext. by rewrite decide_True.
Qed.

Lemma find_entry_walk_tree alloc key : forall u db,
  trie_tree db ->
  m_num_trie_entries db + N.of_nat (length key) < 2 ^ 32 ->
  u <= m_num_trie_entries db ->
  is_Some (BlockAlloc.m_blocks (m_trie db) !! (u / BlockAlloc.ENTRIES_PER_BLOCK)) ->
  let r := find_entry_walk alloc key (u / BlockAlloc.ENTRIES_PER_BLOCK)
             (u mod BlockAlloc.ENTRIES_PER_BLOCK) db in
  trie_tree r.1 /\
  m_num_trie_entries r.1 <= m_num_trie_entries db + N.of_nat (length key) /\
  trie_grows (m_trie db) (m_trie r.1) /\
  forall blk off, r.2 = BlockAlloc.Ptr blk off ->
    exists v, blk = v / BlockAlloc.ENTRIES_PER_BLOCK /\
              off = v mod BlockAlloc.ENTRIES_PER_BLOCK /\
              v <= m_num_trie_entries r.1 /\
              path_from (m_trie r.1) u key = Some v /\
              is_Some (BlockAlloc.m_blocks (m_trie r.1) !! blk).
Proof.
  induction key as [|b key IH]; intros u db Ht Hb Hu Hblk; cbv zeta.
  { simpl. split_and!; [done|lia|apply trie_grows_refl|].
    intros blk off [= <- <-]. exists u. by split_and!. }
  cbn [find_entry_walk]. fold (node_at (m_trie db) u).
  cbn [length] in Hb.
  (* what follows the choice of the child id *)
  assert (Hstep : forall db1 id1,
            trie_tree db1 ->
            m_num_trie_entries db1 + N.of_nat (length key) < 2 ^ 32 ->
            m_num_trie_entries db1 <= m_num_trie_entries db + 1 ->
            trie_grows (m_trie db) (m_trie db1) ->
            next_at (node_at (m_trie db1) u) b = id1 -> id1 <> 0 ->
            let r := match BlockAlloc.get id1 alloc (m_trie db1) with
                     | (tr, BlockAlloc.Ptr blk' off') =>
                         find_entry_walk alloc key blk' off' (set_trie tr db1)
                     | (tr, p) => (set_trie tr db1, p)
                     end in
            trie_tree r.1 /\
            m_num_trie_entries r.1 <= m_num_trie_entries db + N.of_nat (S (length key)) /\
            trie_grows (m_trie db) (m_trie r.1) /\
            forall blk off, r.2 = BlockAlloc.Ptr blk off ->
              exists v, blk = v / BlockAlloc.ENTRIES_PER_BLOCK /\
                        off = v mod BlockAlloc.ENTRIES_PER_BLOCK /\
                        v <= m_num_trie_entries r.1 /\
                        path_from (m_trie r.1) u (b :: key) = Some v /\
                        is_Some (BlockAlloc.m_blocks (m_trie r.1) !! blk)).
  { intros db1 id1 Ht1 Hb1 Hc1 Hg1 Hn1 Hz1. cbv zeta.
    destruct (BlockAlloc.get id1 alloc (m_trie db1)) as [tr p] eqn:Hget.
    assert (Ht2 : trie_tree (set_trie tr db1)).
    { eapply trie_tree_ext; [| |exact Ht1]; [|done].
      intros u' b'. simpl. by erewrite node_at_get. }
    pose proof (trie_grows_get _ _ _ _ _ Hget) as Hg2.
    assert (Hnon : forall q : BlockAlloc.ptr, q = q ->
              trie_tree (set_trie tr db1) /\
              m_num_trie_entries (set_trie tr db1)
                <= m_num_trie_entries db + N.of_nat (S (length key)) /\
              trie_grows (m_trie db) tr).
    { intros q _. split_and!; [done|simpl; lia|by eapply trie_grows_trans]. }
    destruct p as [|blk1 off1|].
    - destruct (Hnon BlockAlloc.Null eq_refl) as (?&?&?). by split_and!.
    - destruct (get_Ptr_inv _ _ _ _ _ _ Hget) as (-> & -> & _ & Hs).
      assert (Hid1 : id1 <= m_num_trie_entries db1).
      { destruct Ht1 as (_ & Hlt & _). subst id1. by apply Hlt. }
      destruct (IH id1 (set_trie tr db1) Ht2) as (H1 & H2 & H3 & H4);
        [simpl; lia|done|done|].
      split_and!; [done|simpl in *; lia| |].
      + eapply trie_grows_trans; [exact Hg1|].
        eapply trie_grows_trans; [exact Hg2|exact H3].
      + intros blk off Hr. destruct (H4 blk off Hr) as (v & ? & ? & ? & Hp & ?).
        exists v. split_and!; try done.
        apply path_from_cons.
        assert (Hfin : next_at (node_at (m_trie (find_entry_walk alloc key
                         (id1 / BlockAlloc.ENTRIES_PER_BLOCK)
                         (id1 mod BlockAlloc.ENTRIES_PER_BLOCK) (set_trie tr db1)).1) u) b
                       = id1).
        { rewrite (proj1 H3); simpl; erewrite node_at_get by exact Hget; [done|].
          by rewrite Hn1. }
        rewrite Hfin. split_and!; [done| |done].
        eapply fetchable_grows; [exact H3|]. simpl. by eapply get_Ptr_fetchable.
    - destruct (Hnon (BlockAlloc.OutOfBounds block) eq_refl) as (?&?&?). by split_and!. }
  destruct (next_at (node_at (m_trie db) u) b =? 0) eqn:E.
  - apply N.eqb_eq in E.
    assert (Hw : wrap64 (m_num_trie_entries db + 1) = m_num_trie_entries db + 1).
    { apply N.mod_small. destruct Ht. lia. }
    assert (Hw' : wrap32 (m_num_trie_entries db + 1) = m_num_trie_entries db + 1).
    { apply N.mod_small. lia. }
    rewrite Hw, Hw'.
    destruct (trie_tree_new_child db u b Ht) as (T1 & T2 & T3); [lia|done|done|done|].
    apply Hstep; try done; simpl; lia.
  - apply N.eqb_neq in E. apply Hstep; try done; lia.
Qed.

(** A store that keeps the child ids of the element it overwrites keeps
    every child id. *)
Lemma next_at_write_same (tr : BlockAlloc.t TrieNode) blk off v u b :
  next v = next (BlockAlloc.read tr blk off) ->
  next_at (node_at (BlockAlloc.write tr blk off v) u) b = next_at (node_at tr u) b.
Proof.
  intros Hv. unfold node_at, next_at, BlockAlloc.read, BlockAlloc.write in *. simpl.
  rewrite lookup_alter. destruct (decide (blk = _)) as [->|]; [|done].
  destruct (BlockAlloc.m_blocks tr !! _) as [blk|]; simpl in *; [|done].
  rewrite lookup_insert. destruct (decide (off = _)) as [->|]; [|done].
  simpl. by rewrite Hv.
Qed.

Lemma trie_grows_write_same (tr : BlockAlloc.t TrieNode) blk off v :
  next v = next (BlockAlloc.read tr blk off) ->
  trie_grows tr (BlockAlloc.write tr blk off v).
Proof.
  intros Hv. split.
  - intros u b _. by apply next_at_write_same.
  - intros b. apply same_blocks_is_Some.
    pose proof (write_same_blocks tr blk off v) as [H1 H2]. split; [by rewrite H1|by rewrite H2].
Qed.

Lemma find_entry_kernels_tree alloc blk off db :
  let r := find_entry_kernels alloc blk off db in
  (forall u b, next_at (node_at (m_trie r.1) u) b = next_at (node_at (m_trie db) u) b) /\
  m_num_trie_entries r.1 = m_num_trie_entries db /\
  trie_grows (m_trie db) (m_trie r.1) /\
  forall blk' off', r.2 = BlockAlloc.Ptr blk' off' -> blk' = blk /\ off' = off.
Proof.
  cbv zeta. unfold find_entry_kernels.
  destruct (k_id _ =? NO_KERNEL);
    [|split_and!; [done|done|apply trie_grows_refl|by intros ?? [= <- <-]]].
  destruct (0 <? length _)%nat;
    [|split_and!; [done|done|apply trie_grows_refl|by intros ?? [= <- <-]]].
  destruct (ensure_kernels _ _ _ _) as [ks p].
  destruct p as [|blk1 off1|]; simpl;
    [split_and!; [done|done|apply trie_grows_refl|done]| |
     split_and!; [done|done|apply trie_grows_refl|done]].
  split_and!; [|done| |by intros ?? [= <- <-]].
  - intros u b. by apply next_at_write_same.
  - by apply trie_grows_write_same.
Qed.

Lemma find_entry_tree key alloc db :
  trie_tree db ->
  m_num_trie_entries db + N.of_nat (length key) < 2 ^ 32 ->
  let r := find_entry key alloc db in
  trie_tree r.1 /\
  m_num_trie_entries r.1 <= m_num_trie_entries db + N.of_nat (length key) /\
  trie_grows (m_trie db) (m_trie r.1) /\
  forall blk off, r.2 = BlockAlloc.Ptr blk off ->
    exists v, blk = v / BlockAlloc.ENTRIES_PER_BLOCK /\
              off = v mod BlockAlloc.ENTRIES_PER_BLOCK /\
              v <= m_num_trie_entries r.1 /\
              path_from (m_trie r.1) 0 key = Some v /\
              is_Some (BlockAlloc.m_blocks (m_trie r.1) !! blk).
Proof.
  intros Ht Hb. cbv zeta. unfold find_entry.
  destruct (BlockAlloc.get 0 alloc (m_trie db)) as [tr p] eqn:Hget.
  assert (Ht0 : trie_tree (set_trie tr db)).
  { eapply trie_tree_ext; [| |exact Ht]; [|done].
    intros u' b'. simpl. by erewrite node_at_get. }
  pose proof (trie_grows_get _ _ _ _ _ Hget) as Hg0.
  destruct p as [|blk off|]; simpl; [split_and!; [done|lia|done|done]| |
                                     split_and!; [done|lia|done|done]].
  destruct (get_Ptr_inv _ _ _ _ _ _ Hget) as (-> & -> & _ & Hs).
  destruct (find_entry_walk_tree alloc key 0 (set_trie tr db) Ht0) as (H1 & H2 & H3 & H4);
    [done|lia|done|].
  destruct (find_entry_walk alloc key _ _ (set_trie tr db)) as [db1 p] eqn:Hw.
  simpl in H1, H2, H3, H4.
  destruct p as [|blk1 off1|]; simpl;
    [split_and!; [done|done|by eapply trie_grows_trans|done]| |
     split_and!; [done|done|by eapply trie_grows_trans|done]].
  destruct (H4 blk1 off1 eq_refl) as (v & -> & -> & Hv & Hp & Hs1).
  destruct (find_entry_kernels_tree alloc (v / BlockAlloc.ENTRIES_PER_BLOCK)
              (v mod BlockAlloc.ENTRIES_PER_BLOCK) db1) as (K1 & K2 & K3 & K4).
  destruct (find_entry_kernels alloc _ _ db1) as [db2 p2]. simpl in K1, K2, K3, K4.
  split_and!.
  - by eapply trie_tree_ext.
  - simpl. lia.
  - simpl. eapply trie_grows_trans; [exact Hg0|]. by eapply trie_grows_trans.
  - simpl. intros blk off ->. destruct (K4 _ _ eq_refl) as [-> ->].
    exists v. split_and!; [done|done|lia| |by apply K3].
    by eapply path_from_grows.
Qed.

Lemma process_snapshot_tree c K snap db db' :
  trie_tree db ->
  m_num_trie_entries db + N.of_nat MAX_KEYLEN < 2 ^ 32 ->
  process_snapshot c K snap db = Some db' ->
  trie_tree db' /\ trie_grows (m_trie db) (m_trie db') /\
  m_num_trie_entries db' <= m_num_trie_entries db + N.of_nat MAX_KEYLEN.
Proof.
  intros Ht Hb H.
  destruct (process_snapshot_cases _ _ _ _ _ H)
    as [[_ ->]|(key & db2 & p & _ & _ & Hlen & Hf & Hp)].
  { split_and!; [done|apply trie_grows_refl|lia]. }
  set (db1 := set_max_keylen _ db) in Hf.
  assert (Ht1 : trie_tree db1) by exact Ht.
  destruct (find_entry_tree key (negb (is_signal c)) db1 Ht1)
    as (H1 & H2 & H3 & H4); [simpl; lia|].
  rewrite Hf in H1, H2, H3, H4. simpl in H1, H2, H3, H4.
  destruct Hp as [[-> ->]|(blk & off & ks & -> & Hu & ->)].
  - split_and!; [exact H1|exact H3|simpl in *; lia].
  - split_and!.
    + eapply trie_tree_ext; [| |exact H1]; [|done].
      intros u b. simpl. by apply next_at_write_same.
    + simpl. eapply trie_grows_trans; [exact H3|]. by apply trie_grows_write_same.
    + simpl in *. lia.
Qed.

Lemma trie_tree_empty db :
  BlockAlloc.m_blocks (m_trie db) = ∅ -> m_num_trie_entries db = 0 -> trie_tree db.
Proof.
  intros He Hc.
  assert (Hz : forall u b, next_at (node_at (m_trie db) u) b = 0).
  { intros u b. unfold node_at, BlockAlloc.read. by rewrite He, lookup_empty. }
  split_and!; [by rewrite Hc|intros u b; by rewrite Hz|intros u1 b1 u2 b2; by rewrite Hz].
Qed.

Lemma trie_tree_new c names i j : trie_tree (AggregateDB_new c names i j).
Proof.
  eapply (trie_tree_ext (set_trie (BlockAlloc.new i) (AggregateDB_new c names i j)));
    [|done|by apply trie_tree_empty].
  intros u b. simpl. by erewrite node_at_get by apply surjective_pairing.
Qed.

Lemma trie_tree_fresh_db : trie_tree fresh_db.
Proof. apply trie_tree_new. Qed.

(** The trie is a tree.  A new database and a cleared one have a tree
    without children, and [process_snapshot] keeps the tree, adding to
    it only, as long as [m_num_trie_entries] with a key's length more
    fits an [uint32_t]. *)
Theorem trie_is_a_tree :
  (forall c names i j, trie_tree (AggregateDB_new c names i j)) /\
  (forall d, trie_tree (clear d)) /\
  (forall c K snap db db',
     trie_tree db ->
     m_num_trie_entries db + N.of_nat MAX_KEYLEN < 2 ^ 32 ->
     process_snapshot c K snap db = Some db' ->
     trie_tree db' /\ trie_grows (m_trie db) (m_trie db')).
Proof.
  split_and!.
  - apply trie_tree_new.
  - intros d. by apply trie_tree_empty.
  - intros c K snap db db' Ht Hb H.
    destruct (process_snapshot_tree _ _ _ _ _ Ht Hb H) as (? & ? & _). by split.
Qed.

Lemma trie_is_a_tree_witness :
  trie_tree ingested_db /\ trie_grows (m_trie fresh_db) (m_trie ingested_db).
Proof.
  destruct trie_is_a_tree as (H1 & _ & H3).
  apply (H3 (host false) [] (sample [7] 10) fresh_db ingested_db).
  - apply H1.
  - reflexivity.
  - vm_compute. reflexivity.
Defined.

(** *** Looking a key up *)

Lemma set_trie_same db : set_trie (m_trie db) db = db.
Proof. by destruct db. Qed.

(** Along a path that is there, the walk of [find_entry] changes
    nothing. *)
Lemma find_entry_walk_existing alloc key : forall u v db,
  path_from (m_trie db) u key = Some v ->
  find_entry_walk alloc key (u / BlockAlloc.ENTRIES_PER_BLOCK)
                  (u mod BlockAlloc.ENTRIES_PER_BLOCK) db
  = (db, BlockAlloc.Ptr (v / BlockAlloc.ENTRIES_PER_BLOCK)
                        (v mod BlockAlloc.ENTRIES_PER_BLOCK)).
Proof.
  induction key as [|b key IH]; intros u v db H; [simpl in *; by simplify_eq|].
  apply path_from_cons in H as (Hne & Hf & H).
  cbn [find_entry_walk]. fold (node_at (m_trie db) u).
  apply N.eqb_neq in Hne. rewrite Hne.
  rewrite (fetchable_Ptr _ _ Hf alloc). rewrite set_trie_same. by apply IH.
Qed.

Lemma find_entry_walk_frame alloc key : forall blk off db,
  exists tr n,
    (find_entry_walk alloc key blk off db).1 = set_trie tr (set_num_trie_entries n db).
Proof.
  induction key as [|b key IH]; intros blk off db; simpl.
  { exists (m_trie db), (m_num_trie_entries db). by destruct db. }
  destruct (next_at _ b =? 0).
  - destruct (BlockAlloc.get _ alloc _) as [tr p]. destruct p as [|blk1 off1|]; simpl.
    + by eexists _, _.
    + destruct (IH blk1 off1 (set_trie tr (set_trie
                  (BlockAlloc.write (m_trie db) blk off
                     (set_next b (wrap32 (wrap64 (m_num_trie_entries db + 1)))
                        (BlockAlloc.read (m_trie db) blk off)))
                  (set_num_trie_entries (wrap64 (m_num_trie_entries db + 1)) db))))
        as (tr' & n' & ->).
      by eexists _, _.
    + by eexists _, _.
  - destruct (BlockAlloc.get _ alloc _) as [tr p]. destruct p as [|blk1 off1|]; simpl.
    + exists tr, (m_num_trie_entries db). by destruct db.
    + destruct (IH blk1 off1 (set_trie tr db)) as (tr' & n' & ->). by eexists _, _.
    + exists tr, (m_num_trie_entries db). by destruct db.
Qed.

Lemma find_entry_Ptr key alloc db db' blk off :
  find_entry key alloc db = (db', BlockAlloc.Ptr blk off) ->
  exists tr d1,
    BlockAlloc.get 0 alloc (m_trie db) = (tr, BlockAlloc.Ptr 0 0) /\
    find_entry_walk alloc key 0 0 (set_trie tr db) = (d1, BlockAlloc.Ptr blk off) /\
    find_entry_kernels alloc blk off d1 = (db', BlockAlloc.Ptr blk off).
Proof.
  unfold find_entry. intros H.
  destruct (BlockAlloc.get 0 alloc (m_trie db)) as [tr p] eqn:Hget.
  destruct p as [|b0 o0|]; try done.
  destruct (get_Ptr_inv _ _ _ _ _ _ Hget) as (-> & -> & _).
  change (0 / BlockAlloc.ENTRIES_PER_BLOCK) with 0 in *.
  change (0 mod BlockAlloc.ENTRIES_PER_BLOCK) with 0 in *.
  destruct (find_entry_walk alloc key 0 0 (set_trie tr db)) as [d1 p] eqn:Hw.
  destruct p as [|b1 o1|]; try done.
  pose proof (find_entry_kernels_tree alloc b1 o1 d1) as (_ & _ & _ & K4).
  rewrite H in K4. destruct (K4 _ _ eq_refl) as [-> ->]. by eexists _, _.
Qed.

Lemma read_write {T} `{DefaultCtor T} (a : BlockAlloc.t T) blk off v :
  is_Some (BlockAlloc.m_blocks a !! blk) ->
  BlockAlloc.read (BlockAlloc.write a blk off v) blk off = v.
Proof.
  intros [b Hb]. unfold BlockAlloc.read, BlockAlloc.write. simpl.
  rewrite lookup_alter, decide_True by done. rewrite Hb. simpl.
  by rewrite lookup_insert_eq.
Qed.

(** Once [find_entry] gave a node its kernels, it gives it none again. *)
Lemma find_entry_kernels_done alloc alloc' blk off db db' blk' off' :
  wrap32 (m_num_kernel_entries db + 1) <> NO_KERNEL ->
  is_Some (BlockAlloc.m_blocks (m_trie db) !! blk) ->
  find_entry_kernels alloc blk off db = (db', BlockAlloc.Ptr blk' off') ->
  find_entry_kernels alloc' blk off db' = (db', BlockAlloc.Ptr blk off).
Proof.
  intros Hk Hs. unfold find_entry_kernels at 1.
  destruct (k_id _ =? NO_KERNEL) eqn:E1.
  - destruct (0 <? length _)%nat eqn:E2.
    + destruct (ensure_kernels _ _ _ _) as [ks p]. destruct p; try done.
      intros [= <- <- <-]. unfold find_entry_kernels. simpl.
      rewrite read_write by done. simpl.
      apply N.eqb_neq in Hk. by rewrite Hk.
    + intros [= <- <- <-]. unfold find_entry_kernels. by rewrite E1, E2.
  - intros [= <- <- <-]. unfold find_entry_kernels. by rewrite E1.
Qed.

(** Looking a key up twice.  In a tree, when [find_entry] answers an
    entry for a key, a second [find_entry] of that key, with or without
    [alloc], answers the same entry and changes nothing. *)
Theorem find_entry_again (key : list N) (alloc alloc' : bool) (db db1 : AggregateDB)
    (blk off : N) :
  trie_tree db ->
  m_num_trie_entries db + N.of_nat (length key) < 2 ^ 32 ->
  m_num_kernel_entries db + 1 < NO_KERNEL ->
  find_entry key alloc db = (db1, BlockAlloc.Ptr blk off) ->
  find_entry key alloc' db1 = (db1, BlockAlloc.Ptr blk off).
Proof.
  intros Ht Hb Hk H.
  destruct (find_entry_Ptr _ _ _ _ _ _ H) as (tr & d1 & Hget & Hw & Hkern).
  assert (Ht0 : trie_tree (set_trie tr db)).
  { eapply trie_tree_ext; [| |exact Ht]; [|done].
    intros u' b'. simpl. by erewrite node_at_get. }
  destruct (get_Ptr_inv _ _ _ _ _ _ Hget) as (_ & _ & _ & Hs0).
  destruct (find_entry_walk_tree alloc key 0 (set_trie tr db) Ht0) as (_ & _ & G1 & W4);
    [done|lia|done|].
  change (0 / BlockAlloc.ENTRIES_PER_BLOCK) with 0 in *.
  change (0 mod BlockAlloc.ENTRIES_PER_BLOCK) with 0 in *.
  rewrite Hw in G1, W4. simpl in G1, W4.
  destruct (W4 blk off eq_refl) as (v & -> & -> & _ & Hp & Hs).
  pose proof (find_entry_kernels_tree alloc (v / BlockAlloc.ENTRIES_PER_BLOCK)
                (v mod BlockAlloc.ENTRIES_PER_BLOCK) d1) as (_ & _ & G2 & _).
  rewrite Hkern in G2. simpl in G2.
  (* the second call *)
  unfold find_entry.
  assert (Hf0 : fetchable (m_trie db1) 0).
  { eapply fetchable_grows; [exact G2|]. eapply fetchable_grows; [exact G1|].
    simpl. by eapply get_Ptr_fetchable. }
  rewrite (fetchable_Ptr _ _ Hf0 alloc').
  change (0 / BlockAlloc.ENTRIES_PER_BLOCK) with 0.
  change (0 mod BlockAlloc.ENTRIES_PER_BLOCK) with 0.
  rewrite set_trie_same.
  pose proof (find_entry_walk_existing alloc' key 0 v db1
                (path_from_grows _ _ _ _ _ G2 Hp)) as Hw2.
  change (0 / BlockAlloc.ENTRIES_PER_BLOCK) with 0 in Hw2.
  change (0 mod BlockAlloc.ENTRIES_PER_BLOCK) with 0 in Hw2.
  rewrite Hw2.
  eapply find_entry_kernels_done; [|exact Hs|exact Hkern].
  destruct (find_entry_walk_frame alloc key 0 0 (set_trie tr db)) as (tr' & n' & Hfr).
  rewrite Hw in Hfr. simpl in Hfr. subst d1. simpl.
  unfold wrap32, NO_KERNEL in *. rewrite N.mod_small; lia.
Qed.

Lemma find_entry_again_witness :
  find_entry [2; 7] false (find_entry [2; 7] true fresh_db).1
  = ((find_entry [2; 7] true fresh_db).1, BlockAlloc.Ptr 0 2).
Proof.
  apply (find_entry_again [2; 7] true false fresh_db).
  - apply trie_tree_fresh_db.
  - reflexivity.
  - reflexivity.
  - vm_compute. reflexivity.
Defined.

(** Different keys, different entries.  In a tree, two calls of
    [find_entry] that answer the same entry were given the same key. *)
Theorem find_entry_distinct_keys (key1 key2 : list N) (alloc1 alloc2 : bool)
    (db db1 db2 : AggregateDB) (blk off : N) :
  trie_tree db ->
  m_num_trie_entries db + N.of_nat (length key1) + N.of_nat (length key2) < 2 ^ 32 ->
  find_entry key1 alloc1 db = (db1, BlockAlloc.Ptr blk off) ->
  find_entry key2 alloc2 db1 = (db2, BlockAlloc.Ptr blk off) ->
  key1 = key2.
Proof.
  intros Ht Hb H1 H2.
  destruct (find_entry_tree key1 alloc1 db Ht) as (Ht1 & Hc1 & _ & P1); [lia|].
  rewrite H1 in Ht1, Hc1, P1. simpl in Ht1, Hc1, P1.
  destruct (P1 _ _ eq_refl) as (v1 & Hb1 & Ho1 & _ & Hp1 & _).
  destruct (find_entry_tree key2 alloc2 db1 Ht1) as (Ht2 & _ & Hg2 & P2); [lia|].
  rewrite H2 in Ht2, Hg2, P2. simpl in Ht2, Hg2, P2.
  destruct (P2 _ _ eq_refl) as (v2 & Hb2 & Ho2 & _ & Hp2 & _).
  assert (v1 = v2) as -> by (apply div_mod_eq; congruence).
  eapply path_from_inj; [exact Ht2| |exact Hp2]. by eapply path_from_grows.
Qed.

Lemma find_entry_distinct_keys_witness :
  (find_entry [2; 8] true (find_entry [2; 7] true fresh_db).1).2 <> BlockAlloc.Ptr 0 2.
Proof.
  intros Heq.
  assert (H : [2; 7] = [2; 8]); [|discriminate].
  apply (find_entry_distinct_keys [2; 7] [2; 8] true true fresh_db
           (find_entry [2; 7] true fresh_db).1
           (find_entry [2; 8] true (find_entry [2; 7] true fresh_db).1).1 0 2).
  - apply trie_tree_fresh_db.
  - reflexivity.
  - vm_compute. reflexivity.
  - rewrite <- Heq. apply surjective_pairing.
Defined.

(** *** What one snapshot changes *)

Lemma count_write_same (tr : BlockAlloc.t TrieNode) blk off v blk' off' :
  count v = count (BlockAlloc.read tr blk off) ->
  count (BlockAlloc.read (BlockAlloc.write tr blk off v) blk' off')
  = count (BlockAlloc.read tr blk' off').
Proof.
  intros Hv. unfold BlockAlloc.read, BlockAlloc.write in *. simpl.
  rewrite lookup_alter. destruct (decide (blk = blk')) as [->|]; [|done].
  destruct (BlockAlloc.m_blocks tr !! blk') as [b|]; simpl in *; [|done].
  rewrite lookup_insert. destruct (decide (off = off')) as [->|]; [|done].
  simpl. exact Hv.
Qed.

Lemma read_write_ne {T} `{DefaultCtor T} (a : BlockAlloc.t T) blk off v blk' off' :
  (blk', off') <> (blk, off) ->
  BlockAlloc.read (BlockAlloc.write a blk off v) blk' off' = BlockAlloc.read a blk' off'.
Proof.
  intros Hne. unfold BlockAlloc.read, BlockAlloc.write. simpl.
  rewrite lookup_alter. destruct (decide (blk = blk')) as [->|]; [|done].
  destruct (BlockAlloc.m_blocks a !! blk') as [b|]; simpl; [|done].
  rewrite lookup_insert_ne; [done|]. congruence.
Qed.

(** The walk keeps every count, and the entry it answers is in a block
    that is allocated. *)
Lemma find_entry_walk_count alloc key : forall blk off db,
  is_Some (BlockAlloc.m_blocks (m_trie db) !! blk) ->
  let r := find_entry_walk alloc key blk off db in
  (forall blk' off', count (BlockAlloc.read (m_trie r.1) blk' off')
                     = count (BlockAlloc.read (m_trie db) blk' off')) /\
  (forall blk' off', r.2 = BlockAlloc.Ptr blk' off' ->
     is_Some (BlockAlloc.m_blocks (m_trie r.1) !! blk')).
Proof.
  induction key as [|b key IH]; intros blk off db Hs; cbv zeta; simpl.
  { split; [done|]. by intros ?? [= <- <-]. }
  set (node := BlockAlloc.read (m_trie db) blk off).
  assert (Hstep : forall db1 id1,
            (forall blk' off', count (BlockAlloc.read (m_trie db1) blk' off')
                               = count (BlockAlloc.read (m_trie db) blk' off')) ->
            let r := match BlockAlloc.get id1 alloc (m_trie db1) with
                     | (tr, BlockAlloc.Ptr blk' off') =>
                         find_entry_walk alloc key blk' off' (set_trie tr db1)
                     | (tr, p) => (set_trie tr db1, p)
                     end in
            (forall blk' off', count (BlockAlloc.read (m_trie r.1) blk' off')
                               = count (BlockAlloc.read (m_trie db) blk' off')) /\
            (forall blk' off', r.2 = BlockAlloc.Ptr blk' off' ->
               is_Some (BlockAlloc.m_blocks (m_trie r.1) !! blk'))).
  { intros db1 id1 Hc. cbv zeta.
    destruct (BlockAlloc.get id1 alloc (m_trie db1)) as [tr p] eqn:Hget.
    assert (Hrd : forall blk' off', count (BlockAlloc.read tr blk' off')
                                    = count (BlockAlloc.read (m_trie db) blk' off')).
    { intros blk' off'. rewrite (get_read _ _ _ _ _ blk' off' Hget). apply Hc. }
    destruct p as [|blk1 off1|]; simpl; try done.
    destruct (get_Ptr_inv _ _ _ _ _ _ Hget) as (_ & _ & _ & Hs1).
    destruct (IH blk1 off1 (set_trie tr db1) Hs1) as (H1 & H2).
    split; [|done]. intros blk' off'. rewrite H1. apply Hrd. }
  destruct (next_at node b =? 0).
  - apply Hstep. intros blk' off'. simpl. by apply count_write_same.
  - by apply Hstep.
Qed.

Lemma find_entry_kernels_count alloc blk off db :
  let r := find_entry_kernels alloc blk off db in
  (forall blk' off', count (BlockAlloc.read (m_trie r.1) blk' off')
                     = count (BlockAlloc.read (m_trie db) blk' off')) /\
  same_blocks (m_trie r.1) (m_trie db) /\
  m_num_dropped r.1 = m_num_dropped db.
Proof.
  cbv zeta. unfold find_entry_kernels.
  destruct (k_id _ =? NO_KERNEL); [|by split_and!].
  destruct (0 <? length _)%nat; [|by split_and!].
  destruct (ensure_kernels _ _ _ _) as [ks p].
  destruct p as [|blk1 off1|]; simpl; [by split_and!| |by split_and!].
  split_and!; [|apply write_same_blocks|done].
  intros blk' off'. by apply count_write_same.
Qed.

Lemma find_entry_walk_dropped alloc key blk off db :
  m_num_dropped (find_entry_walk alloc key blk off db).1 = m_num_dropped db.
Proof.
  destruct (find_entry_walk_frame alloc key blk off db) as (tr & n & ->). done.
Qed.

Lemma find_entry_count key alloc db :
  let r := find_entry key alloc db in
  (forall blk' off', count (BlockAlloc.read (m_trie r.1) blk' off')
                     = count (BlockAlloc.read (m_trie db) blk' off')) /\
  m_num_dropped r.1 = m_num_dropped db /\
  (forall blk' off', r.2 = BlockAlloc.Ptr blk' off' ->
     is_Some (BlockAlloc.m_blocks (m_trie r.1) !! blk')).
Proof.
  cbv zeta. unfold find_entry.
  destruct (BlockAlloc.get 0 alloc (m_trie db)) as [tr p] eqn:Hget.
  assert (Hrd : forall blk' off', count (BlockAlloc.read tr blk' off')
                                  = count (BlockAlloc.read (m_trie db) blk' off')).
  { intros blk' off'. by rewrite (get_read _ _ _ _ _ blk' off' Hget). }
  destruct p as [|blk off|]; simpl; [done| |done].
  destruct (get_Ptr_inv _ _ _ _ _ _ Hget) as (_ & _ & _ & Hs0).
  destruct (find_entry_walk_count alloc key blk off (set_trie tr db) Hs0) as (H1 & H2).
  pose proof (find_entry_walk_dropped alloc key blk off (set_trie tr db)) as H3.
  destruct (find_entry_walk alloc key blk off (set_trie tr db)) as [db1 p].
  simpl in H1, H2, H3.
  assert (Hc1 : forall blk' off', count (BlockAlloc.read (m_trie db1) blk' off')
                                  = count (BlockAlloc.read (m_trie db) blk' off')).
  { intros blk' off'. rewrite H1. apply Hrd. }
  destruct p as [|blk1 off1|]; simpl; [done| |done].
  destruct (find_entry_kernels_count alloc blk1 off1 db1) as (K1 & K2 & K3).
  pose proof (find_entry_kernels_tree alloc blk1 off1 db1) as (_ & _ & _ & K4).
  destruct (find_entry_kernels alloc blk1 off1 db1) as [db2 p2].
  simpl in K1, K2, K3, K4. split_and!.
  - intros blk' off'. simpl. rewrite K1. apply Hc1.
  - simpl in *. congruence.
  - simpl. intros blk' off' ->. destruct (K4 _ _ eq_refl) as [-> _].
    eapply same_blocks_is_Some; [|by apply (H2 blk1 off1)].
    destruct K2 as [K2 K2']. by split.
Qed.

(** One snapshot, one count.  A snapshot that is not empty and that
    [process_snapshot] ingests is either dropped, which increments
    [m_num_dropped] and changes no count, or counted, which increments
    the count of one trie entry and changes neither another count nor
    [m_num_dropped]. *)
Theorem process_snapshot_counts_once (c : Caliper) (K : list (option N))
    (snap : SnapshotRecord) (db db' : AggregateDB) :
  (0 < length (node_entries snap) + length (immediate snap))%nat ->
  process_snapshot c K snap db = Some db' ->
  (m_num_dropped db' = wrap64 (m_num_dropped db + 1) /\
   forall blk off, count (BlockAlloc.read (m_trie db') blk off)
                   = count (BlockAlloc.read (m_trie db) blk off)) \/
  (m_num_dropped db' = m_num_dropped db /\
   exists blk off,
     count (BlockAlloc.read (m_trie db') blk off)
       = wrap32 (count (BlockAlloc.read (m_trie db) blk off) + 1) /\
     forall blk' off', (blk', off') <> (blk, off) ->
       count (BlockAlloc.read (m_trie db') blk' off')
       = count (BlockAlloc.read (m_trie db) blk' off')).
Proof.
  intros Hne H.
  destruct (process_snapshot_cases _ _ _ _ _ H)
    as [[E _]|(key & db2 & p & _ & _ & _ & Hf & Hp)]; [lia|].
  set (db1 := set_max_keylen _ db) in Hf.
  destruct (find_entry_count key (negb (is_signal c)) db1) as (H1 & H2 & H3).
  rewrite Hf in H1, H2, H3. simpl in H1, H2, H3.
  destruct Hp as [[-> ->]|(blk & off & ks & -> & Hu & ->)].
  - left. simpl. split; [by rewrite H2|exact H1].
  - right. simpl. split; [exact H2|].
    exists blk, off. split.
    + rewrite read_write by (by apply (H3 blk off)). simpl. by rewrite H1.
    + intros blk' off' Hd. rewrite read_write_ne by done. apply H1.
Qed.

Lemma process_snapshot_counts_once_witness :
  count (BlockAlloc.read (m_trie ingested_db) 0 2) = 1 /\
  m_num_dropped ingested_db = 0.
Proof.
  destruct (process_snapshot_counts_once (host false) [] (sample [7] 10)
              fresh_db ingested_db) as [[Hd _]|[Hd _]].
  - simpl. lia.
  - vm_compute. reflexivity.
  - vm_compute in Hd. discriminate.
  - split; [vm_compute; reflexivity|exact Hd].
Defined.

(** *** Snapshots in signal context *)

Lemma get_false_same_blocks {T} id (a0 a a' : BlockAlloc.t T) p :
  BlockAlloc.get id false a = (a', p) -> same_blocks a a0 -> same_blocks a' a0.
Proof.
  intros H. pose proof (get_no_alloc id a) as Hg. rewrite H in Hg. simpl in Hg. by subst.
Qed.

Lemma write_same_blocks_as {T} (a0 a : BlockAlloc.t T) blk off v :
  same_blocks a a0 -> same_blocks (BlockAlloc.write a blk off v) a0.
Proof. intros H. eapply same_blocks_trans; [apply write_same_blocks|exact H]. Qed.

(** In signal context nothing is allocated.  A snapshot that arrives
    while [is_signal()] holds creates no database and allocates no
    block: the live databases, the list and the thread slots are the
    same after [process_snapshot_cb], and every database has the same
    trie and kernel blocks as before. *)
Theorem process_snapshot_cb_in_signal (t : N) (c : Caliper) (pf : Platform)
    (snap : SnapshotRecord) (s s' : Service) :
  is_signal c = true ->
  process_snapshot_cb t c pf snap s = Some s' ->
  dom (dbs s') = dom (dbs s) /\ s_list s' = s_list s /\ tls s' = tls s /\
  forall a d', dbs s' !! a = Some d' ->
    exists d, dbs s !! a = Some d /\
      same_blocks (m_trie d') (m_trie d) /\ same_blocks (m_kernels d') (m_kernels d).
Proof.
  intros Hsig H. unfold process_snapshot_cb, acquire in H. rewrite Hsig in H. simpl in H.
  assert (Hsame : forall a d', dbs s !! a = Some d' ->
            exists d, dbs s !! a = Some d /\
              same_blocks (m_trie d') (m_trie d) /\
              same_blocks (m_kernels d') (m_kernels d)).
  { intros a d' Hd. exists d'. split_and!; [done|apply same_blocks_refl..]. }
  destruct (tls s !! t) as [a|] eqn:Ht; cbn [mbind option_bind] in H;
    [|by simplify_eq].
  destruct (dbs s !! a) as [d|] eqn:Hd; cbn [mbind option_bind] in H; [|done].
  destruct (m_stopped d); [by simplify_eq|].
  destruct (process_snapshot c _ snap d) as [d1|] eqn:Hp; cbn [mbind option_bind] in H;
    [|done].
  simplify_eq. simpl. split_and!; try done.
  - apply dom_insert_lookup_L. by eexists.
  - intros x d' Hx. rewrite lookup_insert in Hx. case_decide; simplify_eq; [|by apply Hsame].
    exists d. split; [done|].
    assert (Hal : negb (is_signal c) = false) by (by rewrite Hsig).
    exact (process_snapshot_inv false (fun tr => same_blocks tr (m_trie d))
             (fun ks => same_blocks ks (m_kernels d))
             (fun id a a' p => get_false_same_blocks id _ a a' p)
             (fun a blk off v => write_same_blocks_as _ a blk off v)
             (fun id a a' p => get_false_same_blocks id _ a a' p)
             (fun a blk off v => write_same_blocks_as _ a blk off v)
             _ _ _ _ _ Hal (same_blocks_refl _) (same_blocks_refl _) Hp).
Qed.

Lemma process_snapshot_cb_in_signal_witness :
  exists s',
    process_snapshot_cb 0 (host true) (platform true) (sample [8] 10) ingested_service
      = Some s' /\
    dom (dbs s') = dom (dbs ingested_service).
Proof.
  destruct (process_snapshot_cb 0 (host true) (platform true) (sample [8] 10)
              ingested_service) as [s'|] eqn:H; [|vm_compute in H; discriminate].
  exists s'. split; [reflexivity|].
  exact (proj1 (process_snapshot_cb_in_signal 0 (host true) (platform true)
                  (sample [8] 10) ingested_service s' eq_refl H)).
Defined.

(** ** The key builder: keys that fit *)

Lemma vlenc_bytes_length more : forall v,
  (1 <= length (vlenc_bytes more v) <= S more)%nat.
Proof.
  induction more as [|more IH]; intros v; cbn [vlenc_bytes]; [simpl; lia|].
  destruct (0x7F <? v); cbn [length]; [|lia]. specialize (IH (N.shiftr v 7)). lia.
Qed.

Lemma vlenc_u64_length v : (1 <= length (vlenc_u64 v) <= 10)%nat.
Proof. apply vlenc_bytes_length. Qed.

Lemma vlenc_u64_small v : v <= 0x7F -> vlenc_u64 v = [v].
Proof.
  intros Hv. unfold vlenc_u64.
  assert (Hw : wrap64 v = v) by (apply N.mod_small; lia).
  rewrite Hw. cbn [vlenc_bytes]. apply N.ltb_ge in Hv. by rewrite Hv.
Qed.

Lemma MAX_KEYLEN_128 : MAX_KEYLEN = 128%nat.
Proof. reflexivity. Qed.

Lemma encode_node_key_length ids : forall node_key,
  (length node_key < MAX_KEYLEN)%nat ->
  (length (encode_node_key ids node_key) < MAX_KEYLEN)%nat.
Proof.
  induction ids as [|id ids IH]; intros node_key Hl; cbn [encode_node_key]; [done|].
  destruct (length node_key + 10 <? MAX_KEYLEN)%nat eqn:E; [|done].
  apply Nat.ltb_lt in E. apply IH. rewrite length_app.
  pose proof (vlenc_u64_length id). lia.
Qed.

Lemma imm_scan_fits node_key_len k attr_k : forall imms st st',
  imm_fits node_key_len st ->
  imm_scan node_key_len k attr_k imms st = Some st' ->
  imm_fits node_key_len st'.
Proof.
  induction imms as [|e imms IH]; intros st st' Hst H; cbn [imm_scan] in H;
    [by simplify_eq|].
  destruct (bool_decide _); [|by eapply IH].
  destruct (int_shl1 k) as [bit|]; cbn [mbind option_bind] in H; [|done].
  destruct (imm_too_long _ _ _ _) eqn:E.
  - injection H as <-. exact Hst.
  - eapply IH; [|exact H]. right. cbn [imm_key_len imm_key_bitfield].
    unfold imm_too_long in E. apply Nat.leb_gt in E. lia.
Qed.

Lemma imm_loop_fits node_key_len imms : forall K k st st',
  imm_fits node_key_len st ->
  imm_loop node_key_len k K imms st = Some st' ->
  imm_fits node_key_len st'.
Proof.
  induction K as [|attr_k K IH]; intros k st st' Hst H; cbn [imm_loop] in H;
    [by simplify_eq|].
  destruct (imm_scan _ k attr_k imms st) as [st1|] eqn:E; cbn [mbind option_bind] in H;
    [|done].
  eapply IH; [|exact H]. by eapply imm_scan_fits.
Qed.

Lemma key_node_ids_length c ka nodes : (length (key_node_ids c ka nodes) <= 1)%nat.
Proof.
  unfold key_node_ids. destruct (0 <? _)%nat; [|cbn [length]; lia].
  destruct (make_tree_entry c _); cbn [length]; lia.
Qed.

Lemma nodeid_vec_length c K snap :
  (length (nodeid_vec c K snap) <= length (node_entries snap))%nat /\
  ((exists id, Some id ∈ K) -> (length (nodeid_vec c K snap) <= 1)%nat).
Proof.
  unfold nodeid_vec.
  pose proof (key_node_ids_length c (omap id K) (node_entries snap)) as Hk.
  destruct (Nat.ltb_spec 0 (length (omap id K))) as [E1|E1]; cbn [andb].
  - destruct (Nat.ltb_spec 0 (length (node_entries snap))) as [E2|E2].
    + split; [lia|intros _; lia].
    + destruct (node_entries snap) as [|n l]; [|cbn [length] in E2; lia].
      split; [|intros _]; vm_compute; lia.
  - split.
    + pose proof (std_sort_sorted (map node_id (node_entries snap))) as [_ Hp].
      rewrite Hp, length_map. done.
    + intros [x Hx].
      assert (Hin : x ∈ omap id K) by (apply list_elem_of_omap; by exists (Some x)).
      destruct (omap id K); [by apply elem_of_nil in Hin|cbn [length] in E1; lia].
Qed.

(** Keys that fit.  When the snapshot has fewer than 64 nodes, or a key
    attribute is known (the node portion then holds one node at most),
    the first entry of the key takes one byte and the key of the
    snapshot, if it is defined, has at most [MAX_KEYLEN] bytes: no byte
    of it is stored past the end of [key]. *)
Theorem snapshot_key_fits (c : Caliper) (K : list (option N)) (snap : SnapshotRecord)
    (key : list N) :
  (length (node_entries snap) < 64)%nat \/ (exists id, Some id ∈ K) ->
  snapshot_key c K snap = Some key ->
  (1 <= length key <= MAX_KEYLEN)%nat.
Proof.
  intros Hn Hkey.
  assert (Hlen : (length (nodeid_vec c K snap) < 64)%nat).
  { destruct (nodeid_vec_length c K snap) as [H1 H2].
    destruct Hn as [Hn|Hn]; [lia|]. specialize (H2 Hn). lia. }
  unfold snapshot_key in Hkey.
  destruct (snapshot_imm_key c K snap) as [st|] eqn:Est; cbn [mbind option_bind] in Hkey;
    [|done].
  injection Hkey as <-.
  set (ids := nodeid_vec c K snap) in *.
  set (node_key := encode_node_key ids []).
  assert (Hnk : (length node_key < MAX_KEYLEN)%nat).
  { apply encode_node_key_length. rewrite MAX_KEYLEN_128. cbn [length]. lia. }
  assert (Hst : imm_fits (length node_key) st).
  { unfold snapshot_imm_key in Est. eapply imm_loop_fits; [|exact Est]. by left. }
  assert (Htoc : forall x, x <= 1 ->
            length (vlenc_u64 (N.of_nat (length ids) * 2 + x)) = 1%nat).
  { intros x Hx. rewrite vlenc_u64_small; [done|lia]. }
  unfold assemble_key.
  destruct (imm_key_bitfield st =? 0) eqn:E; cbn [negb].
  - rewrite !length_app, Htoc by lia. cbn [length]. lia.
  - apply N.eqb_neq in E. destruct Hst as [[Hz _]|Hst]; [done|].
    rewrite !length_app, Htoc by lia. rewrite length_take. lia.
Qed.

Lemma snapshot_key_fits_witness :
  exists key,
    snapshot_key (host false) [] (sample [7; 3; 5] 10) = Some key /\
    (1 <= length key <= MAX_KEYLEN)%nat.
Proof.
  eexists. split; [vm_compute; reflexivity|].
  apply (snapshot_key_fits (host false) [] (sample [7; 3; 5] 10)).
  - left. vm_compute. lia.
  - vm_compute. reflexivity.
Defined.

(** ** Invariants of the registry *)

(** A property of databases that the stores of the callbacks keep is
    kept, for every live database, by every callback. *)
Section db_invariant.
Variable names : list string.
Variable I : AggregateDB -> Prop.
Hypothesis I_new : forall c i j, I (AggregateDB_new c names i j).
Hypothesis I_prev : forall p d, I d -> I (set_prev_db p d).
Hypothesis I_next : forall p d, I d -> I (set_next_db p d).
Hypothesis I_retired : forall b d, I d -> I (set_retired b d).
Hypothesis I_flushed : forall d, I d -> I (flushed_db d).
Hypothesis I_ingest : forall c K snap d d',
  I d -> process_snapshot c K snap d = Some d' -> I d'.

Lemma store_db_all a f h h' :
  (forall d, I d -> I (f d)) ->
  (forall x d, h !! x = Some d -> I d) ->
  store_db a f h = Some h' ->
  forall x d, h' !! x = Some d -> I d.
Proof.
  intros Hf Hh H x d Hx. unfold store_db in H.
  destruct (h !! a) as [da|] eqn:Ha; cbn [mbind option_bind] in H; [|done].
  simplify_eq. rewrite lookup_insert in Hx. case_decide; simplify_eq; eauto.
Qed.

Lemma acquire_all t c alloc pf s s' r :
  all_dbs names I s -> acquire t c alloc pf s = Some (s', r) -> all_dbs names I s'.
Proof.
  intros [Hn Hr] H. unfold acquire in H.
  destruct (tls s !! t); [by simplify_eq|].
  destruct alloc; [|by simplify_eq].
  rewrite Hn in H.
  destruct (setspecific_ok pf).
  - match type of H with (?m ≫= _) = _ => destruct m as [h|] eqn:Hh end;
      cbn [mbind option_bind] in H; [|done].
    simplify_eq. split; [done|]. intros x d Hx. simpl in Hx.
    rewrite lookup_insert in Hx. case_decide; simplify_eq.
    + apply I_next, I_new.
    + destruct (s_list s); simplify_eq; [|by eapply Hr].
      eapply store_db_all; [|exact Hr|exact Hh|exact Hx]. apply I_prev.
  - simplify_eq. split; [done|]. intros x d Hx. simpl in Hx.
    rewrite lookup_insert in Hx. case_decide; simplify_eq; [|by eapply Hr].
    apply I_new.
Qed.

Lemma unlink_all d h h' :
  (forall x d, h !! x = Some d -> I d) ->
  unlink d h = Some h' ->
  forall x d, h' !! x = Some d -> I d.
Proof.
  intros Hh H. unfold unlink in H.
  match type of H with (?m ≫= _) = _ => destruct m as [h1|] eqn:Hh1 end;
    cbn [mbind option_bind] in H; [|done].
  assert (H1 : forall x d, h1 !! x = Some d -> I d).
  { destruct (m_next d); simplify_eq; [|done].
    eapply store_db_all; [|exact Hh|exact Hh1]. apply I_prev. }
  destruct (m_prev d); simplify_eq; [|done].
  eapply store_db_all; [|exact H1|exact H]. apply I_next.
Qed.

Lemma flush_db_all depth a s s' next recs :
  all_dbs names I s -> flush_db depth a s = Some (s', next, recs) -> all_dbs names I s'.
Proof.
  intros [Hn Hr] H. unfold flush_db in H.
  destruct (dbs s !! a) as [d|] eqn:Hd; cbn [mbind option_bind] in H; [|done].
  destruct (flush depth _ _) as [rs|]; cbn [mbind option_bind] in H; [|done].
  assert (H2 : forall x dx, <[a := flushed_db d]> (dbs s) !! x = Some dx -> I dx).
  { intros x dx Hx. rewrite lookup_insert in Hx. case_decide; simplify_eq; [|by eapply Hr].
    apply I_flushed. by eapply Hr. }
  change (set_stopped false (clear (set_stopped true d))) with (flushed_db d) in H.
  destruct (m_retired (flushed_db d)).
  - match type of H with (?m ≫= _) = _ => destruct m as [h|] eqn:Hh end;
      cbn [mbind option_bind] in H; [|done].
    simplify_eq. split; [done|]. intros x dx Hx. simpl in Hx.
    apply lookup_delete_Some in Hx as [_ Hx].
    exact (unlink_all _ _ _ H2 Hh x dx Hx).
  - simplify_eq. split; [done|exact H2].
Qed.

Lemma flush_loop_all depth : forall steps db s r,
  all_dbs names I s -> flush_loop steps depth db s = Some r -> all_dbs names I (fl_state r).
Proof.
  induction steps as [|steps IH]; intros db s r Hr H; destruct db as [a|]; simpl in H;
    try done; try by simplify_eq.
  destruct (flush_db depth a s) as [[[s1 next] recs]|] eqn:Hf;
    cbn [mbind option_bind] in H; [|done].
  destruct (flush_loop steps depth next s1) as [r1|] eqn:Hl;
    cbn [mbind option_bind] in H; [|done].
  simplify_eq. simpl. eapply IH; [|exact Hl]. by eapply flush_db_all.
Qed.

Lemma handle_all ev s s' : all_dbs names I s -> handle ev s = Some s' -> all_dbs names I s'.
Proof.
  intros Hr H. destruct ev as [t c pf snap|t c pf|name id|t|steps depth]; simpl in H.
  - unfold process_snapshot_cb in H.
    destruct (acquire t c _ pf s) as [[s1 db]|] eqn:Ha; cbn [mbind option_bind] in H;
      [|done].
    pose proof (acquire_all _ _ _ _ _ _ _ Hr Ha) as [Hn1 Hr1].
    destruct db as [a|]; [|by simplify_eq].
    destruct (dbs s1 !! a) as [d|] eqn:Hd; cbn [mbind option_bind] in H; [|done].
    destruct (m_stopped d); [by simplify_eq|].
    destruct (process_snapshot _ _ _ d) as [d'|] eqn:Hp; cbn [mbind option_bind] in H;
      [|done].
    simplify_eq. split; [done|]. intros x dx Hx. simpl in Hx.
    rewrite lookup_insert in Hx. case_decide; simplify_eq; [|by eapply Hr1].
    eapply I_ingest; [|exact Hp]. by eapply Hr1.
  - unfold post_init_cb in H.
    destruct (acquire t c true pf s) as [[s1 db]|] eqn:Ha; cbn [mbind option_bind] in H;
      [|done].
    simplify_eq. exact (acquire_all _ _ _ _ _ _ _ Hr Ha).
  - simplify_eq. unfold create_attribute_cb. by repeat case_match.
  - unfold thread_exit, retire in H. destruct (tls s !! t) as [a|]; [|by simplify_eq].
    match type of H with (?m ≫= _) = _ => destruct m as [h|] eqn:Hh end;
      cbn [mbind option_bind] in H; [|done].
    simplify_eq. destruct Hr as [Hn Hr]. split; [done|].
    intros x dx Hx. simpl in Hx.
    eapply store_db_all; [|exact Hr|exact Hh|exact Hx]. apply I_retired.
  - destruct (flush_cb steps depth s) as [r|] eqn:Hf; [|done].
    simpl in H. apply (inj Some) in H. subst s'.
    unfold flush_cb in Hf. by eapply flush_loop_all.
Qed.

Lemma run_all evs : forall s s', all_dbs names I s -> run evs s = Some s' -> all_dbs names I s'.
Proof.
  induction evs as [|ev evs IH]; intros s s' Hr H; simpl in H; [by simplify_eq|].
  destruct (handle ev s) as [s1|] eqn:Hh; cbn [mbind option_bind] in H; [|done].
  eapply IH; [|exact H]. by eapply handle_all.
Qed.

End db_invariant.

(** *** The key attribute ids *)

Lemma acquire_keys t c alloc pf s s' r :
  acquire t c alloc pf s = Some (s', r) ->
  s_key_attribute_ids s' = s_key_attribute_ids s /\
  s_key_attribute_names s' = s_key_attribute_names s.
Proof.
  unfold acquire. intros H.
  destruct (tls s !! t); [by simplify_eq|].
  destruct alloc; [|by simplify_eq].
  destruct (setspecific_ok pf); [|by simplify_eq].
  match type of H with (?m ≫= _) = _ => destruct m as [h|] end;
    cbn [mbind option_bind] in H; [|done].
  by simplify_eq.
Qed.

Lemma flush_db_keys depth a s s' next recs :
  flush_db depth a s = Some (s', next, recs) ->
  s_key_attribute_ids s' = s_key_attribute_ids s /\
  s_key_attribute_names s' = s_key_attribute_names s.
Proof.
  unfold flush_db. intros H.
  destruct (dbs s !! a) as [d|]; cbn [mbind option_bind] in H; [|done].
  destruct (flush depth _ _) as [rs|]; cbn [mbind option_bind] in H; [|done].
  change (set_stopped false (clear (set_stopped true d))) with (flushed_db d) in H.
  destruct (m_retired (flushed_db d)); [|by simplify_eq].
  match type of H with (?m ≫= _) = _ => destruct m as [h|] end;
    cbn [mbind option_bind] in H; [|done].
  by simplify_eq.
Qed.

Lemma flush_loop_keys depth : forall steps db s r,
  flush_loop steps depth db s = Some r ->
  s_key_attribute_ids (fl_state r) = s_key_attribute_ids s /\
  s_key_attribute_names (fl_state r) = s_key_attribute_names s.
Proof.
  induction steps as [|steps IH]; intros db s r H; destruct db as [a|]; simpl in H;
    try done; try by simplify_eq.
  destruct (flush_db depth a s) as [[[s1 next] recs]|] eqn:Hf;
    cbn [mbind option_bind] in H; [|done].
  destruct (flush_loop steps depth next s1) as [r1|] eqn:Hl;
    cbn [mbind option_bind] in H; [|done].
  simplify_eq. simpl.
  destruct (IH _ _ _ Hl) as [-> ->]. by eapply flush_db_keys.
Qed.

(** What a callback makes of the key attribute ids: the names stay, the
    id vector keeps its size, and an id that is resolved stays
    resolved. *)
Lemma handle_keys ev s s' :
  ids_sized s -> handle ev s = Some s' ->
  s_key_attribute_names s' = s_key_attribute_names s /\
  ids_sized s' /\
  forall i, resolved s i -> resolved s' i.
Proof.
  intros Hsz H. unfold ids_sized, resolved in *.
  destruct ev as [t c pf snap|t c pf|name id|t|steps depth]; simpl in H.
  - unfold process_snapshot_cb in H.
    destruct (acquire t c _ pf s) as [[s1 db]|] eqn:Ha; cbn [mbind option_bind] in H;
      [|done].
    destruct (acquire_keys _ _ _ _ _ _ _ Ha) as [Hi Hn].
    assert (Hs' : s_key_attribute_ids s' = s_key_attribute_ids s /\
                  s_key_attribute_names s' = s_key_attribute_names s).
    { destruct db as [a|]; [|by simplify_eq].
      destruct (dbs s1 !! a) as [d|]; cbn [mbind option_bind] in H; [|done].
      destruct (m_stopped d); [by simplify_eq|].
      destruct (process_snapshot _ _ _ d) as [d'|]; cbn [mbind option_bind] in H;
        [|done].
      by simplify_eq. }
    destruct Hs' as [-> ->]. done.
  - unfold post_init_cb in H.
    destruct (acquire t c true pf s) as [[s1 db]|] eqn:Ha; cbn [mbind option_bind] in H;
      [|done].
    destruct (acquire_keys _ _ _ _ _ _ _ Ha) as [Hi Hn].
    simplify_eq. simpl. rewrite Hi, Hn. split_and!; [done| |].
    + rewrite length_zip_with. lia.
    + intros i [x Hx]. rewrite lookup_zip_with.
      destruct (lookup_lt_is_Some_2 (s_key_attribute_names s) i) as [name Hname].
      { rewrite <- Hsz. by eapply lookup_lt_Some. }
      rewrite Hname, Hx. simpl. destruct (get_attribute c name); by eexists.
  - simplify_eq. unfold create_attribute_cb.
    destruct (list_find _ _) as [[i0 n0]|] eqn:Hfind; [|done].
    simpl. split_and!; [done|by rewrite length_insert|].
    intros i [x Hx]. destruct (decide (i0 = i)) as [->|Hne].
    + exists id. apply list_lookup_insert_eq. by eapply lookup_lt_Some.
    + exists x. by rewrite list_lookup_insert_ne.
  - unfold thread_exit, retire in H. destruct (tls s !! t) as [a|]; [|by simplify_eq].
    match type of H with (?m ≫= _) = _ => destruct m as [h|] end;
      cbn [mbind option_bind] in H; [|done].
    by simplify_eq.
  - destruct (flush_cb steps depth s) as [r|] eqn:Hf; [|done].
    simpl in H. apply (inj Some) in H. subst s'.
    destruct (flush_loop_keys _ _ _ _ _ Hf) as [-> ->]. done.
Qed.

(** The key attribute ids.  The id vector starts with one unresolved
    entry for each configured name and the callbacks keep that size, so
    [s_key_attribute_ids[k]] is inside the vector for every index of a
    name; an id that is resolved stays resolved, whatever callbacks run;
    and [create_attribute_cb] resolves the first entry that has the name
    of the attribute. *)
Theorem key_attribute_ids_kept :
  (forall key_names aggr_names, ids_sized (init_static_data key_names aggr_names)) /\
  (forall evs s s',
     ids_sized s -> run evs s = Some s' ->
     s_key_attribute_names s' = s_key_attribute_names s /\
     ids_sized s' /\
     forall i, resolved s i -> resolved s' i) /\
  (forall name id s i,
     ids_sized s ->
     s_key_attribute_names s !! i = Some name ->
     (forall j, (j < i)%nat -> s_key_attribute_names s !! j <> Some name) ->
     s_key_attribute_ids (create_attribute_cb name id s) !! i = Some (Some id)).
Proof.
  split_and!.
  - intros key_names aggr_names. unfold ids_sized. simpl. by rewrite length_replicate.
  - induction evs as [|ev evs IH]; intros s s' Hsz H; simpl in H; [by simplify_eq|].
    destruct (handle ev s) as [s1|] eqn:Hh; cbn [mbind option_bind] in H; [|done].
    destruct (handle_keys _ _ _ Hsz Hh) as (Hn1 & Hsz1 & Hr1).
    destruct (IH _ _ Hsz1 H) as (Hn2 & Hsz2 & Hr2).
    split_and!; [by rewrite Hn2|done|]. intros i Hi. by apply Hr2, Hr1.
  - intros name id s i Hsz Hi Hfirst. unfold create_attribute_cb.
    destruct (list_find _ _) as [[i0 n0]|] eqn:Hfind.
    + apply list_find_Some in Hfind as (Hi0 & -> & Hmin).
      assert (i0 = i) as ->.
      { destruct (Nat.lt_trichotomy i0 i) as [Hlt|[->|Hgt]]; [|done|].
        - by destruct (Hfirst i0 Hlt).
        - by destruct (Hmin i name Hi Hgt). }
      simpl. apply list_lookup_insert_eq. rewrite Hsz. by eapply lookup_lt_Some.
    + apply list_find_None in Hfind. exfalso.
      eapply Forall_lookup_1 in Hfind; [|exact Hi]. by apply Hfind.
Qed.

Lemma key_attribute_ids_kept_witness :
  resolved (create_attribute_cb "rank" 200 (init_static_data ["t"; "rank"]%string [])) 1.
Proof.
  destruct key_attribute_ids_kept as (H1 & _ & H3).
  exists 200. apply (H3 "rank"%string 200 (init_static_data ["t"; "rank"]%string []) 1%nat).
  - apply H1.
  - reflexivity.
  - intros j Hj. assert (j = 0%nat) as -> by lia. simpl. discriminate.
Defined.

(** *** The databases of the states that are reached *)

Lemma find_entry_kernels_aggr alloc blk off db :
  m_aggr_attributes (find_entry_kernels alloc blk off db).1 = m_aggr_attributes db.
Proof.
  unfold find_entry_kernels.
  destruct (k_id _ =? NO_KERNEL); [|done].
  destruct (0 <? length _)%nat; [|done].
  destruct (ensure_kernels _ _ _ _) as [ks p]. by destruct p.
Qed.

Lemma find_entry_aggr key alloc db :
  m_aggr_attributes (find_entry key alloc db).1 = m_aggr_attributes db.
Proof.
  unfold find_entry.
  destruct (BlockAlloc.get 0 alloc (m_trie db)) as [tr p]. destruct p; try done.
  destruct (find_entry_walk_frame alloc key block off (set_trie tr db)) as (tr' & n & Hfr).
  destruct (find_entry_walk alloc key block off (set_trie tr db)) as [d1 p].
  simpl in Hfr. subst d1. destruct p; try done.
  by rewrite find_entry_kernels_aggr.
Qed.

Lemma process_snapshot_aggr c K snap db db' :
  process_snapshot c K snap db = Some db' ->
  m_aggr_attributes db' = m_aggr_attributes db.
Proof.
  intros H.
  destruct (process_snapshot_cases _ _ _ _ _ H)
    as [[_ ->]|(key & db2 & p & _ & _ & _ & Hf & Hp)]; [done|].
  pose proof (find_entry_aggr key (negb (is_signal c))
                (set_max_keylen (N.max (N.of_nat (length key)) (m_max_keylen db)) db))
    as Ha.
  rewrite Hf in Ha. simpl in Ha.
  by destruct Hp as [[-> ->]|(blk & off & ks & -> & Hu & ->)].
Qed.

(** The databases of a state the service reaches.  Every live database
    has one aggregated attribute for each configured name, the number
    of entries of [s_stats_attributes], so the statistics loop indexes
    that vector inside its bounds; and every trie entry whose [k_id] is
    set has a kernel slot that [get] fetches for each aggregated
    attribute, so the statistics loop of a flush does not stop early on
    it. *)
Theorem reachable_databases_ready (key_names aggr_names : list string)
    (evs : list Event) (s : Service) (a : N) (d : AggregateDB) :
  run evs (init_static_data key_names aggr_names) = Some s ->
  dbs s !! a = Some d ->
  s_aggr_attribute_names s = aggr_names /\
  length (m_aggr_attributes d) = length aggr_names /\
  forall blk off i,
    k_id (BlockAlloc.read (m_trie d) blk off) <> NO_KERNEL ->
    (i < length aggr_names)%nat ->
    exists blk' off',
      kernel_slot (m_kernels d) (k_id (BlockAlloc.read (m_trie d) blk off)) i
      = BlockAlloc.Ptr blk' off'.
Proof.
  intros Hrun Hd.
  assert (Hcfg : all_dbs aggr_names
                   (fun d => length (m_aggr_attributes d) = length aggr_names) s).
  { apply (run_all aggr_names
             (fun d => length (m_aggr_attributes d) = length aggr_names))
      with (evs := evs) (s := init_static_data key_names aggr_names).
    - intros c i j. simpl. by rewrite length_map.
    - by intros p d0.
    - by intros p d0.
    - by intros b d0.
    - by intros d0.
    - intros c K snap d0 d' Hl Hp. by rewrite (process_snapshot_aggr _ _ _ _ _ Hp).
    - split; [done|]. intros x dx Hx. simpl in Hx. by rewrite lookup_empty in Hx.
    - exact Hrun. }
  destruct Hcfg as [Hn Hlen]. split; [done|]. split; [by eapply Hlen|].
  assert (Hr : all_ready s).
  { eapply (run_ready evs); [|exact Hrun].
    intros y dy Hy. simpl in Hy. by rewrite lookup_empty in Hy. }
  intros blk off i Hne Hi. apply (Hr a d Hd blk off Hne i).
  rewrite (Hlen a d Hd). exact Hi.
Qed.

Lemma reachable_databases_ready_witness :
  exists d, dbs ingested_service !! 0 = Some d /\ length (m_aggr_attributes d) = 1%nat.
Proof.
  destruct (dbs ingested_service !! 0) as [d|] eqn:Hd; [|vm_compute in Hd; discriminate].
  exists d. split; [reflexivity|].
  refine (proj1 (proj2 (reachable_databases_ready [] ["t"%string]
            [EvPostInit 0 (host false) (platform true);
             EvProcessSnapshot 0 (host false) (platform true) (sample [7] 10)]
            ingested_service 0 d _ Hd))).
  vm_compute. reflexivity.
Defined.

(** Every state the service reaches has a well-formed list: [s_list]
    heads a chain that [m_next] and [m_prev] link in both directions
    between live databases, and every thread slot holds a live database
    of its own that is not retired. *)
Theorem reachable_list_well_formed (key_names aggr_names : list string)
    (evs : list Event) (s : Service) :
  run evs (init_static_data key_names aggr_names) = Some s -> well_formed s.
Proof.
  intros H. eapply run_well_formed; [|exact H]. apply well_formed_init.
Qed.

Lemma reachable_list_well_formed_witness : well_formed ingested_service.
Proof.
  apply (reachable_list_well_formed [] ["t"%string]
           [EvPostInit 0 (host false) (platform true);
            EvProcessSnapshot 0 (host false) (platform true) (sample [7] 10)]).
  vm_compute. reflexivity.
Defined.

(** *** The databases of the other threads *)

Lemma acquire_others t c alloc pf s s' r b d :
  acquire t c alloc pf s = Some (s', r) ->
  dbs s !! b = Some d ->
  exists d', dbs s' !! b = Some d' /\
    (d' = d \/ (s_list s = Some b /\ tls s !! t = None /\ exists x, d' = set_prev_db (Some x) d)).
Proof.
  unfold acquire. intros H Hb.
  destruct (tls s !! t) as [a|] eqn:Ht; [simplify_eq; eauto|].
  destruct alloc; [|simplify_eq; eauto].
  pose proof (fresh_not_live s) as Hf.
  assert (Hne : fresh (dom (dbs s)) <> b) by (intros Heq; rewrite <- Heq in Hb; congruence).
  destruct (setspecific_ok pf).
  - destruct (s_list s) as [l|] eqn:Hl; cbn [mbind option_bind] in H.
    + unfold store_db in H.
      destruct (dbs s !! l) as [dl|] eqn:Hdl; cbn [mbind option_bind] in H; [|done].
      simplify_eq. simpl. rewrite lookup_insert_ne by done.
      rewrite lookup_insert. case_decide; simplify_eq.
      * eexists. split; [reflexivity|]. right. split_and!; [done|done|by eexists].
      * eauto.
    + simplify_eq. simpl. rewrite lookup_insert_ne by done. eauto.
  - simplify_eq. simpl. rewrite lookup_insert_ne by done. eauto.
Qed.

Lemma acquire_result t c alloc pf s s' a :
  acquire t c alloc pf s = Some (s', Some a) ->
  tls s !! t = Some a \/ (tls s !! t = None /\ a = fresh (dom (dbs s))).
Proof.
  unfold acquire. intros H.
  destruct (tls s !! t) as [a'|] eqn:Ht; [simplify_eq; eauto|].
  destruct alloc; [|by simplify_eq].
  destruct (setspecific_ok pf).
  - match type of H with (?m ≫= _) = _ => destruct m as [h|] end;
      cbn [mbind option_bind] in H; [|done].
    simplify_eq. eauto.
  - simplify_eq. eauto.
Qed.

(** A snapshot touches the database of its thread only.  Whatever
    [process_snapshot_cb] does on the thread [t], a database that is not
    the one in the slot of [t] is live afterwards with the same
    contents; the one change there can be is the [m_prev] pointer of the
    head of the list, when a new database is linked in front of it. *)
Theorem process_snapshot_cb_other_databases (t : N) (c : Caliper) (pf : Platform)
    (snap : SnapshotRecord) (s s' : Service) (b : N) (d : AggregateDB) :
  process_snapshot_cb t c pf snap s = Some s' ->
  dbs s !! b = Some d ->
  tls s !! t <> Some b ->
  exists d', dbs s' !! b = Some d' /\
    (d' = d \/
     (s_list s = Some b /\ tls s !! t = None /\ exists x, d' = set_prev_db (Some x) d)).
Proof.
  intros H Hb Ht. unfold process_snapshot_cb in H.
  destruct (acquire t c _ pf s) as [[s1 r]|] eqn:Ha; cbn [mbind option_bind] in H;
    [|done].
  destruct (acquire_others _ _ _ _ _ _ _ _ _ Ha Hb) as (d1 & Hd1 & Hcase).
  destruct r as [a|]; [|simplify_eq; simpl; eauto].
  assert (Hab : a <> b).
  { destruct (acquire_result _ _ _ _ _ _ _ Ha) as [Hx|[_ ->]]; [congruence|].
    pose proof (fresh_not_live s). intros Heq. rewrite <- Heq in Hb. congruence. }
  destruct (dbs s1 !! a) as [da|] eqn:Hda; cbn [mbind option_bind] in H; [|done].
  destruct (m_stopped da); [simplify_eq; simpl; eauto|].
  destruct (process_snapshot _ _ _ da) as [da'|]; cbn [mbind option_bind] in H; [|done].
  simplify_eq. simpl. rewrite lookup_insert_ne by done. eauto.
Qed.

Lemma process_snapshot_cb_other_databases_witness :
  exists s' d,
    process_snapshot_cb 1 (host false) (platform true) (sample [7] 10) ingested_service
      = Some s' /\
    dbs ingested_service !! 0 = Some d /\
    exists d', dbs s' !! 0 = Some d' /\ set_prev_db (m_prev d) d' = d.
Proof.
  destruct (process_snapshot_cb 1 (host false) (platform true) (sample [7] 10)
              ingested_service) as [s'|] eqn:H; [|vm_compute in H; discriminate].
  destruct (dbs ingested_service !! 0) as [d|] eqn:Hd; [|vm_compute in Hd; discriminate].
  exists s', d. split; [reflexivity|]. split; [reflexivity|].
  destruct (process_snapshot_cb_other_databases 1 (host false) (platform true)
              (sample [7] 10) ingested_service s' 0 d H Hd) as (d' & Hd' & Hcase).
  - vm_compute. discriminate.
  - exists d'. split; [exact Hd'|].
    destruct Hcase as [->|(_ & _ & x & ->)]; by destruct d.
Defined.

(** ** The aggregation kernel: minimum and maximum *)

(** [<] on doubles is irreflexive and transitive, NaN included. *)
Lemma SFltb_irrefl x : SFltb x x = false.
Proof.
  unfold SFltb. destruct x as [s|s| |s m e]; simpl; try done.
  - by destruct s.
  - rewrite Z.compare_refl, Pos.compare_cont_refl. by destruct s.
Qed.

Lemma SFltb_trans x y z : SFltb x y = true -> SFltb y z = true -> SFltb x z = true.
Proof.
  unfold SFltb.
  destruct x as [sx|sx| |sx mx ex], y as [sy|sy| |sy my ey], z as [sz|sz| |sz mz ez];
    simpl; try done;
    try (destruct sx; simpl; try done); try (destruct sy; simpl; try done);
    try (destruct sz; simpl; try done).
  all: change (Pos.compare_cont Eq) with Pos.compare.
  all: destruct (Z.compare_spec ex ey), (Z.compare_spec ey ez), (Z.compare_spec ex ez);
    try done; try lia; subst.
  all: destruct (Pos.compare_spec mx my), (Pos.compare_spec my mz),
         (Pos.compare_spec mx mz); simpl; try done; try lia.
Qed.

Lemma ltb_irrefl x : PrimFloat.ltb x x = false.
Proof. rewrite ltb_spec. apply SFltb_irrefl. Qed.

Lemma ltb_trans x y z :
  PrimFloat.ltb x y = true -> PrimFloat.ltb y z = true -> PrimFloat.ltb x z = true.
Proof. rewrite !ltb_spec. apply SFltb_trans. Qed.

Lemma add_all_cons v vals k :
  AggregateKernel.add_all (v :: vals) k
  = AggregateKernel.add_all vals (AggregateKernel.add v k).
Proof. reflexivity. Qed.

(** The minimum never grows and is the start value or a sample that was
    less than everything before it. *)
Lemma add_all_min vals : forall k,
  let k' := AggregateKernel.add_all vals k in
  (AggregateKernel.min k' = AggregateKernel.min k \/
   (PrimFloat.ltb (AggregateKernel.min k') (AggregateKernel.min k) = true /\
    AggregateKernel.min k' ∈ vals)) /\
  forall v, v ∈ vals -> PrimFloat.ltb v (AggregateKernel.min k') = false.
Proof.
  induction vals as [|w vals IH]; intros k; cbv zeta.
  { split; [by left|]. intros v Hv. by apply elem_of_nil in Hv. }
  rewrite add_all_cons. destruct (IH (AggregateKernel.add w k)) as [H1 H2].
  set (k' := AggregateKernel.add_all vals (AggregateKernel.add w k)) in *.
  assert (Hw : AggregateKernel.min (AggregateKernel.add w k) = AggregateKernel.min k /\
               PrimFloat.ltb w (AggregateKernel.min k) = false \/
               AggregateKernel.min (AggregateKernel.add w k) = w /\
               PrimFloat.ltb w (AggregateKernel.min k) = true).
  { simpl. unfold AggregateKernel.std_min.
    destruct (PrimFloat.ltb w (AggregateKernel.min k)); [by right|by left]. }
  split.
  - destruct H1 as [H1|[H1 H1']].
    + rewrite H1. destruct Hw as [[-> _]|[-> Hlt]]; [by left|right].
      split; [done|]. apply list_elem_of_here.
    + right. split; [|by apply list_elem_of_further].
      destruct Hw as [[Hm _]|[Hm Hlt]]; rewrite Hm in H1; [done|].
      by eapply ltb_trans.
  - intros v Hv. apply elem_of_cons in Hv as [->|Hv]; [|by apply H2].
    destruct (PrimFloat.ltb w (AggregateKernel.min k')) eqn:E; [|done]. exfalso.
    destruct H1 as [H1|[H1 _]].
    + rewrite H1 in E. destruct Hw as [[Hm Hf]|[Hm _]]; rewrite Hm in E.
      * congruence.
      * by rewrite ltb_irrefl in E.
    + assert (Hlt : PrimFloat.ltb w (AggregateKernel.min (AggregateKernel.add w k)) = true)
        by (by eapply ltb_trans).
      destruct Hw as [[Hm Hf]|[Hm _]]; rewrite Hm in Hlt.
      * congruence.
      * by rewrite ltb_irrefl in Hlt.
Qed.

Lemma add_all_max vals : forall k,
  let k' := AggregateKernel.add_all vals k in
  (AggregateKernel.max k' = AggregateKernel.max k \/
   (PrimFloat.ltb (AggregateKernel.max k) (AggregateKernel.max k') = true /\
    AggregateKernel.max k' ∈ vals)) /\
  forall v, v ∈ vals -> PrimFloat.ltb (AggregateKernel.max k') v = false.
Proof.
  induction vals as [|w vals IH]; intros k; cbv zeta.
  { split; [by left|]. intros v Hv. by apply elem_of_nil in Hv. }
  rewrite add_all_cons. destruct (IH (AggregateKernel.add w k)) as [H1 H2].
  set (k' := AggregateKernel.add_all vals (AggregateKernel.add w k)) in *.
  assert (Hw : AggregateKernel.max (AggregateKernel.add w k) = AggregateKernel.max k /\
               PrimFloat.ltb (AggregateKernel.max k) w = false \/
               AggregateKernel.max (AggregateKernel.add w k) = w /\
               PrimFloat.ltb (AggregateKernel.max k) w = true).
  { simpl. unfold AggregateKernel.std_max.
    destruct (PrimFloat.ltb (AggregateKernel.max k) w); [by right|by left]. }
  split.
  - destruct H1 as [H1|[H1 H1']].
    + rewrite H1. destruct Hw as [[-> _]|[-> Hlt]]; [by left|right].
      split; [done|]. apply list_elem_of_here.
    + right. split; [|by apply list_elem_of_further].
      destruct Hw as [[Hm _]|[Hm Hlt]]; rewrite Hm in H1; [done|].
      by eapply ltb_trans.
  - intros v Hv. apply elem_of_cons in Hv as [->|Hv]; [|by apply H2].
    destruct (PrimFloat.ltb (AggregateKernel.max k') w) eqn:E; [|done]. exfalso.
    destruct H1 as [H1|[H1 _]].
    + rewrite H1 in E. destruct Hw as [[Hm Hf]|[Hm _]]; rewrite Hm in E.
      * congruence.
      * by rewrite ltb_irrefl in E.
    + assert (Hlt : PrimFloat.ltb (AggregateKernel.max (AggregateKernel.add w k)) w = true)
        by (by eapply ltb_trans).
      destruct Hw as [[Hm Hf]|[Hm _]]; rewrite Hm in Hlt.
      * congruence.
      * by rewrite ltb_irrefl in Hlt.
Qed.

Lemma add_all_count vals : forall k,
  AggregateKernel.count (AggregateKernel.add_all vals k)
  = (AggregateKernel.count k + Z.of_nat (length vals))%Z.
Proof.
  induction vals as [|w vals IH]; intros k; [simpl; lia|].
  rewrite add_all_cons, IH. simpl. lia.
Qed.

(** The kernel after the samples [vals].  No sample is less than [min]
    and none is greater than [max]; [min] is the least sample when one
    of them is less than the start value [DBL_MAX], and the start value
    otherwise; [max] is the greatest sample when one of them is greater
    than the start value [DBL_MIN], and the start value otherwise; and
    [count] is the number of samples, as long as an [int] holds it.  A
    NaN is neither less nor greater than any number, so it leaves [min]
    and [max] as they are. *)
Theorem AggregateKernel_min_max (vals : list float) :
  let k := AggregateKernel.add_all vals AggregateKernel.new in
  (forall v, v ∈ vals -> PrimFloat.ltb v (AggregateKernel.min k) = false) /\
  (AggregateKernel.min k = AggregateKernel.DBL_MAX \/
   (AggregateKernel.min k ∈ vals /\
    PrimFloat.ltb (AggregateKernel.min k) AggregateKernel.DBL_MAX = true)) /\
  (forall v, v ∈ vals -> PrimFloat.ltb (AggregateKernel.max k) v = false) /\
  (AggregateKernel.max k = AggregateKernel.DBL_MIN \/
   (AggregateKernel.max k ∈ vals /\
    PrimFloat.ltb AggregateKernel.DBL_MIN (AggregateKernel.max k) = true)) /\
  ((Z.of_nat (length vals) < 2 ^ 31)%Z ->
   AggregateKernel.count k = Z.of_nat (length vals)).
Proof.
  cbv zeta.
  destruct (add_all_min vals AggregateKernel.new) as [H1 H2].
  destruct (add_all_max vals AggregateKernel.new) as [H3 H4].
  split_and!; [exact H2| |exact H4| |].
  - destruct H1 as [H1|[H1 H1']]; [by left|by right].
  - destruct H3 as [H3|[H3 H3']]; [by left|by right].
  - intros _. by rewrite add_all_count.
Qed.

Lemma AggregateKernel_min_max_witness :
  let k := AggregateKernel.add_all [3; -1; 2]%float AggregateKernel.new in
  PrimFloat.ltb (-1)%float (AggregateKernel.min k) = false /\
  PrimFloat.ltb (AggregateKernel.max k) 3%float = false /\
  AggregateKernel.count k = 3%Z.
Proof.
  cbv zeta.
  destruct (AggregateKernel_min_max [3; -1; 2]%float) as (H1 & _ & H3 & _ & H5).
  split_and!.
  - apply H1. apply list_elem_of_further, list_elem_of_here.
  - apply H3. apply list_elem_of_here.
  - apply H5. simpl. lia.
Defined.

(** ** What a flush writes *)


Lemma flush_children_Some depth K db key node : forall idx acc total,
  foldl (fun acc i =>
           if next_at node i =? 0 then acc
           else
             let e := (BlockAlloc.get (next_at node i) false (m_trie db)).2 in
             written ← acc;
             sub ← recursive_flush depth K db (key ++ [i]) e;
             Some (written ++ sub)) acc idx = Some total ->
  exists own,
    acc = Some own /\ (forall r, r ∈ own -> r ∈ total) /\
    forall i, i ∈ idx -> next_at node i <> 0 ->
      exists sub,
        recursive_flush depth K db (key ++ [i])
          (BlockAlloc.get (next_at node i) false (m_trie db)).2 = Some sub /\
        forall r, r ∈ sub -> r ∈ total.
Proof.
  induction idx as [|i idx IH]; intros acc total H.
  { simpl in H. exists total. split_and!; [done|done|].
    intros i Hi. by apply elem_of_nil in Hi. }
  cbn [foldl] in H. apply IH in H as (own1 & Hacc1 & Hown1 & Hsub).
  destruct (next_at node i =? 0) eqn:E.
  - exists own1. split_and!; [done|done|].
    intros j Hj Hne. apply elem_of_cons in Hj as [->|Hj]; [|by apply Hsub].
    apply N.eqb_eq in E. done.
  - destruct acc as [own|]; cbn [mbind option_bind] in Hacc1; [|done].
    destruct (recursive_flush depth K db (key ++ [i]) _) as [sub|] eqn:Hrf;
      cbn [mbind option_bind] in Hacc1; [|done].
    simplify_eq. exists own. split_and!; [done| |].
    + intros r Hr. apply Hown1. apply elem_of_app. by left.
    + intros j Hj Hne. apply elem_of_cons in Hj as [->|Hj]; [|by apply Hsub].
      exists sub. split; [done|]. intros r Hr. apply Hown1. apply elem_of_app. by right.
Qed.

Lemma recursive_flush_S depth K db key blk off :
  recursive_flush (S depth) K db key (BlockAlloc.Ptr blk off) =
  (own ← (if 0 <? count (BlockAlloc.read (m_trie db) blk off)
          then r ← write_aggregated_snapshot K db key (BlockAlloc.read (m_trie db) blk off);
               Some [r]
          else Some []);
   foldl (fun acc i =>
            if next_at (BlockAlloc.read (m_trie db) blk off) i =? 0 then acc
            else
              let e := (BlockAlloc.get (next_at (BlockAlloc.read (m_trie db) blk off) i)
                          false (m_trie db)).2 in
              written ← acc;
              sub ← recursive_flush depth K db (key ++ [i]) e;
              Some (written ++ sub))
         (Some own) (map N.of_nat (seq 0 256))).
Proof. cbn [recursive_flush]. reflexivity. Qed.

(** A flush writes the record of every entry with a count that a key of
    bytes leads to. *)
Lemma recursive_flush_writes K db : forall rest depth u key recs v,
  Forall (fun b => b < 256) rest ->
  recursive_flush depth K db key
    (BlockAlloc.Ptr (u / BlockAlloc.ENTRIES_PER_BLOCK) (u mod BlockAlloc.ENTRIES_PER_BLOCK))
    = Some recs ->
  path_from (m_trie db) u rest = Some v ->
  0 < count (node_at (m_trie db) v) ->
  exists r,
    write_aggregated_snapshot K db (key ++ rest) (node_at (m_trie db) v) = Some r /\
    r ∈ recs.
Proof.
  induction rest as [|b rest IH]; intros depth u key recs v Hb H Hp Hc.
  - cbn [path_from] in Hp. injection Hp as ->. destruct depth as [|depth]; [discriminate H|].
    rewrite recursive_flush_S in H. unfold node_at in *.
    apply bind_Some in H as (own0 & Hown0 & H).
    apply N.ltb_lt in Hc. rewrite Hc in Hown0.
    apply bind_Some in Hown0 as (r & Hw & Hr). injection Hr as <-.
    apply flush_children_Some in H as (own & Hown & Hin & _).
    injection Hown as <-. exists r. rewrite app_nil_r. split; [exact Hw|].
    apply Hin. apply list_elem_of_here.
  - apply path_from_cons in Hp as (Hne & Hf & Hp).
    destruct depth as [|depth]; [discriminate H|].
    rewrite recursive_flush_S in H. unfold node_at in Hne, Hf, Hp.
    apply bind_Some in H as (own0 & _ & H).
    apply flush_children_Some in H as (own & _ & _ & Hsub).
    apply Forall_cons in Hb as [Hb Hrest].
    destruct (Hsub b) as (sub & Hrf & Hin); [|exact Hne|].
    { apply list_elem_of_fmap. exists (N.to_nat b). split; [lia|].
      apply elem_of_seq. lia. }
    rewrite (fetchable_Ptr _ _ Hf false) in Hrf. cbn [snd] in Hrf.
    destruct (IH _ _ _ _ _ Hrest Hrf Hp Hc) as (r & Hr & Hr').
    exists r. rewrite <- app_assoc in Hr. split; [exact Hr|by apply Hin].
Qed.

(** ** The bytes of a key *)

Lemma lor_byte x y : x < 256 -> y < 256 -> N.lor x y < 256.
Proof.
  intros Hx Hy. destruct (N.eq_dec (N.lor x y) 0) as [->|Hne]; [lia|].
  change 256 with (2 ^ 8). apply N.log2_lt_pow2; [lia|].
  rewrite N.log2_lor.
  assert (Hl : forall z, z < 256 -> N.log2 z < 8).
  { intros z Hz. destruct (N.eq_dec z 0) as [->|Hz0]; [done|].
    apply N.log2_lt_pow2; [lia|exact Hz]. }
  specialize (Hl x Hx) as Hlx. specialize (Hl y Hy). lia.
Qed.

Lemma vlenc_bytes_bytes more : forall val,
  val < 2 ^ (7 * N.of_nat more + 8) -> Forall (fun b => b < 256) (vlenc_bytes more val).
Proof.
  induction more as [|more IH]; intros val Hval; cbn [vlenc_bytes].
  { apply Forall_singleton. exact Hval. }
  destruct (0x7F <? val) eqn:E.
  - apply Forall_cons. split.
    + apply lor_byte; [|done].
      change 0x7F with (N.ones 7). rewrite N.land_ones.
      pose proof (N.mod_upper_bound val (2 ^ 7)). lia.
    + apply IH. rewrite N.shiftr_div_pow2.
      apply N.Div0.div_lt_upper_bound. rewrite <- N.pow_add_r.
      replace (7 + (7 * N.of_nat more + 8)) with (7 * N.of_nat (S more) + 8) by lia.
      exact Hval.
  - apply Forall_singleton. apply N.ltb_ge in E. lia.
Qed.

Lemma vlenc_u64_bytes val : Forall (fun b => b < 256) (vlenc_u64 val).
Proof.
  apply vlenc_bytes_bytes. unfold wrap64.
  pose proof (N.mod_upper_bound val (2 ^ 64)).
  assert (2 ^ 64 < 2 ^ (7 * N.of_nat 9 + 8)) by (apply N.pow_lt_mono_r; lia). lia.
Qed.

Lemma encode_node_key_bytes ids : forall node_key,
  Forall (fun b => b < 256) node_key ->
  Forall (fun b => b < 256) (encode_node_key ids node_key).
Proof.
  induction ids as [|id ids IH]; intros node_key H; cbn [encode_node_key]; [done|].
  destruct (_ <? MAX_KEYLEN)%nat; [|done].
  apply IH. apply Forall_app. split; [done|apply vlenc_u64_bytes].
Qed.

Lemma write_at_bytes buf pos bytes :
  Forall (fun b => b < 256) buf -> Forall (fun b => b < 256) bytes ->
  Forall (fun b => b < 256) (write_at buf pos bytes).
Proof.
  intros H1 H2. unfold write_at. rewrite !Forall_app. split_and!.
  - apply Forall_resize; [lia|done].
  - done.
  - by apply Forall_drop.
Qed.

Lemma imm_scan_bytes node_key_len k attr_k : forall imms st st',
  Forall (fun b => b < 256) (imm_key st) ->
  imm_scan node_key_len k attr_k imms st = Some st' ->
  Forall (fun b => b < 256) (imm_key st').
Proof.
  induction imms as [|e imms IH]; intros st st' Hst H; cbn [imm_scan] in H;
    [by simplify_eq|].
  destruct (bool_decide _); [|by eapply IH].
  destruct (int_shl1 k) as [bit|]; cbn [mbind option_bind] in H; [|done].
  assert (Hw : Forall (fun b => b < 256)
                 (write_at (imm_key st) (imm_key_len st) (vlenc_u64 (imm_u64 e))))
    by (apply write_at_bytes; [done|apply vlenc_u64_bytes]).
  destruct (imm_too_long _ _ _ _).
  - by injection H as <-.
  - eapply IH; [|exact H]. exact Hw.
Qed.

Lemma imm_loop_bytes node_key_len imms : forall K k st st',
  Forall (fun b => b < 256) (imm_key st) ->
  imm_loop node_key_len k K imms st = Some st' ->
  Forall (fun b => b < 256) (imm_key st').
Proof.
  induction K as [|attr_k K IH]; intros k st st' Hst H; cbn [imm_loop] in H;
    [by simplify_eq|].
  destruct (imm_scan _ k attr_k imms st) as [st1|] eqn:E; cbn [mbind option_bind] in H;
    [|done].
  eapply IH; [|exact H]. by eapply imm_scan_bytes.
Qed.

(** Every element of a key is a byte. *)
Lemma snapshot_key_bytes c K snap key :
  snapshot_key c K snap = Some key -> Forall (fun b => b < 256) key.
Proof.
  unfold snapshot_key. intros H.
  destruct (snapshot_imm_key c K snap) as [st|] eqn:Est; cbn [mbind option_bind] in H;
    [|done].
  injection H as <-. unfold assemble_key. rewrite !Forall_app. split_and!.
  - apply vlenc_u64_bytes.
  - by apply encode_node_key_bytes.
  - destruct (negb _); [|done]. apply Forall_app. split; [apply vlenc_u64_bytes|].
    apply Forall_take. unfold snapshot_imm_key in Est.
    eapply imm_loop_bytes; [|exact Est]. done.
Qed.

(** ** A counted snapshot is flushed *)

Lemma wrap64_succ_ne d : wrap64 (d + 1) <> d.
Proof.
  unfold wrap64. intros H.
  pose proof (N.mod_upper_bound (d + 1) (2 ^ 64)) as Hub.
  destruct (N.lt_ge_cases (d + 1) (2 ^ 64)) as [Hlt|Hge].
  - rewrite N.mod_small in H by done. lia.
  - destruct (N.eq_dec (d + 1) (2 ^ 64)) as [Heq|Hne].
    + rewrite Heq in H. rewrite N.Div0.mod_same in H. lia.
    + lia.
Qed.

(** The root of the trie is there once [find_entry] answered an entry. *)
Lemma find_entry_root key alloc db db' blk off :
  find_entry key alloc db = (db', BlockAlloc.Ptr blk off) ->
  fetchable (m_trie db') 0.
Proof.
  intros H. destruct (find_entry_Ptr _ _ _ _ _ _ H) as (tr & d1 & Hget & Hw & Hk).
  destruct (get_Ptr_inv _ _ _ _ _ _ Hget) as (_ & _ & Hlt & Hs).
  set (P := fun a : BlockAlloc.t TrieNode =>
              is_Some (BlockAlloc.m_blocks a !! (0 / BlockAlloc.ENTRIES_PER_BLOCK))).
  assert (P_get : forall id a a' p, BlockAlloc.get id alloc a = (a', p) -> P a -> P a').
  { intros id a a' p Hg. by eapply get_grows. }
  assert (P_write : forall a b o v, P a -> P (BlockAlloc.write a b o v)).
  { intros a b o v Ha. unfold P. revert Ha. apply same_blocks_is_Some.
    pose proof (write_same_blocks a b o v) as [E1 E2]. split; [by rewrite E1|by rewrite E2]. }
  destruct (find_entry_walk_inv alloc P P_get P_write key 0 0 (set_trie tr db) Hs)
    as [H1 _].
  rewrite Hw in H1. cbn [fst] in H1.
  assert (H2 : P (m_trie db')).
  { pose proof (find_entry_kernels_count alloc blk off d1) as (_ & Hsb & _).
    rewrite Hk in Hsb. cbn [fst] in Hsb. unfold P.
    revert H1. apply same_blocks_is_Some.
    destruct Hsb as [E1 E2]. split; [by rewrite E1|by rewrite E2]. }
  apply fetchable_iff. split; [exact Hlt|exact H2].
Qed.

(** A snapshot that was counted is written by a flush of its database.
    When [process_snapshot] takes a snapshot without dropping it, in a
    database whose trie is a tree with room for a key, the count of the
    key's entry went up by one, and as long as that count is not zero,
    the records of a [flush] that returns hold the record of the key and
    the entry. *)
Theorem flush_writes_counted_snapshot (c : Caliper) (K K' : list (option N))
    (snap : SnapshotRecord) (db db' : AggregateDB) (depth : nat)
    (recs : list (list RecEntry)) :
  trie_tree db ->
  m_num_trie_entries db + N.of_nat MAX_KEYLEN < 2 ^ 32 ->
  (0 < length (node_entries snap) + length (immediate snap))%nat ->
  process_snapshot c K snap db = Some db' ->
  m_num_dropped db' = m_num_dropped db ->
  flush depth K' db' = Some recs ->
  exists key blk off,
    snapshot_key c K snap = Some key /\
    count (BlockAlloc.read (m_trie db') blk off)
      = wrap32 (count (BlockAlloc.read (m_trie db) blk off) + 1) /\
    (0 < count (BlockAlloc.read (m_trie db') blk off) ->
     exists r,
       write_aggregated_snapshot K' db' key (BlockAlloc.read (m_trie db') blk off) = Some r /\
       r ∈ recs).
Proof.
  intros Ht Hb Hne H Hd Hfl.
  destruct (process_snapshot_cases _ _ _ _ _ H)
    as [[E _]|(key & db2 & p & _ & Hkey & Hlen & Hf & Hp)]; [lia|].
  set (db1 := set_max_keylen _ db) in Hf.
  assert (Ht1 : trie_tree db1) by exact Ht.
  destruct (find_entry_tree key (negb (is_signal c)) db1 Ht1)
    as (H1 & H2 & H3 & H4); [cbn; lia|].
  destruct (find_entry_count key (negb (is_signal c)) db1) as (C1 & C2 & C3).
  rewrite Hf in H1, H2, H3, H4, C1, C2, C3. cbn [fst snd] in H1, H2, H3, H4, C1, C2, C3.
  destruct Hp as [[-> ->]|(blk & off & ks & -> & Hu & ->)].
  { cbn in Hd. rewrite C2 in Hd. cbn in Hd. by apply wrap64_succ_ne in Hd. }
  destruct (H4 blk off eq_refl) as (v & -> & -> & Hv & Hpath & Hs).
  pose proof (find_entry_root _ _ _ _ _ _ Hf) as Hroot.
  set (node := BlockAlloc.read (m_trie db2) _ _) in *.
  assert (Hg : trie_grows (m_trie db2)
                 (BlockAlloc.write (m_trie db2) (v / BlockAlloc.ENTRIES_PER_BLOCK)
                    (v mod BlockAlloc.ENTRIES_PER_BLOCK) (incr_count node)))
    by (by apply trie_grows_write_same).
  exists key, (v / BlockAlloc.ENTRIES_PER_BLOCK), (v mod BlockAlloc.ENTRIES_PER_BLOCK).
  split; [exact Hkey|]. cbn [m_trie set_kernels set_trie]. split.
  - rewrite read_write by done. cbn [count incr_count]. unfold node. by rewrite C1.
  - intros Hpos. unfold flush in Hfl. cbn [m_trie set_kernels set_trie] in Hfl.
    rewrite (fetchable_Ptr _ _ (fetchable_grows _ _ _ Hg Hroot) false) in Hfl.
    cbn [snd] in Hfl.
    apply (recursive_flush_writes K' _ key depth 0 [] recs v
             (snapshot_key_bytes _ _ _ _ Hkey) Hfl).
    + cbn [m_trie set_kernels set_trie]. by eapply path_from_grows.
    + exact Hpos.
Qed.

Lemma flush_writes_counted_snapshot_witness :
  exists recs,
    flush 3 [] ingested_db = Some recs /\
    exists key blk off,
      snapshot_key (host false) [] (sample [7] 10) = Some key /\
      count (BlockAlloc.read (m_trie ingested_db) blk off)
        = wrap32 (count (BlockAlloc.read (m_trie fresh_db) blk off) + 1) /\
      (0 < count (BlockAlloc.read (m_trie ingested_db) blk off) ->
       exists r,
         write_aggregated_snapshot [] ingested_db key
           (BlockAlloc.read (m_trie ingested_db) blk off) = Some r /\
         r ∈ recs).
Proof.
  destruct (flush 3 [] ingested_db) as [recs|] eqn:Hfl; [|vm_compute in Hfl; discriminate].
  exists recs. split; [reflexivity|].
  apply (flush_writes_counted_snapshot (host false) [] [] (sample [7] 10)
           fresh_db ingested_db 3 recs).
  - apply trie_tree_fresh_db.
  - reflexivity.
  - vm_compute. lia.
  - vm_compute. reflexivity.
  - vm_compute. reflexivity.
  - exact Hfl.
Defined.

(** ** The records of a flush *)

(** A record written by the loop over the child ids was there before
    the loop or comes from the flush of a child. *)
Lemma flush_children_elem depth K db key node r : forall idx acc total,
  foldl (fun acc i =>
           if next_at node i =? 0 then acc
           else
             let e := (BlockAlloc.get (next_at node i) false (m_trie db)).2 in
             written ← acc;
             sub ← recursive_flush depth K db (key ++ [i]) e;
             Some (written ++ sub)) acc idx = Some total ->
  r ∈ total ->
  (exists own, acc = Some own /\ r ∈ own) \/
  exists i sub,
    i ∈ idx /\ next_at node i <> 0 /\
    recursive_flush depth K db (key ++ [i])
      (BlockAlloc.get (next_at node i) false (m_trie db)).2 = Some sub /\
    r ∈ sub.
Proof.
  induction idx as [|i idx IH]; intros acc total H Hr.
  { cbn [foldl] in H. left. by exists total. }
  cbn [foldl] in H. destruct (IH _ _ H Hr) as [(own1 & Hown1 & Hin)|(j & sub & Hj & Hne & Hs & Hin)].
  - destruct (next_at node i =? 0) eqn:E; [left; by exists own1|].
    apply N.eqb_neq in E.
    apply bind_Some in Hown1 as (own & -> & Hown1).
    apply bind_Some in Hown1 as (sub & Hsub & Hown1).
    injection Hown1 as <-. apply elem_of_app in Hin as [Hin|Hin].
    + left. by exists own.
    + right. exists i, sub. split_and!; [apply list_elem_of_here|done|done|done].
  - right. exists j, sub. split_and!; [by apply list_elem_of_further|done|done|done].
Qed.

(** Every record of a flush is the record of an entry with a count that
    a key of bytes leads to. *)
Lemma recursive_flush_only K db r : forall depth u key recs,
  recursive_flush depth K db key
    (BlockAlloc.Ptr (u / BlockAlloc.ENTRIES_PER_BLOCK) (u mod BlockAlloc.ENTRIES_PER_BLOCK))
    = Some recs ->
  r ∈ recs ->
  exists rest v,
    Forall (fun b => b < 256) rest /\
    path_from (m_trie db) u rest = Some v /\
    0 < count (node_at (m_trie db) v) /\
    write_aggregated_snapshot K db (key ++ rest) (node_at (m_trie db) v) = Some r.
Proof.
  induction depth as [|depth IH]; intros u key recs H Hr; [discriminate H|].
  rewrite recursive_flush_S in H. fold (node_at (m_trie db) u) in H.
  apply bind_Some in H as (own0 & Hown0 & H).
  destruct (flush_children_elem _ _ _ _ _ _ _ _ _ H Hr)
    as [(own & Hown & Hin)|(i & sub & Hi & Hne & Hsub & Hin)].
  - injection Hown as <-. exists [], u. rewrite app_nil_r.
    destruct (0 <? count (node_at (m_trie db) u)) eqn:Hc.
    + apply N.ltb_lt in Hc. apply bind_Some in Hown0 as (r0 & Hw & Hr0).
      injection Hr0 as <-. apply list_elem_of_singleton in Hin as ->. by split_and!.
    + injection Hown0 as <-. by apply elem_of_nil in Hin.
  - destruct (BlockAlloc.get (next_at (node_at (m_trie db) u) i) false (m_trie db))
      as [tr p] eqn:Hget.
    cbn [snd] in Hsub. destruct p as [|blk off|].
    + destruct depth; cbn [recursive_flush] in Hsub; injection Hsub as <-;
        by apply elem_of_nil in Hin.
    + destruct (get_Ptr_inv _ _ _ _ _ _ Hget) as (-> & -> & _).
      destruct (IH _ _ _ Hsub Hin) as (rest & v & Hb & Hp & Hc & Hw).
      exists (i :: rest), v. split_and!; [| |done|by rewrite <- app_assoc in Hw].
      * apply Forall_cons. split; [|done].
        apply list_elem_of_fmap in Hi as (n & -> & Hn). apply elem_of_seq in Hn. lia.
      * apply path_from_cons. split_and!; [done| |done].
        eexists _, _. by rewrite Hget.
    + destruct depth; discriminate Hsub.
Qed.

(** What a flush writes.  The records of a [flush] that returns are the
    records of the trie entries with a count, each made by
    [write_aggregated_snapshot] from the bytes that lead to the entry
    from the root: no entry with a count is left out, and no record has
    another origin. *)
Theorem flush_records (depth : nat) (K : list (option N)) (db : AggregateDB)
    (recs : list (list RecEntry)) (r : list RecEntry) :
  flush depth K db = Some recs ->
  r ∈ recs <->
  exists key v,
    Forall (fun b => b < 256) key /\
    path_from (m_trie db) 0 key = Some v /\
    0 < count (node_at (m_trie db) v) /\
    write_aggregated_snapshot K db key (node_at (m_trie db) v) = Some r.
Proof.
  unfold flush. intros H.
  destruct (BlockAlloc.get 0 false (m_trie db)) as [tr p] eqn:Hget.
  cbn [snd] in H. destruct p as [|blk off|].
  - assert (Hnone : BlockAlloc.m_blocks (m_trie db) !! 0 = None).
    { unfold BlockAlloc.get in Hget.
      change (0 / BlockAlloc.ENTRIES_PER_BLOCK) with 0 in Hget.
      change (BlockAlloc.MAX_BLOCKS <? 0) with false in Hget.
      change (negb (0 <? BlockAlloc.MAX_BLOCKS)) with false in Hget.
      cbv iota in Hget. by destruct (BlockAlloc.m_blocks (m_trie db) !! 0). }
    assert (Hroot : node_at (m_trie db) 0 = default_ctor).
    { unfold node_at, BlockAlloc.read.
      change (0 / BlockAlloc.ENTRIES_PER_BLOCK) with 0. by rewrite Hnone. }
    assert (recs = []) as -> by (destruct depth; cbn [recursive_flush] in H; by simplify_eq).
    split; [by intros ?%elem_of_nil|].
    intros (key & v & _ & Hp & Hc & _). destruct key as [|b key].
    + cbn [path_from] in Hp. injection Hp as <-. rewrite Hroot in Hc. by cbn in Hc.
    + apply path_from_cons in Hp as (Hne & _). rewrite Hroot in Hne. by cbn in Hne.
  - destruct (get_Ptr_inv _ _ _ _ _ _ Hget) as (-> & -> & _). split.
    + intros Hr. destruct (recursive_flush_only _ _ _ _ _ _ _ H Hr)
        as (rest & v & Hb & Hp & Hc & Hw).
      by exists rest, v.
    + intros (key & v & Hb & Hp & Hc & Hw).
      destruct (recursive_flush_writes K db key depth 0 [] recs v Hb H Hp Hc)
        as (r' & Hr' & Hin).
      cbn [app] in Hr'. rewrite Hw in Hr'. by injection Hr' as <-.
  - destruct depth; discriminate H.
Qed.

Lemma flush_records_witness :
  exists recs,
    flush 3 [] ingested_db = Some recs /\
    forall r,
      r ∈ recs <->
      exists key v,
        Forall (fun b => b < 256) key /\
        path_from (m_trie ingested_db) 0 key = Some v /\
        0 < count (node_at (m_trie ingested_db) v) /\
        write_aggregated_snapshot [] ingested_db key (node_at (m_trie ingested_db) v) = Some r.
Proof.
  destruct (flush 3 [] ingested_db) as [recs|] eqn:Hfl; [|vm_compute in Hfl; discriminate].
  exists recs. split; [reflexivity|]. intros r.
  apply (flush_records 3 [] ingested_db recs r). exact Hfl.
Defined.

(** ** A flush returns *)








(** ** Aggregation *)

Lemma fetchable_write {T} (a : BlockAlloc.t T) blk off v id :
  fetchable a id -> fetchable (BlockAlloc.write a blk off v) id.
Proof.
  rewrite !fetchable_iff. intros [Hlt Hs]. split; [done|].
  revert Hs. apply same_blocks_is_Some.
  pose proof (write_same_blocks a blk off v) as [E1 E2]. split; [by rewrite E1|by rewrite E2].
Qed.

Lemma fetchable_get {T} (a a' : BlockAlloc.t T) id alloc p id' :
  BlockAlloc.get id alloc a = (a', p) -> fetchable a id' -> fetchable a' id'.
Proof.
  intros Hg. rewrite !fetchable_iff. intros [Hlt Hs]. split; [done|]. by eapply get_grows.
Qed.

Lemma slot_usable_get alloc ks id :
  slot_usable alloc ks id ->
  exists ks1, BlockAlloc.get id alloc ks
              = (ks1, BlockAlloc.Ptr (id / BlockAlloc.ENTRIES_PER_BLOCK)
                                     (id mod BlockAlloc.ENTRIES_PER_BLOCK)).
Proof.
  intros [Hf|[-> Hlt]].
  - exists ks. by apply fetchable_Ptr.
  - unfold BlockAlloc.get.
    assert (E1 : (BlockAlloc.MAX_BLOCKS <? id / BlockAlloc.ENTRIES_PER_BLOCK) = false)
      by (apply N.ltb_ge; lia).
    apply N.ltb_lt in Hlt. rewrite E1, Hlt. cbn [negb].
    destruct (BlockAlloc.m_blocks ks !! _); by eexists.
Qed.

(** The inner loop adds the values of the attribute to the kernel of
    its slot, in their order, and stores to no other element. *)
Lemma add_matching_spec alloc kid a attr_a : forall imms ks ks',
  add_matching alloc kid a attr_a imms ks = Some ks' ->
  (forall blk off,
     (blk, off) <> (wrap64 (kid + N.of_nat a) / BlockAlloc.ENTRIES_PER_BLOCK,
                    wrap64 (kid + N.of_nat a) mod BlockAlloc.ENTRIES_PER_BLOCK) ->
     BlockAlloc.read ks' blk off = BlockAlloc.read ks blk off) /\
  (forall id', fetchable ks id' -> fetchable ks' id') /\
  (slot_usable alloc ks (wrap64 (kid + N.of_nat a)) ->
   kernel_at ks' (wrap64 (kid + N.of_nat a))
   = AggregateKernel.add_all (values_of attr_a imms)
       (kernel_at ks (wrap64 (kid + N.of_nat a)))).
Proof.
  set (id := wrap64 (kid + N.of_nat a)).
  induction imms as [|e imms IH]; intros ks ks' H; cbn [add_matching] in H.
  { injection H as <-. by split_and!. }
  fold id in H. unfold values_of. rewrite filter_cons.
  destruct (decide (attr_a = imm_attr e)) as [Heq|Hne].
  2: { rewrite bool_decide_eq_false_2 in H by done. by apply IH. }
  rewrite bool_decide_eq_true_2 in H by done.
  destruct (BlockAlloc.get id alloc ks) as [ks1 p] eqn:Hget.
  destruct p as [|blk off|b]; [| |done].
  - destruct (IH _ _ H) as (F & M & V). split_and!.
    + intros blk off Hne. rewrite F by done. by eapply get_read.
    + intros id' Hf. apply M. by eapply fetchable_get.
    + intros Hu. destruct (slot_usable_get _ _ _ Hu) as [ks2 Hg2]. congruence.
  - destruct (get_Ptr_inv _ _ _ _ _ _ Hget) as (-> & -> & Hlt & Hs).
    destruct (IH _ _ H) as (F & M & V). split_and!.
    + intros blk off Hne. rewrite F by done. rewrite read_write_ne by done.
      by eapply get_read.
    + intros id' Hf. apply M. apply fetchable_write. by eapply fetchable_get.
    + intros _. rewrite V.
      2: { left. apply fetchable_write. apply fetchable_iff. by split. }
      unfold kernel_at. rewrite read_write by done.
      rewrite (get_read _ _ _ _ _ _ _ Hget). reflexivity.
Qed.

(** The outer loop, from the index [s] on. *)
Lemma update_kernels_spec alloc kid imms : forall attrs s ks ks',
  update_kernels alloc kid s attrs imms ks = Some ks' ->
  kid + N.of_nat (s + length attrs) <= 2 ^ 64 ->
  (forall id,
     (forall j, (j < length attrs)%nat -> id <> kid + N.of_nat (s + j)) ->
     kernel_at ks' id = kernel_at ks id) /\
  (forall id', fetchable ks id' -> fetchable ks' id') /\
  (forall j attr_j,
     attrs !! j = Some attr_j ->
     slot_usable alloc ks (kid + N.of_nat (s + j)) ->
     kernel_at ks' (kid + N.of_nat (s + j))
     = AggregateKernel.add_all (values_of attr_j imms)
         (kernel_at ks (kid + N.of_nat (s + j)))).
Proof.
  induction attrs as [|attr_s attrs IH]; intros s ks ks' H Hb; cbn [update_kernels] in H.
  { injection H as <-. split_and!; [done|done|]. intros j attr_j Hj. done. }
  apply bind_Some in H as (ks1 & H1 & H).
  cbn [length] in Hb.
  assert (Hw : wrap64 (kid + N.of_nat s) = kid + N.of_nat s).
  { unfold wrap64. apply N.mod_small. lia. }
  destruct (add_matching_spec _ _ _ _ _ _ _ H1) as (F1 & M1 & V1). rewrite Hw in F1, V1.
  destruct (IH _ _ _ H) as (F & M & V); [lia|].
  assert (F1' : forall id, id <> kid + N.of_nat s -> kernel_at ks1 id = kernel_at ks id).
  { intros id Hne. apply F1. intros [= E1 E2]. apply Hne. by apply div_mod_eq. }
  split_and!.
  - intros id Hid. rewrite F.
    + apply F1'. specialize (Hid 0%nat). rewrite Nat.add_0_r in Hid. apply Hid. cbn; lia.
    + intros j Hj. specialize (Hid (S j)).
      replace (S s + j)%nat with (s + S j)%nat by lia. apply Hid. cbn; lia.
  - intros id' Hf. by apply M, M1.
  - intros j attr_j Hj Hu. destruct j as [|j].
    + cbn in Hj. injection Hj as ->. rewrite Nat.add_0_r in *.
      rewrite F; [by apply V1|].
      intros j Hj. lia.
    + cbn in Hj. replace (s + S j)%nat with (S s + j)%nat in * by lia.
      rewrite (V j attr_j Hj).
      * f_equal. apply F1'. lia.
      * destruct Hu as [Hf|Hu]; [left; by apply M1|by right].
Qed.

(** What a counted snapshot adds.  When [process_snapshot] takes a
    snapshot without dropping it, the entry that [find_entry] answers
    for the key has the kernel id [kid], and for every aggregated
    attribute [a] whose slot [kid + a] can be had, the kernel of the slot
    is the one [find_entry] left with the values of the attribute's
    immediate entries added, in the order of the snapshot; the kernels
    of all other slots are as [find_entry] left them. *)
Theorem process_snapshot_aggregates (c : Caliper) (K : list (option N))
    (snap : SnapshotRecord) (db db' : AggregateDB) :
  (0 < length (node_entries snap) + length (immediate snap))%nat ->
  process_snapshot c K snap db = Some db' ->
  m_num_dropped db' = m_num_dropped db ->
  exists key blk off,
    snapshot_key c K snap = Some key /\
    let r := find_entry key (negb (is_signal c))
               (set_max_keylen (N.max (N.of_nat (length key)) (m_max_keylen db)) db) in
    let kid := k_id (BlockAlloc.read (m_trie r.1) blk off) in
    r.2 = BlockAlloc.Ptr blk off /\
    (kid + N.of_nat (length (m_aggr_attributes db)) <= 2 ^ 64 ->
     (forall a attr_a,
        m_aggr_attributes db !! a = Some attr_a ->
        slot_usable (negb (is_signal c)) (m_kernels r.1) (kid + N.of_nat a) ->
        kernel_at (m_kernels db') (kid + N.of_nat a)
        = AggregateKernel.add_all (values_of attr_a (immediate snap))
            (kernel_at (m_kernels r.1) (kid + N.of_nat a))) /\
     (forall id,
        (forall a, (a < length (m_aggr_attributes db))%nat -> id <> kid + N.of_nat a) ->
        kernel_at (m_kernels db') id = kernel_at (m_kernels r.1) id)).
Proof.
  intros Hne H Hd.
  destruct (process_snapshot_cases _ _ _ _ _ H)
    as [[E _]|(key & db2 & p & _ & Hkey & Hlen & Hf & Hp)]; [lia|].
  set (db1 := set_max_keylen _ db) in Hf.
  destruct (find_entry_count key (negb (is_signal c)) db1) as (_ & C2 & _).
  pose proof (find_entry_aggr key (negb (is_signal c)) db1) as Ha.
  rewrite Hf in C2, Ha. cbn [fst snd] in C2, Ha.
  destruct Hp as [[-> ->]|(blk & off & ks & -> & Hu & ->)].
  { cbn in Hd. rewrite C2 in Hd. cbn in Hd. by apply wrap64_succ_ne in Hd. }
  exists key, blk, off. split; [exact Hkey|]. fold db1. rewrite Hf. cbn [fst snd].
  split; [done|]. intros Hb.
  cbn [k_id incr_count] in Hu. rewrite Ha in Hu.
  change (m_aggr_attributes db1) with (m_aggr_attributes db) in Hu.
  destruct (update_kernels_spec _ _ _ _ _ _ _ Hu) as (F & _ & V); [cbn; lia|].
  cbn [m_kernels set_kernels]. split.
  - intros a attr_a Hat Hus. by apply (V a attr_a).
  - intros id Hid. apply F. intros j Hj. by apply Hid.
Qed.

Lemma process_snapshot_aggregates_witness :
  exists key blk off,
    snapshot_key (host false) [] (sample [7] 10) = Some key /\
    let r := find_entry key (negb (is_signal (host false)))
               (set_max_keylen (N.max (N.of_nat (length key)) (m_max_keylen fresh_db))
                  fresh_db) in
    let kid := k_id (BlockAlloc.read (m_trie r.1) blk off) in
    r.2 = BlockAlloc.Ptr blk off /\
    (kid + N.of_nat (length (m_aggr_attributes fresh_db)) <= 2 ^ 64 ->
     (forall a attr_a,
        m_aggr_attributes fresh_db !! a = Some attr_a ->
        slot_usable (negb (is_signal (host false))) (m_kernels r.1) (kid + N.of_nat a) ->
        kernel_at (m_kernels ingested_db) (kid + N.of_nat a)
        = AggregateKernel.add_all (values_of attr_a (immediate (sample [7] 10)))
            (kernel_at (m_kernels r.1) (kid + N.of_nat a))) /\
     (forall id,
        (forall a, (a < length (m_aggr_attributes fresh_db))%nat -> id <> kid + N.of_nat a) ->
        kernel_at (m_kernels ingested_db) id = kernel_at (m_kernels r.1) id)).
Proof.
  apply (process_snapshot_aggregates (host false) [] (sample [7] 10) fresh_db ingested_db).
  - vm_compute. lia.
  - vm_compute. reflexivity.
  - vm_compute. reflexivity.
Defined.

(** ** The key, encoded and decoded *)

Lemma land_lor_0x80 x : N.land (N.lor (N.land x 0x7F) 0x80) 0x7F = N.land x 0x7F.
Proof.
  rewrite N.land_lor_distr_l, <- N.land_assoc.
  change (N.land 0x7F 0x7F) with 0x7F. change (N.land 0x80 0x7F) with 0.
  apply N.lor_0_r.
Qed.

Lemma testbit_lor_0x80 x : N.testbit (N.lor x 0x80) 7 = true.
Proof. rewrite N.lor_spec. change (N.testbit 0x80 7) with true. apply orb_true_r. Qed.

Lemma testbit_7_small x : x <= 0x7F -> N.testbit x 7 = false.
Proof.
  intros Hx. rewrite N.testbit_eqb. rewrite N.div_small; [done|].
  change (2 ^ 7) with 128. lia.
Qed.

Lemma land_0x7F_small x : x <= 0x7F -> N.land x 0x7F = x.
Proof.
  intros Hx. change 0x7F with (N.ones 7). rewrite N.land_ones.
  apply N.mod_small. change (2 ^ 7) with 128. lia.
Qed.

Lemma split_low_7 x : N.lor (N.land x 0x7F) (N.shiftl (N.shiftr x 7) 7) = x.
Proof.
  change 0x7F with (N.ones 7). rewrite <- N.ldiff_ones_r.
  rewrite N.lor_comm. apply N.lor_ldiff_and.
Qed.

(** Decoding what was encoded gives the value and the number of its
    bytes. *)
Lemma vldec_vlenc_bytes more : forall val shift rest,
  val < 2 ^ (7 * N.of_nat (S more)) ->
  vldec_bytes more shift (vlenc_bytes more val ++ rest)
  = (N.shiftl val shift, length (vlenc_bytes more val)).
Proof.
  induction more as [|more IH]; intros val shift rest Hval.
  - cbn [vlenc_bytes vldec_bytes app head tail default from_option length]. unfold id.
    rewrite land_0x7F_small; [done|].
    assert (E : 2 ^ (7 * N.of_nat 1) = 128) by reflexivity. rewrite E in Hval. lia.
  - cbn [vlenc_bytes]. destruct (0x7F <? val) eqn:E.
    + cbn [vldec_bytes app head tail default from_option length]. unfold id.
      rewrite testbit_lor_0x80, land_lor_0x80.
      rewrite IH.
      2: { rewrite N.shiftr_div_pow2. apply N.Div0.div_lt_upper_bound.
           rewrite <- N.pow_add_r.
           replace (7 + 7 * N.of_nat (S more)) with (7 * N.of_nat (S (S more))) by lia.
           exact Hval. }
      f_equal. rewrite N.add_comm, <- N.shiftl_shiftl, <- N.shiftl_lor.
      by rewrite split_low_7.
    + apply N.ltb_ge in E.
      cbn [vldec_bytes app head tail default from_option length]. unfold id.
      rewrite testbit_7_small by done. by rewrite land_0x7F_small.
Qed.

Lemma vldec_vlenc_u64 val rest :
  vldec_u64 (vlenc_u64 val ++ rest) = (wrap64 val, length (vlenc_u64 val)).
Proof.
  unfold vldec_u64, vlenc_u64. rewrite vldec_vlenc_bytes.
  - rewrite N.shiftl_0_r. f_equal. unfold wrap64. apply N.Div0.mod_mod.
  - unfold wrap64. pose proof (N.mod_upper_bound val (2 ^ 64)).
    assert (2 ^ 64 < 2 ^ (7 * N.of_nat 10)) by (apply N.pow_lt_mono_r; lia). lia.
Qed.

(** With room for ten bytes at every step, the loop encodes every id. *)
Lemma encode_node_key_all : forall ids node_key,
  (length node_key + 10 * length ids < MAX_KEYLEN)%nat ->
  encode_node_key ids node_key = node_key ++ concat (vlenc_u64 <$> ids).
Proof.
  induction ids as [|id ids IH]; intros node_key Hlen; cbn [encode_node_key].
  { cbn. by rewrite app_nil_r. }
  cbn [length] in Hlen.
  destruct (Nat.ltb_spec (length node_key + 10) MAX_KEYLEN) as [_|Hge]; [|lia].
  rewrite IH.
  - cbn [fmap list_fmap concat]. by rewrite <- app_assoc.
  - rewrite length_app. pose proof (vlenc_u64_length id). lia.
Qed.

Lemma decode_nodes_encoded : forall ids pre rest,
  decode_nodes (length ids) (pre ++ concat (vlenc_u64 <$> ids) ++ rest) (length pre)
  = (RNode <$> (wrap64 <$> ids),
     (length pre + length (concat (vlenc_u64 <$> ids)))%nat).
Proof.
  induction ids as [|id ids IH]; intros pre rest.
  { cbn. by rewrite Nat.add_0_r. }
  cbn [length decode_nodes fmap list_fmap concat].
  rewrite drop_app_length. rewrite <- !app_assoc. rewrite vldec_vlenc_u64.
  replace (pre ++ vlenc_u64 id ++ concat (vlenc_u64 <$> ids) ++ rest)
    with ((pre ++ vlenc_u64 id) ++ concat (vlenc_u64 <$> ids) ++ rest)
    by (by rewrite <- app_assoc).
  rewrite <- length_app. rewrite IH. f_equal. rewrite !length_app. lia.
Qed.

(** Without an immediate entry of a key attribute the immediate loop
    leaves its state. *)
Lemma imm_scan_no_match node_key_len k attr_k : forall imms st,
  (forall e, e ∈ imms -> attr_k <> imm_attr e) ->
  imm_scan node_key_len k attr_k imms st = Some st.
Proof.
  induction imms as [|e imms IH]; intros st Hno; cbn [imm_scan]; [done|].
  rewrite bool_decide_eq_false_2 by (apply Hno, list_elem_of_here).
  apply IH. intros e' He'. apply Hno. by apply list_elem_of_further.
Qed.

Lemma imm_loop_no_match node_key_len imms : forall K k st,
  (forall attr_k e, attr_k ∈ K -> e ∈ imms -> attr_k <> imm_attr e) ->
  imm_loop node_key_len k K imms st = Some st.
Proof.
  induction K as [|attr_k K IH]; intros k st Hno; cbn [imm_loop]; [done|].
  rewrite imm_scan_no_match by (intros e He; apply Hno; [apply list_elem_of_here|done]).
  cbn [mbind option_bind]. apply IH.
  intros a e Ha He. apply Hno; [by apply list_elem_of_further|done].
Qed.

(** The node ids of a key come back.  For a snapshot of at most 12
    nodes (or with a known key attribute, which leaves one node at
    most) and without an immediate entry of a key attribute, the key has
    no immediate part, and [decode_key], the key part of the record that
    a flush writes for it, has one node entry for each id of
    [nodeid_vec], in the order of the vector. *)
Theorem decode_key_of_snapshot_key (c : Caliper) (K : list (option N))
    (snap : SnapshotRecord) :
  (length (node_entries snap) <= 12)%nat \/ (exists id, Some id ∈ K) ->
  (forall attr_k e, attr_k ∈ K -> e ∈ immediate snap -> attr_k <> imm_attr e) ->
  exists key,
    snapshot_key c K snap = Some key /\
    decode_key K key = Some (RNode <$> (wrap64 <$> nodeid_vec c K snap)).
Proof.
  intros Hn Hno.
  assert (Hlen : (length (nodeid_vec c K snap) <= 12)%nat).
  { destruct (nodeid_vec_length c K snap) as [H1 H2].
    destruct Hn as [Hn|Hn]; [lia|]. specialize (H2 Hn). lia. }
  unfold snapshot_key, snapshot_imm_key.
  set (ids := nodeid_vec c K snap) in *.
  rewrite imm_loop_no_match by done. cbn [mbind option_bind].
  eexists. split; [reflexivity|].
  unfold assemble_key. cbn [imm_key_bitfield imm_key_len imm_key].
  change (negb (0 =? 0)) with false. cbv iota.
  rewrite encode_node_key_all by (rewrite MAX_KEYLEN_128; cbn [length]; lia).
  cbn [app]. rewrite N.add_0_r.
  unfold decode_key. rewrite vldec_vlenc_u64.
  assert (Hw : wrap64 (N.of_nat (length ids) * 2) = N.of_nat (length ids) * 2).
  { unfold wrap64. apply N.mod_small. lia. }
  rewrite Hw.
  assert (Hi : int_of_u64 (N.of_nat (length ids) * 2) = (Z.of_nat (length ids) * 2)%Z).
  { unfold int_of_u64, wrap32. rewrite N.mod_small by lia.
    destruct (Z.ltb_spec (Z.of_N (N.of_nat (length ids) * 2)) (2 ^ 31)); lia. }
  rewrite Hi, Z.quot_mul by lia.
  rewrite Z.min_l by (unfold SNAP_MAX; lia). rewrite Nat2Z.id.
  pose proof (decode_nodes_encoded ids (vlenc_u64 (N.of_nat (length ids) * 2)) []) as Hd.
  rewrite Hd.
  assert (Hm : (N.of_nat (length ids) * 2) mod 2 = 0) by apply N.Div0.mod_mul.
  rewrite Hm. reflexivity.
Qed.

Lemma decode_key_of_snapshot_key_witness :
  exists key,
    snapshot_key (host false) [] (sample [7; 3; 5] 10) = Some key /\
    decode_key [] key
    = Some (RNode <$> (wrap64 <$> nodeid_vec (host false) [] (sample [7; 3; 5] 10))).
Proof.
  apply (decode_key_of_snapshot_key (host false) [] (sample [7; 3; 5] 10)).
  - left. vm_compute. lia.
  - intros attr_k e Hk. by apply elem_of_nil in Hk.
Defined.

(** ** The scenarios of the specification *)

(** One thread, the aggregated attribute [t], no key attribute: three
    snapshots at the node 7 are reduced to one record. *)
Lemma scenario_single_attribute :
  flushed_records [] ["t"%string] [sample [7] 10; sample [7] 30; sample [7] 20]
  = Some [[RNode 7;
           RImm (MinAttr 0) (VDouble 10); RImm (MaxAttr 0) (VDouble 30);
           RImm (SumAttr 0) (VDouble 60); RImm CountAttr (VUint 3)]].
Proof. vm_compute. reflexivity. Qed.

(** Snapshots with the nodes 3 and 5 in either order share a key. *)
Lemma scenario_key_canonicalization :
  flushed_records [] ["t"%string] [sample [3; 5] 1; sample [5; 3] 2]
  = Some [[RNode 3; RNode 5;
           RImm (MinAttr 0) (VDouble 1); RImm (MaxAttr 0) (VDouble 2);
           RImm (SumAttr 0) (VDouble 3); RImm CountAttr (VUint 2)]].
Proof. vm_compute. reflexivity. Qed.

(** The immediate key attribute [rank] separates the records. *)
Lemma scenario_immediate_key :
  flushed_records ["rank"%string] ["t"%string]
    [ranked_sample 0 1; ranked_sample 0 2; ranked_sample 1 5]
  = Some [[RImm (KeyAttr 0) (VUint 0);
           RImm (MinAttr 0) (VDouble 1); RImm (MaxAttr 0) (VDouble 2);
           RImm (SumAttr 0) (VDouble 3); RImm CountAttr (VUint 2)];
          [RImm (KeyAttr 0) (VUint 1);
           RImm (MinAttr 0) (VDouble 5); RImm (MaxAttr 0) (VDouble 5);
           RImm (SumAttr 0) (VDouble 5); RImm CountAttr (VUint 1)]].
Proof. vm_compute. reflexivity. Qed.

(** In signal context a snapshot on a thread without a database is
    dropped and counted globally; no database is constructed. *)
Lemma scenario_signal_drop :
  (s ← process_snapshot_cb 0 (host true) (platform true) (sample [7] 10)
         (init_static_data [] ["t"%string]);
   Some (dbs s, s_global_num_dropped (globals s)))
  = Some (∅, 1).
Proof. vm_compute. reflexivity. Qed.

(** A worker thread ingests one snapshot and ends: its database stays
    in the list, retired, until the next flush writes its record,
    unlinks it and deletes it. *)
Lemma scenario_thread_retirement :
  let trace := [EvPostInit 0 (host false) (platform true);
                EvProcessSnapshot 1 (host false) (platform true) (sample [7] 10);
                EvThreadExit 1] in
  let before := run trace (init_static_data [] ["t"%string]) in
  let after := s ← before; flush_cb 4 16 s in
  (s ← before; Some (s_list s, m_retired <$> dbs s !! 1, size (dbs s)))
  = Some (Some 1, Some true, 2%nat) /\
  (r ← after; Some (fl_visited r, length (fl_records r)))
  = Some ([1; 0], 1%nat) /\
  (r ← after; Some (s_list (fl_state r), m_retired <$> dbs (fl_state r) !! 1,
                    size (dbs (fl_state r))))
  = Some (Some 0, None, 1%nat).
Proof. cbv zeta. split_and!; vm_compute; reflexivity. Qed.
